(** * A shallow embedding of the YASF scene-file parser (Three.js)

    The parser reads a JSON scene description (globals, cameras, textures,
    materials and a scene graph) and builds Three.js objects from it.  This
    development embeds the parts of the code that decide the validators of
    [MyValidationUtils], the light factory [createLight], the texture-repeat
    post-pass of [createPrimitive], the material loading of [MyContents],
    [applyTransformations] and the recursive graph builder [GraphParser].

    JavaScript numbers are modelled as exact rationals extended with the two
    infinities and NaN; the rounding of IEEE doubles and the sign of zero are
    not modelled. *)

From Stdlib Require Import QArith Qabs Qminmax Qround String Ascii ZArith List Relations.
From Stdlib Require Import Lqa DecimalString DecimalNat.
From stdpp Require Import base gmap strings list.



(** ** JavaScript values *)
Module JS.

(** A JavaScript number. *)
Inductive jsnum :=
| JFin (q : Q)
| JPosInf
| JNegInf
| JNaN.

(** A JavaScript value as the scene JSON can deliver it.  [JObj] is a plain
    (non-array) object: its string conversion is "[object Object]". *)
Inductive jsval :=
| JUndef
| JNull
| JBool (b : bool)
| JNum (n : jsnum)
| JStr (s : string)
| JObj.


#[global] Instance Q_eq_dec : EqDecision Q.
Proof. intros [n1 d1] [n2 d2]; unfold Decision; decide equality; solve_decision. Defined.
#[global] Instance jsnum_eq_dec : EqDecision jsnum.
Proof. solve_decision. Defined.
#[global] Instance jsval_eq_dec : EqDecision jsval.
Proof. solve_decision. Defined.

(** Abstract relational comparison of two numbers; [None] when one of them
    is NaN (every comparison with NaN is false). *)
Definition js_cmp (a b : jsnum) : option comparison :=
  match a, b with
  | JNaN, _ | _, JNaN => None
  | JFin x, JFin y => Some (Qcompare x y)
  | JNegInf, JNegInf | JPosInf, JPosInf => Some Eq
  | JNegInf, _ | _, JPosInf => Some Lt
  | JPosInf, _ | _, JNegInf => Some Gt
  end.

Definition js_lt (a b : jsnum) : bool :=
  match js_cmp a b with Some Lt => true | _ => false end.
Definition js_gt (a b : jsnum) : bool :=
  match js_cmp a b with Some Gt => true | _ => false end.
Definition js_le (a b : jsnum) : bool :=
  match js_cmp a b with Some Lt | Some Eq => true | _ => false end.
Definition js_ge (a b : jsnum) : bool :=
  match js_cmp a b with Some Gt | Some Eq => true | _ => false end.
(** Strict equality [===] on numbers. *)
Definition js_eqn (a b : jsnum) : bool :=
  match js_cmp a b with Some Eq => true | _ => false end.

Definition js_isNaN (a : jsnum) : bool :=
  match a with JNaN => true | _ => false end.

(** [Math.abs] *)
Definition js_abs (a : jsnum) : jsnum :=
  match a with
  | JFin q => JFin (Qabs q)
  | JPosInf | JNegInf => JPosInf
  | JNaN => JNaN
  end.

(** unary minus *)
Definition js_neg (a : jsnum) : jsnum :=
  match a with
  | JFin q => JFin (- q)
  | JPosInf => JNegInf
  | JNegInf => JPosInf
  | JNaN => JNaN
  end.

(** [Math.min] and [Math.max] of two numbers. *)
Definition js_min (a b : jsnum) : jsnum :=
  match js_cmp a b with
  | None => JNaN
  | Some Gt => b
  | Some _ => a
  end.
Definition js_max (a b : jsnum) : jsnum :=
  match js_cmp a b with
  | None => JNaN
  | Some Lt => b
  | Some _ => a
  end.


(** Binary arithmetic on numbers. *)
Definition js_add (a b : jsnum) : jsnum :=
  match a, b with
  | JNaN, _ | _, JNaN => JNaN
  | JFin x, JFin y => JFin (x + y)
  | JPosInf, JNegInf | JNegInf, JPosInf => JNaN
  | JPosInf, _ | _, JPosInf => JPosInf
  | JNegInf, _ | _, JNegInf => JNegInf
  end.

Definition js_sub (a b : jsnum) : jsnum := js_add a (js_neg b).

Definition js_div (a b : jsnum) : jsnum :=
  match a, b with
  | JNaN, _ | _, JNaN => JNaN
  | JFin x, JFin y =>
      if Qeq_bool y 0 then
        match Qcompare x 0 with Gt => JPosInf | Lt => JNegInf | Eq => JNaN end
      else JFin (x / y)
  | JFin _, _ => JFin 0
  | _, JFin y =>
      (* an infinity divided by a finite number; +0 keeps the sign *)
      if Qle_bool 0 y then a else js_neg a
  | _, _ => JNaN
  end.

(** Truthiness of a number: 0 and NaN are falsy. *)
Definition js_truthy_num (a : jsnum) : bool :=
  match a with
  | JFin q => negb (Qeq_bool q 0)
  | JNaN => false
  | _ => true
  end.

(** [typeof] *)
Definition js_typeof (v : jsval) : string :=
  match v with
  | JUndef => "undefined"
  | JNull | JObj => "object"
  | JBool _ => "boolean"
  | JNum _ => "number"
  | JStr _ => "string"
  end.

(** *** parseFloat *)

Definition is_ws (c : ascii) : bool :=
  match nat_of_ascii c with
  | 32 | 9 | 10 | 11 | 12 | 13 => true
  | _ => false
  end.

Definition digit_val (c : ascii) : option Z :=
  let n := nat_of_ascii c in
  if (48 <=? n)%nat && (n <=? 57)%nat then Some (Z.of_nat (n - 48)) else None.

Fixpoint skip_ws (l : list ascii) : list ascii :=
  match l with
  | c :: r => if is_ws c then skip_ws r else l
  | [] => []
  end.

(** Reads a maximal run of decimal digits: the value accumulated onto
    [acc], the number of digits read and the rest of the input. *)
Fixpoint read_digits (l : list ascii) (acc : Z) (n : nat)
  : Z * nat * list ascii :=
  match l with
  | c :: r =>
      match digit_val c with
      | Some d => read_digits r (acc * 10 + d)%Z (S n)
      | None => (acc, n, l)
      end
  | [] => (acc, n, l)
  end.

Definition starts_with (p l : list ascii) : bool :=
  bool_decide (take (length p) l = p).

(** The optional exponent part [e[+-]digits]: only taken when at least
    one digit follows. *)
Definition read_exponent (l : list ascii) : Z :=
  match l with
  | c :: r =>
      if (Ascii.eqb c "e" || Ascii.eqb c "E")%bool then
        let '(sgn, r') :=
          match r with
          | s :: r'' =>
              if Ascii.eqb s "-" then ((-1)%Z, r'')
              else if Ascii.eqb s "+" then (1%Z, r'') else (1%Z, r)
          | [] => (1%Z, r)
          end in
        let '(e, k, _) := read_digits r' 0 0 in
        if (k =? 0)%nat then 0%Z else (sgn * e)%Z
      else 0%Z
  | [] => 0%Z
  end.

(** [m * 10^e] as a rational. *)
Definition scale10 (m e : Z) : Q :=
  if (0 <=? e)%Z then inject_Z (m * 10 ^ e) else Qmake m (Z.to_pos (10 ^ (- e))).

(** The unsigned StrDecimalLiteral prefix of the input, if any. *)
Definition parse_unsigned (l : list ascii) : jsnum :=
  if starts_with (list_ascii_of_string "Infinity") l then JPosInf else
  let '(ip, ni, r1) := read_digits l 0 0 in
  let '(m, nf, r2) :=
    match r1 with
    | c :: r => if Ascii.eqb c "." then read_digits r ip 0 else (ip, 0%nat, r1)
    | [] => (ip, 0%nat, r1)
    end in
  if ((ni =? 0)%nat && (nf =? 0)%nat)%bool then JNaN
  else JFin (scale10 m (read_exponent r2 - Z.of_nat nf)).

Definition parse_float_string (s : string) : jsnum :=
  match skip_ws (list_ascii_of_string s) with
  | c :: r =>
      if Ascii.eqb c "-" then js_neg (parse_unsigned r)
      else if Ascii.eqb c "+" then parse_unsigned r
      else parse_unsigned (c :: r)
  | [] => JNaN
  end.

(** [parseFloat(v)]: the argument is first converted to a string; a number
    converts to a string that parses back to itself. *)
Definition parseFloat (v : jsval) : jsnum :=
  match v with
  | JNum n => n
  | JStr s => parse_float_string s
  | JUndef | JNull | JBool _ | JObj => JNaN
  end.

(** *** toLowerCase on ASCII strings *)
Definition ascii_lower (c : ascii) : ascii :=
  let n := nat_of_ascii c in
  if (65 <=? n)%nat && (n <=? 90)%nat then ascii_of_nat (n + 32) else c.

Fixpoint toLowerCase (s : string) : string :=
  match s with
  | EmptyString => EmptyString
  | String c r => String (ascii_lower c) (toLowerCase r)
  end.

(** A JSON object with [x], [y], [z] (or [r], [g], [b]) members; a missing
    member is [JUndef]. *)
Record vec3 := mkVec3 { vx : jsval; vy : jsval; vz : jsval }.

(** [a ?? b] on a value. *)
Definition nullish (a b : jsval) : jsval :=
  match a with JUndef | JNull => b | _ => a end.

(** The members that a plain object ([{}], an object of [JSON.parse])
    inherits from [Object.prototype]: [obj[key]] finds them when [key] is
    not an own member, and all of them are truthy (functions, and
    [Object.prototype] itself for [__proto__]). *)
Definition objectPrototypeKey (key : string) : bool :=
  bool_decide (key ∈ ["constructor"; "__defineGetter__"; "__defineSetter__";
                      "hasOwnProperty"; "__lookupGetter__"; "__lookupSetter__";
                      "isPrototypeOf"; "propertyIsEnumerable"; "toString"; "valueOf";
                      "__proto__"; "toLocaleString"]%string).

End JS.
Import JS.

(** ** MyValidationUtils (src/parser/customClasses/02_MyCamera.js) *)
Module Validation.

Definition toValidFloat (value : jsval) (defaultValue : jsnum) : jsnum :=
  let num := parseFloat value in
  if js_isNaN num then defaultValue else num.

Definition validateAngle (value : jsval) (minimumAngle maximumAngle defaultValue : jsnum)
  : jsnum :=
  let angle := toValidFloat value defaultValue in
  if js_le angle minimumAngle || js_ge angle maximumAngle then defaultValue
  else angle.

Definition validateLeftRight (left right defaultLeft defaultRight : jsnum)
  : jsnum * jsnum :=
  if js_eqn left (JFin 0) || js_eqn right (JFin 0) then (defaultLeft, defaultRight)
  else if (js_lt left (JFin 0) && js_le right (JFin 0))
          || (js_gt left (JFin 0) && js_ge right (JFin 0))
  then (js_neg (js_abs left), js_abs right)
  else (left, right).

Definition validateBottomTop (bottom top defaultBottom defaultTop : jsnum)
  : jsnum * jsnum :=
  if js_eqn bottom (JFin 0) || js_eqn top (JFin 0) then (defaultBottom, defaultTop)
  else if (js_lt bottom (JFin 0) && js_le top (JFin 0))
          || (js_gt bottom (JFin 0) && js_ge top (JFin 0))
  then (js_neg (js_abs bottom), js_abs top)
  else (bottom, top).

Definition validateDistance (value : jsval) (defaultValue : jsnum) : jsnum :=
  let distance := toValidFloat value defaultValue in
  if js_lt distance (JFin 0) then defaultValue else distance.

Definition validateIntensity (value : jsval) (defaultValue : jsnum) : jsnum :=
  let intensity := toValidFloat value defaultValue in
  if js_lt intensity (JFin 0) then defaultValue else intensity.

Definition validateDecay (value : jsval) (defaultValue : jsnum) : jsnum :=
  let decay := toValidFloat value defaultValue in
  if js_lt decay (JFin 0) || js_gt decay (JFin 2) then defaultValue else decay.

Definition validatePenumbra (value : jsval) (defaultValue : jsnum) : jsnum :=
  let penumbra := toValidFloat value defaultValue in
  if js_lt penumbra (JFin 0) || js_gt penumbra (JFin 1) then defaultValue else penumbra.

Definition parseBoolean (value : jsval) (defaultValue : bool) : bool :=
  match value with
  | JBool b => b
  | JStr s => bool_decide (toLowerCase s ∈ ["true"; "1"]%string)
  | JNum n => negb (js_eqn n (JFin 0))
  | _ => defaultValue
  end.

Definition toValidOpacity (value : jsval) (defaultValue : jsnum) : jsnum :=
  let num := parseFloat value in
  if js_isNaN num then defaultValue else js_max (JFin 0) (js_min num (JFin 1)).

Definition validateShadowProperty (value : jsval) (defaultValue : jsnum) : jsnum :=
  toValidFloat value defaultValue.

End Validation.
Import Validation.


(** ** createLight (src/parser/utils/MyLightUtils.js) *)
Module Light.

(** [MyValidationUtils.parseColor]: each component divided by 255 and
    clamped to [0, 1]. *)
Definition parseColor (color : option vec3) : jsnum * jsnum * jsnum :=
  let comp (v : option jsval) :=
    js_max (JFin 0) (js_min (JFin 1)
      (js_div (parseFloat (nullish (default JUndef v) (JNum (JFin 0)))) (JFin 255))) in
  (comp (vx <$> color), comp (vy <$> color), comp (vz <$> color)).

(** [Number.isInteger] on a value. *)
Definition isInteger (v : jsval) : bool :=
  match v with
  | JNum (JFin q) => Qeq_bool q (inject_Z (Qfloor q))
  | _ => false
  end.

Definition validateShadowMapSize (value : jsval) (defaultValue : jsnum) : jsnum :=
  if negb (isInteger value) || js_le (parseFloat value) (JFin 0) then defaultValue
  else parseFloat value.

(** The members of a light declaration that [createLight] reads. *)
Record lightData := mkLightData {
  ld_type : jsval;
  ld_color : option vec3;
  ld_intensity : jsval;
  ld_distance : jsval;
  ld_decay : jsval;
  ld_angle : jsval;
  ld_penumbra : jsval;
  ld_shadowleft : jsval;
  ld_shadowright : jsval;
  ld_shadowbottom : jsval;
  ld_shadowtop : jsval;
  ld_enabled : jsval;
  ld_castshadow : jsval;
  ld_shadowmapsize : jsval;
  ld_position : option vec3;
  ld_target : option vec3
}.

Inductive lightKind := PointLight | SpotLight | DirectionalLight.

(** The bounds of the orthographic shadow camera of a light. *)
Record shadowCamera := mkShadowCamera {
  sc_left : jsnum; sc_right : jsnum; sc_bottom : jsnum; sc_top : jsnum
}.

(** The Three.js light built by [createLight].  The spotlight cone angle is
    kept in degrees, i.e. as the argument passed to [degToRad]. *)
Record light := mkLight {
  l_kind : lightKind;
  l_color : jsnum * jsnum * jsnum;
  l_intensity : jsnum;
  l_distance : option jsnum;
  l_decay : option jsnum;
  l_angle_deg : option jsnum;
  l_penumbra : option jsnum;
  l_shadow_camera : option shadowCamera;
  l_visible : bool;
  l_castShadow : bool;
  l_mapSize : jsnum;
  l_position : jsnum * jsnum * jsnum;
  l_target : option (jsnum * jsnum * jsnum);
  l_name : option string
}.

(** The group returned by [createLight]: the light (and its target); its
    visibility is the light's. *)
Record lightGroup := mkLightGroup { lg_light : light; lg_visible : bool }.

(** Console warnings emitted by [createLight]. *)
Inductive warning :=
| WarnShadowLeft (v : jsnum)
| WarnShadowRight (v : jsnum)
| WarnShadowBottom (v : jsnum)
| WarnShadowTop (v : jsnum)
| WarnUnsupported (t : jsval).

Definition vec_of (v : option vec3) (dx dy dz : jsnum) : jsnum * jsnum * jsnum :=
  (toValidFloat (default JUndef (vx <$> v)) dx,
   toValidFloat (default JUndef (vy <$> v)) dy,
   toValidFloat (default JUndef (vz <$> v)) dz).

(** The [directionallight] case: the shadow bounds after the sign
    corrections, with the warnings emitted, in order. *)
Definition directionalShadow (ld : lightData) : shadowCamera * list warning :=
  let shadowLeft := validateShadowProperty (ld_shadowleft ld) (JFin (-5)) in
  let shadowRight := validateShadowProperty (ld_shadowright ld) (JFin 5) in
  let shadowBottom := validateShadowProperty (ld_shadowbottom ld) (JFin (-5)) in
  let shadowTop := validateShadowProperty (ld_shadowtop ld) (JFin 5) in
  let '(shadowLeft, w1) :=
    if js_gt shadowLeft (JFin 0)
    then (js_neg (js_abs shadowLeft), [WarnShadowLeft shadowLeft]) else (shadowLeft, []) in
  let '(shadowRight, w2) :=
    if js_lt shadowRight (JFin 0)
    then (js_abs shadowRight, [WarnShadowRight shadowRight]) else (shadowRight, []) in
  let '(shadowBottom, w3) :=
    if js_gt shadowBottom (JFin 0)
    then (js_neg (js_abs shadowBottom), [WarnShadowBottom shadowBottom])
    else (shadowBottom, []) in
  let '(shadowTop, w4) :=
    if js_lt shadowTop (JFin 0)
    then (js_abs shadowTop, [WarnShadowTop shadowTop]) else (shadowTop, []) in
  (mkShadowCamera shadowLeft shadowRight shadowBottom shadowTop, w1 ++ w2 ++ w3 ++ w4).

(** [createLight(lightData, lightId)]: the light group (or null) and the
    warnings emitted. *)
Definition createLight (ld : lightData) (lightId : string)
  : option lightGroup * list warning :=
  let color := parseColor (match ld_color ld with
                           | Some c => Some c
                           | None => Some (mkVec3 (JNum (JFin 255)) (JNum (JFin 255))
                                                  (JNum (JFin 255))) end) in
  let built :=
    match ld_type ld with
    | JStr "pointlight" =>
        Some (PointLight, validateIntensity (ld_intensity ld) (JFin 1),
              Some (validateDistance (ld_distance ld) (JFin 1000)),
              Some (validateDecay (ld_decay ld) (JFin 2)), None, None, None, [])
    | JStr "spotlight" =>
        Some (SpotLight, validateIntensity (ld_intensity ld) (JFin 1),
              Some (validateDistance (ld_distance ld) (JFin 1000)),
              Some (validateDecay (ld_decay ld) (JFin 2)),
              Some (validateAngle (ld_angle ld) (JFin 0) (JFin 180) (JFin 45)),
              Some (validatePenumbra (ld_penumbra ld) (JFin (2#10))), None, [])
    | JStr "directionallight" =>
        let '(cam, ws) := directionalShadow ld in
        Some (DirectionalLight, validateIntensity (ld_intensity ld) (JFin 1),
              None, None, None, None, Some cam, ws)
    | _ => None
    end in
  match built with
  | None => (None, [WarnUnsupported (ld_type ld)])
  | Some (kind, intensity, distance, decay, angle, penumbra, cam, ws) =>
      let visible := parseBoolean (ld_enabled ld) true in
      let l := mkLight kind color intensity distance decay angle penumbra cam
                 visible (parseBoolean (ld_castshadow ld) false)
                 (validateShadowMapSize (ld_shadowmapsize ld) (JFin 512))
                 (vec_of (ld_position ld) (JFin 0) (JFin 0) (JFin 0))
                 (match kind with
                  | PointLight => None
                  | _ => Some (vec_of (ld_target ld) (JFin 0) (JFin 0) (JFin 0))
                  end)
                 (if bool_decide (lightId = ""%string) then None else Some lightId) in
      (Some (mkLightGroup l visible), ws)
  end.

End Light.


(** ** The texture-repeat post-pass of createPrimitive
    (src/parser/utils/MyPrimitiveUtils.js) *)
Module Primitive.

(** The members of a primitive declaration that decide its bounding box and
    the texture-repeat post-pass. *)
Record primitiveData := mkPrimitiveData {
  pd_type : string;
  pd_xy1 : option vec3;
  pd_xy2 : option vec3;
  pd_xyz1 : option vec3;
  pd_xyz2 : option vec3;
  pd_xyz3 : option vec3;
  pd_parts_u : jsval;
  pd_parts_v : jsval
}.

(** The members of a Three.js material that the post-pass reads: whether a
    colour map is bound and the [texlength_s]/[texlength_t] attached by
    [createThreeMaterialAsync] ([None] when the property is undefined). *)
Record material := mkMaterial {
  mat_uuid : string;
  mat_map : bool;
  mat_texlength_s : option jsnum;
  mat_texlength_t : option jsnum
}.

(** The clone of [appMyContents.defaultMaterial] (a MeshLambertMaterial with
    no map and no texture lengths). *)
Definition defaultMaterialClone : material := mkMaterial "default" false None None.

Definition point := (jsnum * jsnum * jsnum)%type.

(** The geometry built for each kind.  Rectangles, triangles and boxes are
    built from explicit vertices; cylinders, spheres and NURBS surfaces are
    tessellated by Three.js, and only the extent of their bounding box is
    kept. *)
Inductive geometry :=
| GPlane (w h ox oy : jsnum)
| GTriangle (v1 v2 v3 : point)
| GBox (w h d ox oy oz : jsnum)
| GLibrary (extentX extentY : jsnum).

Definition coord (v : option vec3) (f : vec3 -> jsval) (d : jsnum) : jsnum :=
  toValidFloat (default JUndef (f <$> v)) d.

Definition half : jsnum := JFin (1#2).

(** Multiplication; an infinite factor gives an infinity of the sign of the
    product, or NaN against zero. *)
Definition js_mul (a b : jsnum) : jsnum :=
  match a, b with
  | JNaN, _ | _, JNaN => JNaN
  | JFin x, JFin y => JFin (x * y)
  | _, _ =>
      match js_cmp a (JFin 0), js_cmp b (JFin 0) with
      | Some Eq, _ | _, Some Eq => JNaN
      | Some Gt, Some Gt | Some Lt, Some Lt => JPosInf
      | _, _ => JNegInf
      end
  end.

(** The vertices of a geometry (x, y only: the bounding box extents used by
    the post-pass are along x and y). *)
Definition vertices (g : geometry) : list (jsnum * jsnum) :=
  match g with
  | GPlane w h ox oy =>
      let x0 := js_add (js_neg (js_div w (JFin 2))) ox in
      let x1 := js_add (js_div w (JFin 2)) ox in
      let y0 := js_add (js_neg (js_div h (JFin 2))) oy in
      let y1 := js_add (js_div h (JFin 2)) oy in
      [(x0, y1); (x1, y1); (x0, y0); (x1, y0)]
  | GTriangle (x1, y1, _) (x2, y2, _) (x3, y3, _) => [(x1, y1); (x2, y2); (x3, y3)]
  | GBox w h _ ox oy _ =>
      let x0 := js_add (js_neg (js_div w (JFin 2))) ox in
      let x1 := js_add (js_div w (JFin 2)) ox in
      let y0 := js_add (js_neg (js_div h (JFin 2))) oy in
      let y1 := js_add (js_div h (JFin 2)) oy in
      [(x0, y0); (x1, y0); (x0, y1); (x1, y1)]
  | GLibrary _ _ => []
  end.

(** [geometry.computeBoundingBox()] followed by [max - min] along x and y. *)
Definition boundingBoxExtent (g : geometry) : jsnum * jsnum :=
  match g with
  | GLibrary ex ey => (ex, ey)
  | _ =>
      let vs := vertices g in
      let ext (f : jsnum * jsnum -> jsnum) :=
        js_sub (fold_left (fun m v => js_max m (f v)) vs JNegInf)
               (fold_left (fun m v => js_min m (f v)) vs JPosInf) in
      (ext fst, ext snd)
  end.

Section TextureRepeat.

(** [Math.sqrt], used only by the triangle-area branch. *)
Variable Math_sqrt : jsnum -> jsnum.
(** The bounding-box extents of the geometries tessellated by Three.js
    (cylinder, sphere, nurbs). *)
Variable libraryExtent : primitiveData -> jsnum * jsnum.

(** The geometry of each supported non-polygon kind. *)
Definition buildGeometry (pd : primitiveData) : option geometry :=
  match pd_type pd with
  | "rectangle" =>
      let x1 := coord (pd_xy1 pd) vx (JFin (-1#2)) in
      let x2 := coord (pd_xy2 pd) vx half in
      let y1 := coord (pd_xy1 pd) vy (JFin (-1#2)) in
      let y2 := coord (pd_xy2 pd) vy half in
      Some (GPlane (js_abs (js_sub x2 x1)) (js_abs (js_sub y2 y1))
                   (js_div (js_add x1 x2) (JFin 2)) (js_div (js_add y1 y2) (JFin 2)))
  | "triangle" =>
      let v (p : option vec3) (dx dy dz : jsnum) : point :=
        (coord p vx dx, coord p vy dy, coord p vz dz) in
      Some (GTriangle (v (pd_xyz1 pd) (JFin 0) (JFin 0) (JFin 0))
                      (v (pd_xyz2 pd) (JFin 1) (JFin 0) (JFin 0))
                      (v (pd_xyz3 pd) half (JFin 1) (JFin 0)))
  | "box" =>
      let a (f : vec3 -> jsval) := coord (pd_xyz1 pd) f (JFin (-1)) in
      let b (f : vec3 -> jsval) := coord (pd_xyz2 pd) f (JFin 1) in
      Some (GBox (js_abs (js_sub (b vx) (a vx))) (js_abs (js_sub (b vy) (a vy)))
                 (js_abs (js_sub (b vz) (a vz)))
                 (js_div (js_add (a vx) (b vx)) (JFin 2))
                 (js_div (js_add (a vy) (b vy)) (JFin 2))
                 (js_div (js_add (a vz) (b vz)) (JFin 2)))
  | "cylinder" | "sphere" | "nurbs" =>
      let '(ex, ey) := libraryExtent pd in Some (GLibrary ex ey)
  | _ => None
  end.

(** [edge1.cross(edge2).length() / 2] for the first three positions. *)
Definition triangleArea (g : geometry) : jsnum :=
  match g with
  | GTriangle (x1, y1, z1) (x2, y2, z2) (x3, y3, z3) =>
      let '(ax, ay, az) := (js_sub x2 x1, js_sub y2 y1, js_sub z2 z1) in
      let '(bx, by', bz) := (js_sub x3 x1, js_sub y3 y1, js_sub z3 z1) in
      let cx := js_sub (js_mul ay bz) (js_mul az by') in
      let cy := js_sub (js_mul az bx) (js_mul ax bz) in
      let cz := js_sub (js_mul ax by') (js_mul ay bx) in
      js_div (Math_sqrt (js_add (js_add (js_mul cx cx) (js_mul cy cy)) (js_mul cz cz)))
             (JFin 2)
  | _ => JNaN
  end.

(** [x || 1] on a number. *)
Definition orOne (x : jsnum) : jsnum := if js_truthy_num x then x else JFin 1.

(** A texture length read from the material: undefined converts to NaN. *)
Definition texlen (o : option jsnum) : jsnum := default JNaN o.

(** The repeat set on the map of the mesh material by [createPrimitive], or
    [None] when it sets none (no map, a polygon, an unsupported kind). *)
Definition textureRepeat (pd : primitiveData) (mat : option material)
  : option (jsnum * jsnum) :=
  let specialTextureHandling := false in
  if bool_decide (pd_type pd = "polygon"%string) then None else
  match buildGeometry pd with
  | None => None
  | Some geometry =>
      let meshMaterial := match mat with Some m => m | None => defaultMaterialClone end in
      if mat_map meshMaterial then
        if specialTextureHandling then
          if bool_decide (pd_type pd = "triangle"%string) then
            let area := triangleArea geometry in
            Some (js_div area (texlen (mat_texlength_s meshMaterial)),
                  js_div area (texlen (mat_texlength_t meshMaterial)))
          else if bool_decide (pd_type pd = "nurbs"%string) then
            Some (js_div (toValidFloat (pd_parts_u pd) (JFin 10))
                         (texlen (mat_texlength_s meshMaterial)),
                  js_div (toValidFloat (pd_parts_v pd) (JFin 10))
                         (texlen (mat_texlength_t meshMaterial)))
          else None
        else
          let '(texScaleS, texScaleT) := boundingBoxExtent geometry in
          Some (orOne (js_div texScaleS (texlen (mat_texlength_s meshMaterial))),
                orOne (js_div texScaleT (texlen (mat_texlength_t meshMaterial))))
      else None
  end.

End TextureRepeat.

End Primitive.

(** ** applyTransformations (src/parser/utils/MyTransformUtils.js) *)
Module Transform.

(** A transformation entry [{ type, amount }]. *)
Record transform := mkTransform { t_type : jsval; t_amount : vec3 }.

Definition triple := (jsnum * jsnum * jsnum)%type.

(** The position, rotation and scale of an Object3D.  A rotation component
    is kept in degrees, i.e. as the argument given to [degToRad]. *)
Record tstate := mkTState { position : triple; rotation_deg : triple; scale : triple }.

(** A fresh Group: position 0, rotation 0, scale 1. *)
Definition initialTState : tstate :=
  mkTState (JFin 0, JFin 0, JFin 0) (JFin 0, JFin 0, JFin 0) (JFin 1, JFin 1, JFin 1).

(** One iteration of [transforms.forEach]. *)
Definition applyTransformation (group : tstate) (transform : transform) : tstate :=
  let type := t_type transform in
  let amount := t_amount transform in
  if bool_decide (type = JStr "translate") then
    mkTState (toValidFloat (vx amount) (JFin 0), toValidFloat (vy amount) (JFin 0),
              toValidFloat (vz amount) (JFin 0))
             (rotation_deg group) (scale group)
  else if bool_decide (type = JStr "rotate") then
    mkTState (position group)
             (validateAngle (vx amount) (JFin (-360)) (JFin 360) (JFin 0),
              validateAngle (vy amount) (JFin (-360)) (JFin 360) (JFin 0),
              validateAngle (vz amount) (JFin (-360)) (JFin 360) (JFin 0))
             (scale group)
  else if bool_decide (type = JStr "scale") then
    mkTState (position group) (rotation_deg group)
             (toValidFloat (vx amount) (JFin 1), toValidFloat (vy amount) (JFin 1),
              toValidFloat (vz amount) (JFin 1))
  else group.

Definition applyTransformations (group : tstate) (transforms : list transform) : tstate :=
  fold_left applyTransformation transforms group.

End Transform.

(** ** MyMaterials (src/parser/customClasses/04_MyMaterials.js) and
    MyContents.materialsRendering (src/MyContents.js) *)
Module Materials.

(** A loaded texture, identified by its texture id. *)
Record texture := mkTexture { tex_id : string }.

(** The members of a material declaration that the constructor reads; a
    colour member is [None] when it is falsy. *)
Record materialData := mkMaterialData {
  md_color : option vec3;
  md_specular : option vec3;
  md_emissive : option vec3;
  md_shininess : jsval;
  md_transparent : jsval;
  md_opacity : jsval;
  md_wireframe : jsval;
  md_shading : jsval;
  md_twosided : jsval;
  md_textureref : option string;
  md_texlength_s : jsval;
  md_texlength_t : jsval;
  md_bumpref : option string;
  md_bumpscale : jsval;
  md_specularref : option string
}.

Definition color := (jsnum * jsnum * jsnum)%type.

(** A [MyMaterials] instance.  The texture members hold the textures the
    constructor looked up with [getTexture] (not yet awaited). *)
Record myMaterial := mkMyMaterial {
  mm_materialId : string;
  mm_color : color;
  mm_specular : color;
  mm_emissive : color;
  mm_shininess : jsnum;
  mm_transparent : bool;
  mm_opacity : jsnum;
  mm_wireframe : bool;
  mm_shading : bool;
  mm_twosided : bool;
  mm_textureref : option texture;
  mm_texlength_s : jsnum;
  mm_texlength_t : jsnum;
  mm_bumpref : option texture;
  mm_bumpscale : jsnum;
  mm_specularref : option texture
}.

(** The MeshPhongMaterial built by [createThreeMaterialAsync]. *)
Record threeMaterial := mkThreeMaterial {
  tm_color : color;
  tm_specular : color;
  tm_shininess : jsnum;
  tm_opacity : jsnum;
  tm_map : option texture;
  tm_texlength_s : jsnum;
  tm_texlength_t : jsnum
}.

Definition white : vec3 := mkVec3 (JNum (JFin 255)) (JNum (JFin 255)) (JNum (JFin 255)).
Definition black : vec3 := mkVec3 (JNum (JFin 0)) (JNum (JFin 0)) (JNum (JFin 0)).

(** [getTexture(textures, ref)]: null when the reference is missing or
    unknown. *)
Definition getTexture (textures : gmap string texture) (ref : option string) : option texture :=
  match ref with
  | Some r => if bool_decide (r = ""%string) then None else textures !! r
  | None => None
  end.

Definition newMyMaterials (materialId : string) (md : materialData)
    (textures : gmap string texture) : myMaterial :=
  mkMyMaterial materialId
    (Light.parseColor (Some (default white (md_color md))))
    (Light.parseColor (Some (default white (md_specular md))))
    (Light.parseColor (Some (default black (md_emissive md))))
    (toValidFloat (md_shininess md) (JFin 30))
    (parseBoolean (md_transparent md) false)
    (toValidOpacity (md_opacity md) (JFin 1))
    (parseBoolean (md_wireframe md) false)
    (parseBoolean (md_shading md) false)
    (parseBoolean (md_twosided md) false)
    (getTexture textures (md_textureref md))
    (toValidFloat (md_texlength_s md) (JFin 1))
    (toValidFloat (md_texlength_t md) (JFin 1))
    (getTexture textures (md_bumpref md))
    (toValidFloat (md_bumpscale md) (JFin 1))
    (getTexture textures (md_specularref md)).

(** [isValid()]: the colours are THREE.Color objects, always truthy. *)
Definition isValid (m : myMaterial) : bool :=
  let truthy (_ : color) := true in
  truthy (mm_color m) && truthy (mm_specular m) && js_ge (mm_shininess m) (JFin 0).

(** [createThreeMaterialAsync()] once its textures are resolved. *)
Definition createThreeMaterial (m : myMaterial) : threeMaterial :=
  mkThreeMaterial (mm_color m) (mm_specular m) (mm_shininess m) (mm_opacity m)
    (mm_textureref m) (mm_texlength_s m) (mm_texlength_t m).

Inductive warning := WarnNoMaterials | WarnInvalidMaterial (materialId : string).

(** The synchronous loop of [materialsRendering]: the materials whose
    [createThreeMaterialAsync] has been started, in order, and the warnings.
    The mapping is only written by the promises, after the loop. *)
Definition materialsRendering (materials : gmap string threeMaterial)
    (textures : gmap string texture) (materialsData : list (string * materialData))
  : list (string * myMaterial) * list warning :=
  match materialsData with
  | [] => ([], [WarnNoMaterials])
  | _ =>
      fold_left (fun '(started, ws) '(materialId, materialData) =>
        if bool_decide (materialId = ""%string) || bool_decide (is_Some (materials !! materialId))
        then (started, ws)
        else
          let myMaterial := newMyMaterials materialId materialData textures in
          if isValid myMaterial then (started ++ [(materialId, myMaterial)], ws)
          else (started, ws ++ [WarnInvalidMaterial materialId]))
        materialsData ([], [])
  end.

(** The mapping once the started promises have resolved, in the order
    [order] in which their [then] callbacks run. *)
Definition resolveMaterials (materials : gmap string threeMaterial)
    (order : list (string * myMaterial)) : gmap string threeMaterial :=
  fold_left (fun acc '(materialId, m) => <[materialId := createThreeMaterial m]> acc)
    order materials.

End Materials.

(** ** GraphParser (src/parser/utils/MyTransformUtils.js) *)
Module Graph.
Import Transform.

(** An entry [{ nodeId, mindist }] of [lodNodes]; [le_nodeId] is [None]
    when the member is absent. *)
Record lodEntry := mkLodEntry { le_nodeId : option string; le_mindist : jsval }.

(** A child declaration.  [cd_payload] holds the other members, which only
    [createPrimitive] and [createLight] read. *)
Record childData := mkChildData {
  cd_type : jsval;
  cd_nodeId : option string;
  cd_lodNodes : option (list lodEntry);
  cd_transforms : option (list transform);
  cd_payload : list (string * jsval)
}.

(** A member of [children]: an object, or an array such as [nodesList]. *)
Inductive childValue := CObj (c : childData) | CArr (ids : list string).

(** A node declaration.  [nd_materialref] is [materialref?.materialId];
    [nd_children] lists the members of [children] in the order in which
    [for ... in] enumerates them (the keys of a parsed JSON object are
    distinct). *)
Record nodeData := mkNodeData {
  nd_transforms : option (list transform);
  nd_materialref : option string;
  nd_castshadow : jsval;
  nd_receiveshadow : jsval;
  nd_children : option (list (string * childValue));
  nd_lodNodes : option (list lodEntry)
}.

(** The members [createLOD] reads from its [lodData] argument, which is a
    child declaration or a node declaration. *)
Record lodData := mkLodData {
  lod_transforms : option (list transform);
  lod_lodNodes : option (list lodEntry)
}.

Definition lodOfChild (c : childData) : lodData := mkLodData (cd_transforms c) (cd_lodNodes c).
Definition lodOfNode (nd : nodeData) : lodData := mkLodData (nd_transforms nd) (nd_lodNodes nd).

(** An id member as a truthy string: absent and [""] are falsy. *)
Definition truthyId (o : option string) : option string :=
  match o with
  | Some s => if bool_decide (s = ""%string) then None else Some s
  | None => None
  end.

(** The Object3D subclasses the parser builds.  A light group is kept as one
    object: the graph code never reaches into its light and target. *)
Inductive kind := KGroup | KLOD | KMesh | KLightGroup.

(** An Object3D.  [o_material] is [userData.material] of a group and
    [material] of a mesh, both given by the material's uuid; [o_levels] are
    the [levels] of an LOD as (distance, object). *)
Record obj := mkObj {
  o_kind : kind;
  o_source : option childData;
  o_state : tstate;
  o_material : option string;
  o_castShadow : bool;
  o_receiveShadow : bool;
  o_parent : option nat;
  o_children : list nat;
  o_levels : list (jsnum * nat)
}.

Definition newObj (k : kind) (src : option childData) (st : tstate) (mat : option string)
    (cs rs : bool) : obj :=
  mkObj k src st mat cs rs None [] [].

Definition setParent (p : option nat) (o : obj) : obj :=
  mkObj (o_kind o) (o_source o) (o_state o) (o_material o) (o_castShadow o)
    (o_receiveShadow o) p (o_children o) (o_levels o).
Definition setChildren (cs : list nat) (o : obj) : obj :=
  mkObj (o_kind o) (o_source o) (o_state o) (o_material o) (o_castShadow o)
    (o_receiveShadow o) (o_parent o) cs (o_levels o).
Definition setLevels (ls : list (jsnum * nat)) (o : obj) : obj :=
  mkObj (o_kind o) (o_source o) (o_state o) (o_material o) (o_castShadow o)
    (o_receiveShadow o) (o_parent o) (o_children o) ls.
Definition setMeshMaterial (m : string) (cs rs : bool) (o : obj) : obj :=
  mkObj (o_kind o) (o_source o) (o_state o) (Some m) cs rs
    (o_parent o) (o_children o) (o_levels o).

(** The objects (by identity), the next fresh identity, and the two caches
    of a GraphParser: [processedNodes] and [nodes]. *)
Record state := mkState {
  heap : gmap nat obj;
  next : nat;
  processedNodes : gmap string bool;
  nodes : gmap string nat
}.

Definition initialState : state := mkState ∅ 0 ∅ ∅.

(** Computations on the parser state; [None] means that the recursion ran
    out of fuel, i.e. did not return within the given depth. *)
Definition M (A : Type) : Type := state -> option (A * state).
Definition ret {A} (a : A) : M A := fun s => Some (a, s).
Definition bind {A B} (m : M A) (k : A -> M B) : M B :=
  fun s => match m s with Some (a, s') => k a s' | None => None end.
Notation "'let*' x ':=' m 'in' k" := (bind m (fun x => k))
  (at level 200, x name, m at level 100, k at level 200).

Fixpoint mapM_ {A} (f : A -> M unit) (l : list A) : M unit :=
  match l with
  | [] => ret tt
  | x :: l' => let* _ := f x in mapM_ f l'
  end.

Definition modifyHeap (f : gmap nat obj -> gmap nat obj) : M unit :=
  fun s => Some (tt, mkState (f (heap s)) (next s) (processedNodes s) (nodes s)).

Definition getObj (id : nat) : M (option obj) := fun s => Some (heap s !! id, s).

(** [new ...()]: a fresh identity. *)
Definition alloc (o : obj) : M nat :=
  fun s => Some (next s, mkState (<[next s := o]> (heap s)) (S (next s)) (processedNodes s) (nodes s)).

Fixpoint removeFirst (x : nat) (l : list nat) : list nat :=
  match l with
  | [] => []
  | y :: l' => if decide (x = y) then l' else y :: removeFirst x l'
  end.

(** [parent.add(child)]: the child first leaves its former parent. *)
Definition add (parent child : nat) : M unit :=
  if decide (parent = child) then ret tt
  else modifyHeap (fun h =>
    let h := match h !! child with
             | Some co =>
                 match o_parent co with
                 | Some q => alter (fun qo => setChildren (removeFirst child (o_children qo)) qo) q h
                 | None => h
                 end
             | None => h
             end in
    let h := alter (setParent (Some parent)) child h in
    alter (fun po => setChildren (o_children po ++ [child]) po) parent h).

Fixpoint insertLevel (d : jsnum) (x : nat) (levels : list (jsnum * nat)) : list (jsnum * nat) :=
  match levels with
  | [] => [(d, x)]
  | (d', x') :: l => if js_lt d (d') then (d, x) :: (d', x') :: l else (d', x') :: insertLevel d x l
  end.

(** [lod.addLevel(object, distance)]. *)
Definition addLevel (lod object : nat) (distance : jsnum) : M unit :=
  let distance := js_abs distance in
  let* _ := modifyHeap (alter (fun lo => setLevels (insertLevel distance object (o_levels lo)) lo) lod) in
  add lod object.

(** [object.clone(true)] down to depth [depth]: an LOD re-adds clones of its
    levels, any other object clones of its children. *)
Fixpoint cloneObj (depth : nat) (id : nat) : M nat :=
  let* o := getObj id in
  match o with
  | None => ret id
  | Some o =>
      let* c := alloc (newObj (o_kind o) (o_source o) (o_state o) (o_material o)
                         (o_castShadow o) (o_receiveShadow o)) in
      match depth with
      | 0 => ret c
      | S d =>
          let* _ := match o_kind o with
                    | KLOD => mapM_ (fun '(dist, lv) => let* lc := cloneObj d lv in addLevel c lc dist)
                                (o_levels o)
                    | _ => mapM_ (fun ch => let* cc := cloneObj d ch in add c cc) (o_children o)
                    end in
          ret c
      end
  end.

(** The scene graph is a forest of at most [next] objects, so the depth
    [next] is never reached. *)
Definition cloneDeep (id : nat) : M nat := fun s => cloneObj (next s) id s.

(** The callback of [node.traverse] in [applyMaterialToNode]
    (src/unnamed/part_002). *)
Fixpoint traverseMeshes (depth : nat) (id : nat) (material : string) (cs rs : bool)
    (h : gmap nat obj) : gmap nat obj :=
  match h !! id with
  | None => h
  | Some o =>
      let h := match o_kind o with
               | KMesh => <[id := setMeshMaterial material (cs || o_castShadow o)
                                    (rs || o_receiveShadow o) o]> h
               | _ => h
               end in
      match depth with
      | 0 => h
      | S d => fold_left (fun h ch => traverseMeshes d ch material cs rs h) (o_children o) h
      end
  end.

Definition applyMaterialToNode (node : nat) (material : string) (cs rs : bool) : M unit :=
  fun s => Some (tt, mkState (traverseMeshes (next s) node material cs rs (heap s)) (next s)
                             (processedNodes s) (nodes s)).

Fixpoint member (key : string) (l : list (string * childValue)) : option childValue :=
  match l with
  | [] => None
  | (k, v) :: l' => if bool_decide (k = key) then Some v else member key l'
  end.

(** [Array.isArray(children[key])]. *)
Definition arrayMember (key : string) (l : list (string * childValue)) : option (list string) :=
  match member key l with Some (CArr ids) => Some ids | _ => None end.

(** A direct child: [{ ...childData, nodeId: childId }] when its [nodeId] is
    falsy; an array spread this way has no [type]. *)
Definition childOfValue (childId : string) (v : childValue) : childData :=
  match v with
  | CObj c =>
      match truthyId (cd_nodeId c) with
      | Some _ => c
      | None => mkChildData (cd_type c) (Some childId) (cd_lodNodes c) (cd_transforms c) (cd_payload c)
      end
  | CArr _ => mkChildData JUndef (Some childId) None None []
  end.

Definition noderefChild (childNodeId : string) : childData :=
  mkChildData (JStr "noderef") (Some childNodeId) None None [].

Definition primitiveTypes : list string :=
  ["rectangle"; "triangle"; "box"; "cylinder"; "sphere"; "nurbs"; "polygon"]%string.
Definition lightTypes : list string := ["pointlight"; "spotlight"; "directionallight"]%string.

(** [list.includes(type)]. *)
Definition includes (l : list string) (v : jsval) : bool :=
  match v with JStr t => bool_decide (t ∈ l) | _ => false end.

Definition stateOf (transforms : option (list transform)) : tstate :=
  match transforms with
  | Some ts => applyTransformations initialTState ts
  | None => initialTState
  end.

Definition cacheKey (nodeId : string) (parentMaterial : option string) : string :=
  let materialUUID := match parentMaterial with Some u => u | None => "null"%string end in
  (nodeId ++ "_" ++ materialUUID)%string.

Section Parser.

(** The node declarations of [graphData], by id. *)
Variable graphData : gmap string nodeData.
(** [this.materials]: material id to the uuid of the loaded material. *)
Variable materials : gmap string string.
(** [createPrimitive(childData, parentMaterial, app)], seen through the
    material and shadow flags of the mesh it returns; [None] for null. *)
Variable createPrimitive : childData -> option string -> option (option string * bool * bool).
(** Whether [createLight(childData, nodeId)] returns a light group. *)
Variable createLight : childData -> string -> bool.

Definition nodeFn : Type := string -> option string -> bool -> bool -> M (option nat).

Definition createLOD_body (createNode : nodeFn) (lodData : option lodData)
    (parentMaterial : option string) (parentCastShadow parentReceiveShadow : bool)
  : M (option nat) :=
  match lodData with
  | Some (mkLodData transforms (Some lodNodes)) =>
      let* lod := alloc (newObj KLOD None (stateOf transforms) None false false) in
      let* _ := mapM_ (fun lodEntry =>
          match truthyId (le_nodeId lodEntry), le_mindist lodEntry with
          | Some nodeId, JNum mindist =>
              let* lodChild := createNode nodeId parentMaterial parentCastShadow parentReceiveShadow in
              match lodChild with
              | Some c => addLevel lod c mindist
              | None => ret tt
              end
          | _, _ => ret tt
          end) lodNodes in
      ret (Some lod)
  | _ => ret None
  end.

Definition handleChild_body (createNode : nodeFn) (group : nat) (childData : childData)
    (parentMaterial : option string) (parentCastShadow parentReceiveShadow : bool) : M unit :=
  let type := cd_type childData in
  if bool_decide (type = JStr "lod") then
    let* lod := createLOD_body createNode (Some (lodOfChild childData)) parentMaterial
                  parentCastShadow parentReceiveShadow in
    match lod with Some l => add group l | None => ret tt end
  else if bool_decide (type = JStr "noderef") then
    match truthyId (cd_nodeId childData) with
    | None => ret tt
    | Some nodeId =>
        let* referencedNode := createNode nodeId parentMaterial parentCastShadow parentReceiveShadow in
        match referencedNode with
        | Some n =>
            let* clonedNode := cloneDeep n in
            let* _ := match parentMaterial with
                      | Some m => applyMaterialToNode clonedNode m parentCastShadow parentReceiveShadow
                      | None => ret tt
                      end in
            add group clonedNode
        | None => ret tt
        end
    end
  else if includes primitiveTypes type then
    match createPrimitive childData parentMaterial with
    | Some (mat, cs, rs) =>
        let* primitive := alloc (newObj KMesh (Some childData) initialTState mat
                                   (parentCastShadow || cs) (parentReceiveShadow || rs)) in
        add group primitive
    | None => ret tt
    end
  else if includes lightTypes type then
    if createLight childData (default ""%string (truthyId (cd_nodeId childData))) then
      let* lightGroup := alloc (newObj KLightGroup (Some childData) initialTState None false false) in
      add group lightGroup
    else ret tt
  else ret tt.

(** The children of a node: direct children, then [nodesList], then
    [lodsList]. *)
Definition handleChildren (createNode : nodeFn) (group : nat) (children : list (string * childValue))
    (nodeMaterial : option string) (nodeCastShadow nodeReceiveShadow : bool) : M unit :=
  let* _ := mapM_ (fun '(childId, v) =>
      if bool_decide (childId = "nodesList"%string) || bool_decide (childId = "lodsList"%string)
      then ret tt
      else handleChild_body createNode group (childOfValue childId v) nodeMaterial
             nodeCastShadow nodeReceiveShadow) children in
  let* _ := match arrayMember "nodesList" children with
            | Some ids => mapM_ (fun childNodeId =>
                 handleChild_body createNode group (noderefChild childNodeId) nodeMaterial
                   nodeCastShadow nodeReceiveShadow) ids
            | None => ret tt
            end in
  match arrayMember "lodsList" children with
  | Some ids => mapM_ (fun lodNodeId =>
       let* lod := createLOD_body createNode (option_map lodOfNode (graphData !! lodNodeId))
                     nodeMaterial nodeCastShadow nodeReceiveShadow in
       match lod with Some l => add group l | None => ret tt end) ids
  | None => ret tt
  end.

Definition nodeMaterialOf (nodeData : nodeData) (parentMaterial : option string) : option string :=
  match truthyId (nd_materialref nodeData) with
  | Some materialId =>
      match materials !! materialId with Some m => Some m | None => parentMaterial end
  | None => parentMaterial
  end.

(** [this.processedNodes.set(cacheKey, true); this.nodes[cacheKey] = group]. *)
Definition cacheGroup (cacheKey : string) (group : nat) : M unit :=
  fun s => Some (tt, mkState (heap s) (next s) (<[cacheKey := true]> (processedNodes s))
                             (<[cacheKey := group]> (nodes s))).

Definition createNode_body (createNode : nodeFn) (nodeId : string) (parentMaterial : option string)
    (parentCastShadow parentReceiveShadow : bool) : M (option nat) :=
  fun s =>
  let key := cacheKey nodeId parentMaterial in
  if bool_decide (is_Some (processedNodes s !! key)) then Some (nodes s !! key, s)
  else
    match graphData !! nodeId with
    | None => Some (None, s)
    | Some nodeData =>
        let nodeMaterial := nodeMaterialOf nodeData parentMaterial in
        let nodeCastShadow := parseBoolean (JBool parentCastShadow) false
                              || parseBoolean (nd_castshadow nodeData) false in
        let nodeReceiveShadow := parseBoolean (JBool parentReceiveShadow) false
                                 || parseBoolean (nd_receiveshadow nodeData) false in
        (let* group := alloc (newObj KGroup None (stateOf (nd_transforms nodeData)) nodeMaterial
                                nodeCastShadow nodeReceiveShadow) in
         let* _ := match nd_children nodeData with
                   | Some children => handleChildren createNode group children nodeMaterial
                                        nodeCastShadow nodeReceiveShadow
                   | None => ret tt
                   end in
         let* _ := cacheGroup key group in
         ret (Some group)) s
    end.

(** [createNode] with the recursion bounded by [fuel] nested calls. *)
Fixpoint createNode (fuel : nat) : nodeFn :=
  match fuel with
  | 0 => fun _ _ _ _ _ => None
  | S f => createNode_body (createNode f)
  end.

Definition handleChild (fuel : nat) := handleChild_body (createNode fuel).
Definition createLOD (fuel : nat) := createLOD_body (createNode fuel).

(** The references a node declaration makes that [createNode] follows. *)
Definition lodRefs (ld : lodData) (m : string) : Prop :=
  exists lodNodes e d, lod_lodNodes ld = Some lodNodes /\ In e lodNodes /\
    truthyId (le_nodeId e) = Some m /\ le_mindist e = JNum d.

Definition childRefs (c : childData) (m : string) : Prop :=
  (cd_type c = JStr "lod" /\ lodRefs (lodOfChild c) m) \/
  (cd_type c = JStr "noderef" /\ truthyId (cd_nodeId c) = Some m).

Inductive refs (a m : string) : Prop :=
| refs_child nd children childId v :
    graphData !! a = Some nd -> nd_children nd = Some children -> In (childId, v) children ->
    childId <> "nodesList"%string -> childId <> "lodsList"%string ->
    childRefs (childOfValue childId v) m -> refs a m
| refs_nodesList nd children ids :
    graphData !! a = Some nd -> nd_children nd = Some children ->
    arrayMember "nodesList" children = Some ids -> In m ids -> truthyId (Some m) = Some m -> refs a m
| refs_lodsList nd children ids l lnd :
    graphData !! a = Some nd -> nd_children nd = Some children ->
    arrayMember "lodsList" children = Some ids -> In l ids -> graphData !! l = Some lnd ->
    lodRefs (lodOfNode lnd) m -> refs a m.

End Parser.

End Graph.

(** ** The remaining validators of MyValidationUtils
    (src/parser/customClasses/02_MyCamera.js) *)
Module ValidationUtils.

(** [String.prototype.trim] on ASCII strings. *)
Definition trim (s : string) : string :=
  string_of_list_ascii (rev (skip_ws (rev (skip_ws (list_ascii_of_string s))))).

Definition validateString (value defaultValue : jsval) : jsval :=
  match value with
  | JStr s => if bool_decide (trim s <> ""%string) then value else defaultValue
  | _ => defaultValue
  end.

Definition validateNear (value : jsval) (defaultValue : jsnum) : jsnum :=
  let near := toValidFloat value defaultValue in
  if js_ge near (JFin 0) then near else defaultValue.

Definition validateFar (value : jsval) (near defaultValue : jsnum) : jsnum :=
  let far := toValidFloat value defaultValue in
  if js_gt far near then far else defaultValue.

(** [Math.PI], the double nearest to pi. *)
Definition Math_PI : jsnum := JFin (884279719003555 # 281474976710656).

(** [THREE.MathUtils.degToRad]: [degrees * DEG2RAD], [DEG2RAD = Math.PI / 180]. *)
Definition DEG2RAD : jsnum := js_div Math_PI (JFin 180).
Definition degToRad (degrees : jsnum) : jsnum := Primitive.js_mul degrees DEG2RAD.

Definition validateRadianAngle (value : jsval) (defaultValue : jsnum) : jsnum :=
  let angleInDegrees := toValidFloat value defaultValue in
  let angleInRadians := degToRad angleInDegrees in
  js_max (Primitive.js_mul (js_neg Math_PI) (JFin 2))
         (js_min angleInRadians (Primitive.js_mul Math_PI (JFin 2))).

End ValidationUtils.
Import ValidationUtils.


(** ** MyCamera (src/parser/customClasses/02_MyCamera.js) and the camera
    part of MyContents (src/MyContents.js) *)
Module Camera.

(** Truthiness of a value. *)
Definition js_truthy (v : jsval) : bool :=
  match v with
  | JUndef | JNull => false
  | JBool b => b
  | JNum n => js_truthy_num n
  | JStr s => negb (bool_decide (s = ""%string))
  | JObj => true
  end.

(** The members of a camera declaration that the constructor reads. *)
Record cameraData := mkCameraData {
  cam_type : jsval;
  cam_near : jsval;
  cam_far : jsval;
  cam_angle : jsval;
  cam_left : jsval;
  cam_right : jsval;
  cam_top : jsval;
  cam_bottom : jsval;
  cam_location : option vec3;
  cam_target : option vec3
}.

Definition emptyCameraData : cameraData :=
  mkCameraData JUndef JUndef JUndef JUndef JUndef JUndef JUndef JUndef None None.

(** The projection of a Three.js camera (the aspect ratio, read from the
    window, is left out). *)
Inductive projection :=
| Perspective (fov near far : jsnum)
| Orthographic (left right top bottom near far : jsnum).

(** A camera: its projection, its position and the [target] member the
    constructor attaches ([None] for a camera without one). *)
Record camera := mkCamera {
  c_projection : projection;
  c_position : jsnum * jsnum * jsnum;
  c_target : option (jsnum * jsnum * jsnum)
}.

(** The camera built by [new MyCamera(app, id, cameraData)]. *)
Definition newCamera (cameraData : cameraData) : camera :=
  let type := if js_truthy (cam_type cameraData) then cam_type cameraData
              else JStr "perspective" in
  let near := validateNear (cam_near cameraData) (JFin (1#10)) in
  let far := validateFar (cam_far cameraData) near (JFin 2000) in
  let projection :=
    if bool_decide (type = JStr "perspective") then
      let angle := validateAngle (cam_angle cameraData) (JFin 0) (JFin 90) (JFin 50) in
      Perspective (if js_truthy_num angle then angle else JFin 50) near far
    else if bool_decide (type = JStr "orthogonal") then
      (* [left] and [right] are constructor names in Rocq *)
      let left_ := toValidFloat (cam_left cameraData) (JFin (-5)) in
      let right_ := toValidFloat (cam_right cameraData) (JFin 5) in
      let top := toValidFloat (cam_top cameraData) (JFin 5) in
      let bottom := toValidFloat (cam_bottom cameraData) (JFin (-5)) in
      let '(left_, right_) := validateLeftRight left_ right_ (JFin (-5)) (JFin 5) in
      let '(bottom, top) := validateBottomTop bottom top (JFin (-5)) (JFin 5) in
      Orthographic left_ right_ top bottom near far
    else Perspective (JFin 50) (JFin (1#10)) (JFin 2000) in
  mkCamera projection
    (Light.vec_of (cam_location cameraData) (JFin 10) (JFin 10) (JFin 10))
    (Some (Light.vec_of (cam_target cameraData) (JFin 0) (JFin 0) (JFin 0))).

(** [MyApp.initDefaultCamera]: the app starts with one camera,
    ['Perspective'], which has no [target] member. *)
Definition defaultPerspective : camera :=
  mkCamera (Perspective (JFin 75) (JFin (1#10)) (JFin 1000)) (JFin 10, JFin 10, JFin 3) None.

Definition initialCameras : gmap string camera := {[ "Perspective"%string := defaultPerspective ]}.

(** The effect of the constructor on [app.cameras], with
    [clearDefaultCameras] when the app holds exactly one camera and it is
    ['Perspective']. *)
Definition addCamera (cameras : gmap string camera) (id : string) (cameraData : cameraData)
  : gmap string camera :=
  let cameras :=
    if bool_decide (size cameras = 1) && bool_decide (is_Some (cameras !! "Perspective"%string))
    then ∅ else cameras in
  <[id := newCamera cameraData]> cameras.

(** The [cameras] section: [initial] (absent or null as [None]; the format
    declares it a string) and the other members in enumeration order, each
    declaration an object.  A camera id ["__proto__"] is left out of the
    model: [this.app.cameras["__proto__"] = camera] replaces the prototype
    of the map instead of adding a member. *)
Record camerasData := mkCamerasData {
  cs_initial : option string;
  cs_members : list (string * cameraData)
}.

(** The outcome of [cameraRendering]: the cameras of the app and the name
    of the active camera, or the TypeError thrown by [MyApp.setActiveCamera]
    when it is handed a name with no camera ([this.activeCamera.target] on
    [undefined]). *)
Inductive activation :=
| Activated (cameras : gmap string camera) (activeCameraName : string)
| ActivationTypeError (cameras : gmap string camera).

(** [MyApp.setActiveCamera]: [this.cameras[cameraName]] is a camera only
    for an own member.  Any other name throws: [undefined.target] for a
    missing member, and for a member inherited from [Object.prototype] (a
    function, or [Object.prototype] itself) the OrbitControls update reads
    [this.object.position.x] on undefined. *)
Definition setActiveCamera (cameras : gmap string camera) (cameraName : string) : activation :=
  match cameras !! cameraName with
  | Some _ => Activated cameras cameraName
  | None => ActivationTypeError cameras
  end.

(** One iteration of the [for (let id in cameraData)] loop of
    [cameraRendering] on (app.cameras, firstCameraId). *)
Definition cameraStep (acc : gmap string camera * option string)
    (member : string * cameraData) : gmap string camera * option string :=
  let '(cams, firstCameraId) := acc in
  let '(id, d) := member in
  let firstCameraId :=
    match Graph.truthyId firstCameraId with
    | Some _ => firstCameraId
    | None => Some id
    end in
  (addCamera cams id d, firstCameraId).

(** [cameraRendering(cameraData)] on the cameras of the app.  The test
    [this.app.cameras[initialCameraId]] is truthy for an own member and for
    a name inherited from [Object.prototype]. *)
Definition cameraRendering (cameras : gmap string camera) (cameraData : camerasData)
  : activation :=
  let initialCameraId := cs_initial cameraData in
  let '(cameras, firstCameraId) :=
    fold_left cameraStep (cs_members cameraData) (cameras, None) in
  match Graph.truthyId initialCameraId with
  | Some i =>
      if bool_decide (is_Some (cameras !! i)) || objectPrototypeKey i
      then setActiveCamera cameras i
      else match Graph.truthyId firstCameraId with
           | Some f => setActiveCamera cameras f
           | None =>
               setActiveCamera (addCamera cameras "DefaultCamera" emptyCameraData)
                 "DefaultCamera"
           end
  | None =>
      match Graph.truthyId firstCameraId with
      | Some f => setActiveCamera cameras f
      | None =>
          setActiveCamera (addCamera cameras "DefaultCamera" emptyCameraData) "DefaultCamera"
      end
  end.

End Camera.

(** ** Unique material ids of createPrimitive
    (src/parser/utils/MyPrimitiveUtils.js) *)
Module Registry.

(** [String(n)] for a non-negative integer [n]. *)
Definition jsString (n : nat) : string :=
  DecimalString.NilEmpty.string_of_uint (Nat.to_uint n).

(** [s.padStart(targetLength, c)] with a one-character pad string. *)
Definition padStart (targetLength : nat) (c : ascii) (s : string) : string :=
  string_of_list_ascii (repeat c (targetLength - String.length s)) ++ s.

(** [`${idBase}_${String(counter).padStart(2, '0')}`] *)
Definition materialId (idBase : string) (counter : nat) : string :=
  idBase ++ "_" ++ padStart 2 "0" (jsString counter).

(** The loop [while (appMyContents.materials[id]) { counter++; id = ... }]
    run for at most [fuel] iterations ([None] past them). *)
Fixpoint uniqueIdLoop {A} (materials : gmap string A) (idBase : string)
    (fuel counter : nat) (id : string) : option string :=
  if bool_decide (is_Some (materials !! id)) then
    match fuel with
    | 0 => None
    | S fuel =>
        let counter := S counter in
        uniqueIdLoop materials idBase fuel counter (materialId idBase counter)
    end
  else Some id.

(** The id chosen by [createPrimitive], starting from [idBase + "_01"]; the
    loop ends within [size materials] iterations (see
    [RegistryProofs.uniqueId_fresh_least]). *)
Definition uniqueId {A} (materials : gmap string A) (idBase : string) : option string :=
  uniqueIdLoop materials idBase (size materials) 1 (idBase ++ "_01").

(** [appMyContents.materials[id] = m] with the id chosen by the loop. *)
Definition registerMaterial {A} (materials : gmap string A) (idBase : string) (m : A)
  : gmap string A :=
  match uniqueId materials idBase with
  | Some id => <[id := m]> materials
  | None => materials
  end.

Section PrimitiveMaterial.
Context {A : Type}.
(** [material.clone()] with [vertexColors = true], and the clones of
    [appMyContents.defaultMaterialVertex] and [appMyContents.defaultMaterial]. *)
Variable cloneWithVertexColors : A -> A.
Variable defaultMaterialVertexClone defaultMaterialClone : A.

(** The material of the mesh built by [createPrimitive(primitiveData,
    material, appMyContents)] and [appMyContents.materials] afterwards
    ([None]: the type is unsupported and no mesh is built). *)
Definition primitiveMaterial (type : string) (material : option A)
    (materials : gmap string A) : gmap string A * option A :=
  if bool_decide (type = "polygon"%string) then
    let polygonMaterial :=
      match material with
      | Some m => cloneWithVertexColors m
      | None => defaultMaterialVertexClone
      end in
    (registerMaterial materials "polygon" polygonMaterial, Some polygonMaterial)
  else if bool_decide (type ∈ ["rectangle"; "triangle"; "box"; "cylinder"; "sphere"; "nurbs"]%string)
  then
    match material with
    | Some m => (materials, Some m)
    | None =>
        (registerMaterial materials "default_mesh_material" defaultMaterialClone,
         Some defaultMaterialClone)
    end
  else (materials, None).

End PrimitiveMaterial.

End Registry.


(** ** MyTextures (src/parser/customClasses/03_MyTextures.js) and
    [texturesRendering] (src/MyContents.js) *)
Module Textures.

(** A texture declaration, as the value of each of its members. *)
Definition textureData : Type := string -> jsval.

Record myTexture := mkMyTexture {
  mt_textureId : jsval;
  mt_filepath : jsval;
  mt_isVideo : bool;
  mt_mipmaps : list jsval
}.

Definition mipmapKey (i : nat) : string := "mipmap" ++ Registry.jsString i.

(** The loop [for (let i = 0; i <= 7; i++)] of the constructor, with the
    flag set by its [break]. *)
Definition collectMipmaps (textureData : textureData) : list jsval :=
  fst (fold_left (fun '((mipmaps, stopped) : list jsval * bool) (i : nat) =>
                    if stopped then (mipmaps, true) else
                    let mipmapPath := validateString (textureData (mipmapKey i)) JNull in
                    if Camera.js_truthy mipmapPath then (mipmaps ++ [mipmapPath], false)
                    else (mipmaps, true))
         (seq 0 8) ([], false)).

Definition newMyTextures (textureId : string) (textureData : textureData) : myTexture :=
  mkMyTexture (validateString (JStr textureId) JNull)
    (validateString (textureData "filepath"%string) JNull)
    (parseBoolean (textureData "isVideo"%string) false)
    (collectMipmaps textureData).

(** The branch taken by [loadTextureAsync]. *)
Inductive loadBranch := LoadVideo | LoadMipmaps | LoadSingle | LoadNone.

Definition loadTextureAsync (t : myTexture) : loadBranch :=
  if mt_isVideo t && Camera.js_truthy (mt_filepath t) then LoadVideo
  else if bool_decide (0 < length (mt_mipmaps t)) then LoadMipmaps
  else if Camera.js_truthy (mt_filepath t) then LoadSingle
  else LoadNone.

Inductive warning := WarnNoTextures | WarnInvalidTexture (textureId : string).

(** The synchronous loop of [texturesRendering]: the textures whose
    [loadTextureAsync] has been started, in order, the warnings, and whether
    the function threw.  [texturesData] is [None] for null, and a
    declaration is [None] for null: [Object.keys(null)] and
    [textureData.filepath] on null throw a TypeError, which ends the loop
    and rejects the promise of the async function.  A declaration that is
    not an object has no member the constructor reads, as a [textureData]
    answering undefined.  [this.textures[textureId]] is also truthy for a
    name inherited from [Object.prototype], which is skipped. *)
Definition texturesRendering (textures : gmap string Materials.texture)
    (texturesData : option (list (string * option textureData)))
  : list (string * myTexture) * list warning * bool :=
  match texturesData with
  | None => ([], [], true)
  | Some [] => ([], [WarnNoTextures], false)
  | Some texturesData =>
      fold_left (fun '((started, ws, threw) : list (string * myTexture) * list warning * bool)
                     '(textureId, textureData) =>
        if threw then (started, ws, threw) else
        if bool_decide (textureId = ""%string) || bool_decide (is_Some (textures !! textureId))
           || objectPrototypeKey textureId
        then (started, ws, false)
        else
          match textureData with
          | None => (started, ws, true)
          | Some textureData =>
              let myTexture := newMyTextures textureId textureData in
              if Camera.js_truthy (mt_textureId myTexture) && Camera.js_truthy (mt_filepath myTexture)
              then (started ++ [(textureId, myTexture)], ws, false)
              else (started, ws ++ [WarnInvalidTexture textureId], false)
          end)
        texturesData ([], [], false)
  end.

(** How the promise of [loadTextureAsync] settles: resolved with a texture
    (or with null), rejected, or never settled (a video that never loads). *)
Inductive settlement := Resolved (loaded : bool) | Rejected | Pending.

#[global] Instance settlement_eq_dec : EqDecision settlement.
Proof. solve_decision. Defined.

Section Loading.
(** Whether [THREE.TextureLoader] loads the file at a path, and whether a
    video element fires [loadeddata] for it. *)
Variable loads : string -> bool.
Variable videoLoads : string -> bool.

Definition pathLoads (v : jsval) : bool :=
  match v with JStr s => loads s | _ => false end.

Definition settle (t : myTexture) : settlement :=
  match loadTextureAsync t with
  | LoadVideo =>
      match mt_filepath t with
      | JStr s => if videoLoads s then Resolved true else Pending
      | _ => Pending
      end
  | LoadMipmaps =>
      (* [loadCustomMipmaps] falls back to [loadSingleTexture] when a level fails *)
      if forallb pathLoads (mt_mipmaps t) then Resolved true
      else if pathLoads (mt_filepath t) then Resolved true else Rejected
  | LoadSingle => if pathLoads (mt_filepath t) then Resolved true else Rejected
  | LoadNone => Resolved false
  end.

(** [await Promise.all(texturePromises)]: it rejects as soon as one promise
    rejects; otherwise it waits for all of them, and each resolved texture
    has been stored under its id by its [then] callback. *)
Inductive texturesOutcome :=
| TexturesLoaded (textures : gmap string Materials.texture)
| TexturesRejected
| TexturesPending.

Definition awaitTextures (textures : gmap string Materials.texture)
    (started : list (string * myTexture)) : texturesOutcome :=
  if existsb (fun p => bool_decide (settle p.2 = Rejected)) started then TexturesRejected
  else if existsb (fun p => bool_decide (settle p.2 = Pending)) started then TexturesPending
  else TexturesLoaded
         (fold_left (fun acc p =>
                       if bool_decide (settle p.2 = Resolved true)
                       then <[p.1 := Materials.mkTexture p.1]> acc else acc)
            started textures).

(** [await this.texturesRendering(texturesData)]: a TypeError thrown by
    the loop rejects it at once; otherwise it awaits the started loads. *)
Definition texturesRenderingAwait (textures : gmap string Materials.texture)
    (texturesData : option (list (string * option textureData))) : texturesOutcome :=
  let '(started, _, threw) := texturesRendering textures texturesData in
  if threw then TexturesRejected else awaitTextures textures started.

End Loading.

End Textures.

(** ** The polygon mesh of createPrimitive (src/parser/utils/MyPrimitiveUtils.js) *)
Module Polygon.
Local Open Scope Q_scope.

(** A loop counter as a number. *)
Definition qnat (n : nat) : Q := inject_Z (Z.of_nat n).

(** The counters of [for (let i = 0; i <= bound; i++)] and of
    [for (let i = 0; i < bound; i++)] for a finite [bound]: [0, 1, ...] up
    to the last integer at most (below) [bound]. *)
Definition countersLe (bound : Q) : list nat :=
  if Qle_bool 0 bound then seq 0 (S (Z.to_nat (Qfloor bound))) else [].
Definition countersLt (bound : Q) : list nat :=
  if Qle_bool bound 0 then [] else seq 0 (Z.to_nat (Qceiling bound)).

(** The number of vertices pushed by the two nested [<=] loops (three
    position components each). *)
Definition polygonVertexCount (polygon_stacks polygon_slices : Q) : nat :=
  length (countersLe polygon_stacks) * length (countersLe polygon_slices).

(** [polygon_indices]: two triangles per (stack, slice) quad. *)
Definition polygonIndices (polygon_stacks polygon_slices : Q) : list Q :=
  flat_map (fun stack =>
    flat_map (fun slice =>
      let current := qnat stack * (polygon_slices + 1) + qnat slice in
      let next := current + polygon_slices + 1 in
      [current; next; current + 1; next; next + 1; current + 1])
      (countersLt polygon_slices))
    (countersLt polygon_stacks).

End Polygon.

(** ** The NURBS control points of createPrimitive (src/parser/utils/MyPrimitiveUtils.js) *)
Module Nurbs.
Import Polygon.
Local Open Scope Q_scope.

(** A homogeneous control point [[x, y, z, 1]]. *)
Definition point : Type := (jsnum * jsnum * jsnum * jsnum)%type.

(** [points[i] || {}] with its coordinates validated; [None] stands for a
    falsy entry of [controlpoints]. *)
Definition nurbsPoint (points : list (option vec3)) (i : nat) : point :=
  let p := default (mkVec3 JUndef JUndef JUndef) (mjoin (points !! i)) in
  (toValidFloat (vx p) (JFin 0), toValidFloat (vy p) (JFin 0), toValidFloat (vz p) (JFin 0), JFin 1).

(** The loop filling [controlPoints]: the point [i] is pushed to the row
    [Math.floor(i / (degreeV + 1))], created when it is missing.  The rows
    are kept by index, as the sparse array the code writes. *)
Definition nurbsControlPoints (degreeU degreeV : Q) (points : list (option vec3))
  : gmap Z (list point) :=
  let numControlPoints := (degreeU + 1) * (degreeV + 1) in
  fold_left (fun controlPoints i =>
               let row := Qfloor (qnat i / (degreeV + 1)) in
               <[row := default [] (controlPoints !! row) ++ [nurbsPoint points i]]> controlPoints)
    (countersLt numControlPoints) ∅.

End Nurbs.

(** ** The UV adjustment of createPrimitive (src/parser/utils/MyPrimitiveUtils.js) *)
Module UVs.
Import Primitive.

(** The texture lengths of [createPrimitive]: 1 and 1, replaced by the
    material's when the material is given and both lengths are truthy. *)
Definition uvTexlengths (material : option Primitive.material) : jsnum * jsnum :=
  let texlength_s := JFin 1 in
  let texlength_t := JFin 1 in
  match material with
  | Some m =>
      if js_truthy_num (texlen (mat_texlength_s m)) && js_truthy_num (texlen (mat_texlength_t m))
      then (texlen (mat_texlength_s m), texlen (mat_texlength_t m))
      else (texlength_s, texlength_t)
  | None => (texlength_s, texlength_t)
  end.

(** The [uv] attribute: one [(x, y)] pair per vertex, its [count] being the
    length.  The coordinates are taken as the numbers computed, as in the
    rest of this development (the rounding of the Float32Array store is not
    modelled). *)
Abbreviation uvBuffer := (list (jsnum * jsnum)).

(** [getX]/[getY]: reading past the typed array gives undefined, NaN in the
    arithmetic that follows. *)
Definition getX (uvs : uvBuffer) (i : nat) : jsnum := default JNaN (fst <$> uvs !! i).
Definition getY (uvs : uvBuffer) (i : nat) : jsnum := default JNaN (snd <$> uvs !! i).

(** [setXY]: a write past the end of a typed array is dropped, as stdpp's
    [insert] does. *)
Definition setXY (uvs : uvBuffer) (i : nat) (u v : jsnum) : uvBuffer := <[i := (u, v)]> uvs.

Definition adjustRectangleUVs (uvs : uvBuffer) (texlength_s texlength_t width height : jsnum)
  : uvBuffer :=
  fold_left (fun uvAttribute i =>
               let u := js_div (js_mul (getX uvAttribute i) width) texlength_s in
               let v := js_div (js_mul (getY uvAttribute i) height) texlength_t in
               setXY uvAttribute i u v)
    (seq 0 (length uvs)) uvs.

(** The sizes [{u, v}] of the faces px, nx, py, ny, pz, nz. *)
Definition faceSizes (width height depth : jsnum) : list (jsnum * jsnum) :=
  [(depth, height); (depth, height); (width, depth); (width, depth); (width, height); (width, height)].

(** The two nested loops over the 6 faces and their 4 vertices, [uvIndex]
    counting the vertices visited. *)
Definition adjustBoxUVs (uvs : uvBuffer) (texlength_s texlength_t width height depth : jsnum)
  : uvBuffer :=
  fst (fold_left (fun '(uvAttribute, uvIndex) face =>
         let faceSize := default (JNaN, JNaN) (faceSizes width height depth !! face) in
         fold_left (fun '(uvAttribute, uvIndex) (_ : nat) =>
                      let u := js_div (js_mul (getX uvAttribute uvIndex) faceSize.1) texlength_s in
                      let v := js_div (js_mul (getY uvAttribute uvIndex) faceSize.2) texlength_t in
                      (setXY uvAttribute uvIndex u v, S uvIndex))
           (seq 0 4) (uvAttribute, uvIndex))
       (seq 0 6) (uvs, 0%nat)).

Definition adjustCylinderUVs (uvs : uvBuffer) (texlength_s texlength_t height radius : jsnum)
  : uvBuffer :=
  fold_left (fun uvAttribute i =>
               let u := js_div (js_mul (getX uvAttribute i)
                                       (js_mul (js_mul (JFin 2) ValidationUtils.Math_PI) radius)) texlength_s in
               let v := js_div (js_mul (getY uvAttribute i) height) texlength_t in
               setXY uvAttribute i u v)
    (seq 0 (length uvs)) uvs.

Definition adjustSphereUVs (uvs : uvBuffer) (texlength_s texlength_t : jsnum) : uvBuffer :=
  fold_left (fun uvAttribute i =>
               let u := js_div (getX uvAttribute i) texlength_s in
               let v := js_div (getY uvAttribute i) texlength_t in
               setXY uvAttribute i u v)
    (seq 0 (length uvs)) uvs.

Definition adjustNURBSUVs (uvs : uvBuffer) (texlength_s texlength_t : jsnum) : uvBuffer :=
  fold_left (fun uvAttribute i =>
               let u := js_div (getX uvAttribute i) texlength_s in
               let v := js_div (getY uvAttribute i) texlength_t in
               setXY uvAttribute i u v)
    (seq 0 (length uvs)) uvs.

End UVs.

(** ** Statements of claims as the spec words them *)
Module SpecSide.
Local Open Scope Q_scope.

(** The spec's [axisPair]: zero or same-signed inputs give both defaults,
    otherwise the signs are normalised ([lo] negative, [hi] positive). *)
Definition axisPair_claim (f : jsnum -> jsnum -> jsnum -> jsnum -> jsnum * jsnum) : Prop :=
  forall lo hi dlo dhi : Q,
    ((lo == 0 \/ hi == 0 \/ (lo <= 0 /\ hi <= 0) \/ (0 <= lo /\ 0 <= hi)) ->
       f (JFin lo) (JFin hi) (JFin dlo) (JFin dhi) = (JFin dlo, JFin dhi)) /\
    (~ (lo == 0 \/ hi == 0 \/ (lo <= 0 /\ hi <= 0) \/ (0 <= lo /\ 0 <= hi)) ->
       f (JFin lo) (JFin hi) (JFin dlo) (JFin dhi) = (JFin (- Qabs lo), JFin (Qabs hi))).

(** The spec's texture-repeat fallback: a zero [texlength_s] makes the
    s-component of the repeat 1, whatever the bounding box. *)
Definition zeroTexlength_claim : Prop :=
  forall sqrt lib (pd : Primitive.primitiveData) (m : Primitive.material) r,
    Primitive.mat_map m = true ->
    Primitive.mat_texlength_s m = Some (JFin 0) ->
    Primitive.textureRepeat sqrt lib pd (Some m) = Some r ->
    fst r = JFin 1.

(** Matrix composition of a list of translations: the translation vectors
    add up. *)
Definition composedTranslation (ts : list Transform.transform) : Transform.triple :=
  fold_left (fun '(x, y, z) t =>
               let a := Transform.t_amount t in
               (js_add x (toValidFloat (vx a) (JFin 0)), js_add y (toValidFloat (vy a) (JFin 0)),
                js_add z (toValidFloat (vz a) (JFin 0))))
            ts (JFin 0, JFin 0, JFin 0).

(** The last entry of a given type in a transforms array. *)
Definition lastOfType (ty : string) (ts : list Transform.transform)
  : option Transform.transform :=
  fold_left (fun acc t => if bool_decide (Transform.t_type t = JStr ty) then Some t else acc)
            ts None.

End SpecSide.


(** * Proofs *)

Section NumberFacts.
Local Open Scope Q_scope.

Lemma js_cmp_fin (x y : Q) : js_cmp (JFin x) (JFin y) = Some (Qcompare x y).
Proof. reflexivity. Qed.

Lemma js_lt_fin (x y : Q) : js_lt (JFin x) (JFin y) = true <-> x < y.
Proof.
  unfold js_lt; rewrite js_cmp_fin; rewrite Qlt_alt.
  destruct (x ?= y); split; congruence.
Qed.

Lemma js_gt_fin (x y : Q) : js_gt (JFin x) (JFin y) = true <-> y < x.
Proof.
  unfold js_gt; rewrite js_cmp_fin; rewrite Qgt_alt.
  destruct (x ?= y); split; congruence.
Qed.

Lemma js_le_fin (x y : Q) : js_le (JFin x) (JFin y) = true <-> x <= y.
Proof.
  unfold js_le; rewrite js_cmp_fin; rewrite Qle_alt.
  destruct (x ?= y); split; congruence.
Qed.

Lemma js_ge_fin (x y : Q) : js_ge (JFin x) (JFin y) = true <-> y <= x.
Proof.
  unfold js_ge; rewrite js_cmp_fin; rewrite Qge_alt.
  destruct (x ?= y); split; congruence.
Qed.

Lemma js_eqn_fin (x y : Q) : js_eqn (JFin x) (JFin y) = true <-> x == y.
Proof.
  unfold js_eqn; rewrite js_cmp_fin; rewrite Qeq_alt.
  destruct (x ?= y); split; congruence.
Qed.

Lemma js_lt_not_nan (a b : jsnum) : js_lt a b = true -> js_isNaN a = false.
Proof. destruct a, b; cbn; congruence. Qed.

Lemma js_gt_not_nan (a b : jsnum) : js_gt a b = true -> js_isNaN a = false.
Proof. destruct a, b; cbn; congruence. Qed.

Lemma toValidFloat_num (v : jsval) (d : jsnum) :
  js_isNaN (parseFloat v) = false -> toValidFloat v d = parseFloat v.
Proof. unfold toValidFloat; cbn; intros ->; reflexivity. Qed.

Lemma toValidFloat_not_nan (v : jsval) (d : jsnum) :
  js_isNaN d = false -> js_isNaN (toValidFloat v d) = false.
Proof. unfold toValidFloat; cbn; destruct (js_isNaN (parseFloat v)) eqn:E; auto. Qed.

(** [Qabs] of a positive rational is the rational itself, syntactically. *)
Lemma Qabs_pos_syn (q : Q) : 0 < q -> Qabs q = q.
Proof.
  destruct q as [n d]; unfold Qlt; cbn; intros H.
  destruct n; cbn in *; lia || reflexivity.
Qed.

Lemma Qabs_neg_syn (q : Q) : q < 0 -> Qabs q = - q.
Proof.
  destruct q as [n d]; unfold Qlt; cbn; intros H.
  destruct n; cbn in *; lia || reflexivity.
Qed.

End NumberFacts.


Example parseFloat_ex1 : parseFloat (JStr "  -12.5e1xyz") = JFin (-125).
Proof. vm_compute. reflexivity. Qed.
Example parseFloat_ex2 : parseFloat (JStr ".5") = JFin (5#10).
Proof. vm_compute. reflexivity. Qed.
Example parseFloat_ex3 : parseFloat (JStr "abc") = JNaN.
Proof. vm_compute. reflexivity. Qed.
Example parseBoolean_ex : parseBoolean (JStr "TRUE") false = true.
Proof. vm_compute. reflexivity. Qed.

Module ValidationProofs.
Local Open Scope Q_scope.

(** C4 (counterexample): an opacity of -1 with the default 1.0 is clamped to
    0 by [toValidOpacity], not replaced by the default. *)
Lemma toValidOpacity_clamps_not_default :
  toValidOpacity (JNum (JFin (-1))) (JFin 1) = JFin 0 /\
  toValidOpacity (JNum (JFin (-1))) (JFin 1) <> JFin 1.
Proof. vm_compute. split; [reflexivity | discriminate]. Qed.

(** C4 (amended): for every value whose number is out of range,
    [validatePenumbra] (range [0,1]) and [validateDecay] (range [0,2])
    return their default, while [toValidOpacity] clamps to the nearest bound
    of [0,1]. *)
Theorem out_of_range_validators (v : jsval) (d : jsnum) :
  ((js_lt (parseFloat v) (JFin 0) = true \/ js_gt (parseFloat v) (JFin 1) = true) ->
     validatePenumbra v d = d) /\
  ((js_lt (parseFloat v) (JFin 0) = true \/ js_gt (parseFloat v) (JFin 2) = true) ->
     validateDecay v d = d) /\
  (js_lt (parseFloat v) (JFin 0) = true -> toValidOpacity v d = JFin 0) /\
  (js_gt (parseFloat v) (JFin 1) = true -> toValidOpacity v d = JFin 1).
Proof.
  unfold validatePenumbra, validateDecay, toValidOpacity.
  repeat split; intros H.
  - rewrite toValidFloat_num by (destruct H as [H|H];
      [eapply js_lt_not_nan | eapply js_gt_not_nan]; exact H).
    destruct H as [-> | ->]; [reflexivity | rewrite orb_true_r; reflexivity].
  - rewrite toValidFloat_num by (destruct H as [H|H];
      [eapply js_lt_not_nan | eapply js_gt_not_nan]; exact H).
    destruct H as [-> | ->]; [reflexivity | rewrite orb_true_r; reflexivity].
  - destruct (parseFloat v) as [q| | |]; cbn in H |- *; try discriminate; auto.
    apply js_lt_fin in H.
    unfold js_min, js_max; cbn.
    destruct (Qcompare_spec q 1); try lra; cbn.
    destruct (Qcompare_spec 0 q); try lra; reflexivity.
  - destruct (parseFloat v) as [q| | |]; cbn in H |- *; try discriminate; auto.
    apply js_gt_fin in H.
    unfold js_min, js_max; cbn.
    destruct (Qcompare_spec q 1); try lra; cbn; reflexivity.
Qed.

(** Witness: a penumbra of 3, a decay of -1 and opacities of -2 and 5. *)
Lemma out_of_range_validators_witness :
  validatePenumbra (JNum (JFin 3)) (JFin (2#10)) = JFin (2#10) /\
  validateDecay (JNum (JFin (-1))) (JFin 2) = JFin 2 /\
  toValidOpacity (JNum (JFin (-2))) (JFin 1) = JFin 0 /\
  toValidOpacity (JStr "5") (JFin 1) = JFin 1.
Proof.
  split; [| split; [| split]].
  - apply (proj1 (out_of_range_validators (JNum (JFin 3)) (JFin (2#10)))).
    right; vm_compute; reflexivity.
  - apply (proj1 (proj2 (out_of_range_validators (JNum (JFin (-1))) (JFin 2)))).
    left; vm_compute; reflexivity.
  - apply (proj1 (proj2 (proj2 (out_of_range_validators (JNum (JFin (-2))) (JFin 1))))).
    vm_compute; reflexivity.
  - apply (proj2 (proj2 (proj2 (out_of_range_validators (JStr "5") (JFin 1))))).
    vm_compute; reflexivity.
Defined.

(** C5 (counterexample): both validators keep same-signed inputs, only
    normalising their signs: (-3, -4) becomes (-3, 4), not the defaults
    (-5, 5); and the opposite-signed but inverted pair (3, -4) is returned
    unchanged. *)
Lemma axis_pair_counterexample :
  ~ SpecSide.axisPair_claim validateLeftRight /\
  ~ SpecSide.axisPair_claim validateBottomTop.
Proof.
  split; intros Hc; destruct (Hc (-3) (-4) (-5) 5) as [H _];
    (assert (E : (-3) <= 0 /\ (-4) <= 0) by lra);
    specialize (H (or_intror (or_intror (or_introl E))));
    vm_compute in H; discriminate.
Qed.

(** C5 (amended): for any two numbers, ±Infinity included, as JavaScript
    compares them with 0: if either value is zero both are replaced by the
    defaults; if both have the same (strict) sign the pair is normalised to
    (-|lo|, |hi|); if they have opposite signs the pair is returned
    unchanged, even when [lo] is positive and [hi] negative; and a NaN
    value, the other not being zero, leaves the pair unchanged too. *)
Theorem axis_pair_validators (lo hi dlo dhi : jsnum) :
  forall f, (f = validateLeftRight \/ f = validateBottomTop) ->
  ((js_cmp lo (JFin 0) = Some Eq \/ js_cmp hi (JFin 0) = Some Eq) ->
     f lo hi dlo dhi = (dlo, dhi)) /\
  (((js_cmp lo (JFin 0) = Some Lt /\ js_cmp hi (JFin 0) = Some Lt)
    \/ (js_cmp lo (JFin 0) = Some Gt /\ js_cmp hi (JFin 0) = Some Gt)) ->
     f lo hi dlo dhi = (js_neg (js_abs lo), js_abs hi)) /\
  (((js_cmp lo (JFin 0) = Some Lt /\ js_cmp hi (JFin 0) = Some Gt)
    \/ (js_cmp lo (JFin 0) = Some Gt /\ js_cmp hi (JFin 0) = Some Lt)) ->
     f lo hi dlo dhi = (lo, hi)) /\
  ((lo = JNaN \/ hi = JNaN) ->
     js_cmp lo (JFin 0) <> Some Eq -> js_cmp hi (JFin 0) <> Some Eq ->
     f lo hi dlo dhi = (lo, hi)).
Proof.
  intros f Hf.
  assert (Hbody : f lo hi dlo dhi =
    if js_eqn lo (JFin 0) || js_eqn hi (JFin 0) then (dlo, dhi)
    else if (js_lt lo (JFin 0) && js_le hi (JFin 0))
            || (js_gt lo (JFin 0) && js_ge hi (JFin 0))
    then (js_neg (js_abs lo), js_abs hi)
    else (lo, hi)) by (destruct Hf as [-> | ->]; reflexivity).
  rewrite Hbody; clear Hbody Hf.
  unfold js_eqn, js_lt, js_le, js_gt, js_ge.
  destruct (js_cmp lo (JFin 0)) as [[| |] |] eqn:El,
           (js_cmp hi (JFin 0)) as [[| |] |] eqn:Eh; cbn;
    (repeat split); intros;
    repeat match goal with
           | H : _ \/ _ |- _ => destruct H
           | H : _ /\ _ |- _ => destruct H
           end;
    subst; cbn in *; try reflexivity; congruence.
Qed.

(** Witness: left/right (-3, -4), bottom/top (2, -1), and left/right
    (-Infinity, -Infinity) normalised to (-Infinity, Infinity). *)
Lemma axis_pair_validators_witness :
  validateLeftRight (JFin (-3)) (JFin (-4)) (JFin (-5)) (JFin 5) = (JFin (-3), JFin 4) /\
  validateBottomTop (JFin 2) (JFin (-1)) (JFin (-5)) (JFin 5) = (JFin 2, JFin (-1)) /\
  validateLeftRight JNegInf JNegInf (JFin (-5)) (JFin 5) = (JNegInf, JPosInf).
Proof.
  split; [| split].
  - apply (proj1 (proj2 (axis_pair_validators (JFin (-3)) (JFin (-4)) (JFin (-5)) (JFin 5)
                   validateLeftRight (or_introl eq_refl)))).
    left; split; reflexivity.
  - apply (proj1 (proj2 (proj2 (axis_pair_validators (JFin 2) (JFin (-1)) (JFin (-5)) (JFin 5)
                   validateBottomTop (or_intror eq_refl))))).
    right; split; reflexivity.
  - apply (proj1 (proj2 (axis_pair_validators JNegInf JNegInf (JFin (-5)) (JFin 5)
                   validateLeftRight (or_introl eq_refl)))).
    left; split; reflexivity.
Defined.

(** C6 (counterexample): the string "yes" is none of the accepted forms,
    yet [parseBoolean("yes", true)] is false, not the default. *)
Lemma parseBoolean_string_not_default :
  parseBoolean (JStr "yes") true = false.
Proof. vm_compute. reflexivity. Qed.

(** C6 (amended): booleans are returned as they are; every string gives
    true exactly when its lower-case form is "true" or "1" (any other string
    gives false, whatever the default); every number gives false exactly when
    it is zero; only undefined, null and objects give the default. *)
Theorem parseBoolean_cases (d : bool) :
  (forall b, parseBoolean (JBool b) d = b) /\
  (forall s, parseBoolean (JStr s) d = true <->
             toLowerCase s = "true"%string \/ toLowerCase s = "1"%string) /\
  (forall n, parseBoolean (JNum n) d = false <-> exists q, n = JFin q /\ q == 0) /\
  (forall v, (v = JUndef \/ v = JNull \/ v = JObj) -> parseBoolean v d = d).
Proof.
  split; [| split; [| split]].
  - reflexivity.
  - intros s; cbn; rewrite bool_decide_eq_true.
    rewrite !elem_of_cons, elem_of_nil; tauto.
  - intros n; destruct n as [q| | |]; cbn; split.
    + intros H; exists q; split; [reflexivity|].
      apply js_eqn_fin; unfold js_eqn in *; cbn in *;
        destruct (q ?= 0); cbn in *; congruence.
    + intros (q' & [= <-] & Hq); apply js_eqn_fin in Hq; unfold js_eqn in *; cbn in *.
      rewrite Hq; reflexivity.
    + discriminate.
    + intros (? & ? & _); discriminate.
    + discriminate.
    + intros (? & ? & _); discriminate.
    + discriminate.
    + intros (? & ? & _); discriminate.
  - intros v [-> | [-> | ->]]; reflexivity.
Qed.

(** Witness for C6: "Yes" is false, 7 is true, undefined gives the default. *)
Lemma parseBoolean_cases_witness :
  parseBoolean (JStr "Yes") true = false /\ parseBoolean JUndef true = true.
Proof.
  split; [vm_compute; reflexivity |].
  apply (proj2 (proj2 (proj2 (parseBoolean_cases true))) JUndef).
  left; reflexivity.
Defined.

End ValidationProofs.

Module LightProofs.
Import Light.
Local Open Scope Q_scope.

Lemma shadow_neg_correct (x : jsnum) :
  js_isNaN x = false ->
  js_le (if js_gt x (JFin 0) then js_neg (js_abs x) else x) (JFin 0) = true /\
  (js_gt x (JFin 0) = true -> js_neg (js_abs x) = js_neg x).
Proof.
  destruct x as [q| | |]; intros HN; try discriminate HN.
  - destruct (js_gt (JFin q) (JFin 0)) eqn:G.
    + apply js_gt_fin in G; split.
      * cbn [js_abs js_neg]; apply js_le_fin; rewrite Qabs_pos_syn by lra; lra.
      * intros _; cbn; rewrite Qabs_pos_syn by lra; reflexivity.
    + assert (~ 0 < q) by (intros Hq; apply js_gt_fin in Hq; congruence).
      split; [apply js_le_fin; lra | discriminate].
  - split; reflexivity.
  - split; [reflexivity | discriminate].
Qed.

Lemma shadow_pos_correct (x : jsnum) :
  js_isNaN x = false ->
  js_ge (if js_lt x (JFin 0) then js_abs x else x) (JFin 0) = true.
Proof.
  destruct x as [q| | |]; intros HN; try discriminate HN.
  - destruct (js_lt (JFin q) (JFin 0)) eqn:G.
    + apply js_lt_fin in G; cbn [js_abs].
      apply js_ge_fin; rewrite Qabs_neg_syn by lra; lra.
    + assert (~ q < 0) by (intros Hq; apply js_lt_fin in Hq; congruence).
      apply js_ge_fin; lra.
  - reflexivity.
  - reflexivity.
Qed.

Lemma validateShadowProperty_not_nan (v : jsval) (q : Q) :
  js_isNaN (validateShadowProperty v (JFin q)) = false.
Proof. apply toValidFloat_not_nan; reflexivity. Qed.

(** C9: a directional light is always built, whatever its shadow bounds;
    its shadow camera has left and bottom non-positive and right and top
    non-negative; a positive left (bottom) bound is negated, a negative
    right (top) bound replaced by its absolute value, each such correction
    comes with its warning and an in-convention bound is kept without one. *)
Theorem createLight_directional_convention (ld : lightData) (lightId : string) :
  ld_type ld = JStr "directionallight" ->
  exists g ws cam,
    createLight ld lightId = (Some g, ws) /\
    l_shadow_camera (lg_light g) = Some cam /\
    js_le (sc_left cam) (JFin 0) = true /\ js_ge (sc_right cam) (JFin 0) = true /\
    js_le (sc_bottom cam) (JFin 0) = true /\ js_ge (sc_top cam) (JFin 0) = true /\
    (let x := validateShadowProperty (ld_shadowleft ld) (JFin (-5)) in
     if js_gt x (JFin 0) then sc_left cam = js_neg x /\ In (WarnShadowLeft x) ws
     else sc_left cam = x /\ ~ In (WarnShadowLeft x) ws) /\
    (let x := validateShadowProperty (ld_shadowright ld) (JFin 5) in
     if js_lt x (JFin 0) then sc_right cam = js_abs x /\ In (WarnShadowRight x) ws
     else sc_right cam = x /\ ~ In (WarnShadowRight x) ws) /\
    (let x := validateShadowProperty (ld_shadowbottom ld) (JFin (-5)) in
     if js_gt x (JFin 0) then sc_bottom cam = js_neg x /\ In (WarnShadowBottom x) ws
     else sc_bottom cam = x /\ ~ In (WarnShadowBottom x) ws) /\
    (let x := validateShadowProperty (ld_shadowtop ld) (JFin 5) in
     if js_lt x (JFin 0) then sc_top cam = js_abs x /\ In (WarnShadowTop x) ws
     else sc_top cam = x /\ ~ In (WarnShadowTop x) ws).
Proof.
  intros Hty.
  unfold createLight; rewrite Hty; cbn -[directionalShadow parseColor].
  unfold directionalShadow.
  pose proof (validateShadowProperty_not_nan (ld_shadowleft ld) (-5)) as NL.
  pose proof (validateShadowProperty_not_nan (ld_shadowright ld) 5) as NR.
  pose proof (validateShadowProperty_not_nan (ld_shadowbottom ld) (-5)) as NB.
  pose proof (validateShadowProperty_not_nan (ld_shadowtop ld) 5) as NT.
  pose proof (shadow_neg_correct _ NL) as [L1 L2].
  pose proof (shadow_pos_correct _ NR) as R1.
  pose proof (shadow_neg_correct _ NB) as [B1 B2].
  pose proof (shadow_pos_correct _ NT) as T1.
  revert L1 L2 R1 B1 B2 T1.
  set (xl := validateShadowProperty (ld_shadowleft ld) (JFin (-5))).
  set (xr := validateShadowProperty (ld_shadowright ld) (JFin 5)).
  set (xb := validateShadowProperty (ld_shadowbottom ld) (JFin (-5))).
  set (xt := validateShadowProperty (ld_shadowtop ld) (JFin 5)).
  destruct (js_gt xl (JFin 0)) eqn:EL, (js_lt xr (JFin 0)) eqn:ER,
           (js_gt xb (JFin 0)) eqn:EB, (js_lt xt (JFin 0)) eqn:ET.
  all: intros L1 L2 R1 B1 B2 T1.
  all: do 3 eexists; (split; [reflexivity|]); cbn.
  all: (split; [reflexivity|]).
  all: repeat split; auto;
    (try (rewrite L2 by reflexivity; reflexivity));
    (try (rewrite B2 by reflexivity; reflexivity));
    cbn; intuition discriminate.
Qed.

(** Witness: shadow bounds left 3, right -2, bottom "-1", top missing. *)
Lemma createLight_directional_convention_witness :
  exists g ws cam,
    createLight (mkLightData (JStr "directionallight") None JUndef JUndef JUndef JUndef
                   JUndef (JNum (JFin 3)) (JNum (JFin (-2))) (JStr "-1") JUndef
                   JUndef JUndef JUndef None None) "sun" = (Some g, ws) /\
    l_shadow_camera (lg_light g) = Some cam /\
    sc_left cam = JFin (-3) /\ sc_right cam = JFin 2.
Proof.
  destruct (createLight_directional_convention
              (mkLightData (JStr "directionallight") None JUndef JUndef JUndef JUndef
                 JUndef (JNum (JFin 3)) (JNum (JFin (-2))) (JStr "-1") JUndef
                 JUndef JUndef JUndef None None) "sun" eq_refl)
    as (g & ws & cam & H1 & H2 & _ & _ & _ & _ & HL & HR & _).
  exists g, ws, cam; split; [exact H1 | split; [exact H2|]].
  cbn in HL, HR; destruct HL as [HL _]; destruct HR as [HR _].
  split; [exact HL | exact HR].
Defined.

End LightProofs.

Module PrimitiveProofs.
Import Primitive.
Local Open Scope Q_scope.

(** The default triangle (vertices (0,0,0), (1,0,0), (0.5,1,0)). *)
Definition defaultTriangle : primitiveData :=
  mkPrimitiveData "triangle" None None None None None JUndef JUndef.
(** The default rectangle (corners (-0.5,-0.5) and (0.5,0.5)). *)
Definition defaultRectangle : primitiveData :=
  mkPrimitiveData "rectangle" None None None None None JUndef JUndef.
Definition mappedMaterial (ts tt : jsnum) : material :=
  mkMaterial "m" true (Some ts) (Some tt).

(** The post-pass with its flag [specialTextureHandling] (always false):
    every non-polygon kind with a mapped material takes the bounding-box
    branch. *)
Lemma textureRepeat_bounding_box sqrt lib (pd : primitiveData) (m : material) g :
  pd_type pd <> "polygon"%string ->
  buildGeometry lib pd = Some g ->
  mat_map m = true ->
  textureRepeat sqrt lib pd (Some m) =
    Some (orOne (js_div (fst (boundingBoxExtent g)) (texlen (mat_texlength_s m))),
          orOne (js_div (snd (boundingBoxExtent g)) (texlen (mat_texlength_t m)))).
Proof.
  intros Hp Hg Hm; unfold textureRepeat.
  rewrite bool_decide_eq_false_2 by exact Hp.
  rewrite Hg, Hm; cbn.
  destruct (boundingBoxExtent g); reflexivity.
Qed.

(** C3 (code bug): the flag [specialTextureHandling] is never set, so a
    triangle or a NURBS surface takes the bounding-box branch like the other
    kinds.  On the default triangle with a mapped material of texture
    lengths 1, the repeat set is (1, 1), while the analytic area computed by
    the unreachable triangle branch is 1/2. *)
Theorem texture_repeat_triangle_nurbs_bbox :
  (forall sqrt lib (pd : primitiveData) (m : material) g,
     (pd_type pd = "triangle"%string \/ pd_type pd = "nurbs"%string) ->
     buildGeometry lib pd = Some g ->
     mat_map m = true ->
     textureRepeat sqrt lib pd (Some m) =
       Some (orOne (js_div (fst (boundingBoxExtent g)) (texlen (mat_texlength_s m))),
             orOne (js_div (snd (boundingBoxExtent g)) (texlen (mat_texlength_t m))))) /\
  (forall sqrt lib,
     textureRepeat sqrt lib defaultTriangle (Some (mappedMaterial (JFin 1) (JFin 1)))
       = Some (JFin 1, JFin 1) /\
     ((forall q, q == 1 -> sqrt (JFin q) = JFin 1) ->
      exists g, buildGeometry lib defaultTriangle = Some g /\
                triangleArea sqrt g = JFin (1#2))).
Proof.
  split.
  - intros sqrt lib pd m g Hty Hg Hm.
    apply textureRepeat_bounding_box; auto.
    destruct Hty as [-> | ->]; discriminate.
  - intros sqrt lib; split.
    + vm_compute; reflexivity.
    + intros Hsq; eexists; split; [reflexivity|].
      cbn -[Qmult Qplus Qminus Qopp Qdiv].
      rewrite Hsq by (vm_compute; reflexivity).
      vm_compute; reflexivity.
Qed.

(** Witness: the default NURBS surface (library extent 2 x 3) and an exact
    square root on 1. *)
Lemma texture_repeat_triangle_nurbs_bbox_witness :
  textureRepeat (fun x => x) (fun _ => (JFin 2, JFin 3))
    (mkPrimitiveData "nurbs" None None None None None JUndef JUndef)
    (Some (mappedMaterial (JFin 1) (JFin 1))) = Some (JFin 2, JFin 3) /\
  exists g, buildGeometry (fun _ => (JFin 0, JFin 0)) defaultTriangle = Some g /\
            triangleArea (fun x => match x with
                                   | JFin q => if Qeq_bool q 1 then JFin 1 else x
                                   | _ => x end) g = JFin (1#2).
Proof.
  split.
  - rewrite (proj1 texture_repeat_triangle_nurbs_bbox (fun x => x) (fun _ => (JFin 2, JFin 3))
              (mkPrimitiveData "nurbs" None None None None None JUndef JUndef)
              (mappedMaterial (JFin 1) (JFin 1)) (GLibrary (JFin 2) (JFin 3))).
    + vm_compute; reflexivity.
    + right; reflexivity.
    + reflexivity.
    + reflexivity.
  - apply (proj2 (proj2 texture_repeat_triangle_nurbs_bbox _ _)).
    intros q Hq; cbn; apply Qeq_bool_iff in Hq; rewrite Hq; reflexivity.
Defined.

(** C7 (counterexample): the default rectangle (extent 1 x 1) with a mapped
    material of [texlength_s] 0 gets the repeat (Infinity, 1): the quotient
    1/0 is truthy, so [|| 1] does not replace it. *)
Lemma zero_texlength_counterexample : ~ SpecSide.zeroTexlength_claim.
Proof.
  intros Hc.
  specialize (Hc (fun x => x) (fun _ => (JFin 0, JFin 0)) defaultRectangle
                 (mappedMaterial (JFin 0) (JFin 1)) _ eq_refl eq_refl eq_refl).
  vm_compute in Hc; discriminate.
Qed.

(** C7 (amended): in the bounding-box branch each repeat component is
    [extent / texlength || 1]; with a zero texture length the component is 1
    when the extent is 0 (0/0 is NaN, which is falsy) and Infinity when the
    extent is positive. *)
Theorem zero_texlength_repeat sqrt lib (pd : primitiveData) (m : material) g :
  pd_type pd <> "polygon"%string ->
  buildGeometry lib pd = Some g ->
  mat_map m = true ->
  forall r, textureRepeat sqrt lib pd (Some m) = Some r ->
  (mat_texlength_s m = Some (JFin 0) ->
     (js_eqn (fst (boundingBoxExtent g)) (JFin 0) = true -> fst r = JFin 1) /\
     (js_gt (fst (boundingBoxExtent g)) (JFin 0) = true -> fst r = JPosInf)) /\
  (mat_texlength_t m = Some (JFin 0) ->
     (js_eqn (snd (boundingBoxExtent g)) (JFin 0) = true -> snd r = JFin 1) /\
     (js_gt (snd (boundingBoxExtent g)) (JFin 0) = true -> snd r = JPosInf)).
Proof.
  intros Hp Hg Hm r Hr.
  rewrite (textureRepeat_bounding_box sqrt lib pd m g Hp Hg Hm) in Hr.
  injection Hr as <-; cbn.
  split; intros ->; cbn;
    [destruct (fst (boundingBoxExtent g)) as [q| | |] |
     destruct (snd (boundingBoxExtent g)) as [q| | |]];
    split; intros H; try discriminate H; try reflexivity;
    unfold js_eqn, js_gt in H; cbn in H; unfold orOne; cbn;
    destruct (Qcompare q 0); try discriminate H; reflexivity.
Qed.

(** Witness: the default rectangle with texture lengths (0, 0) on a
    rectangle of width 1 and height 0. *)
Lemma zero_texlength_repeat_witness :
  textureRepeat (fun x => x) (fun _ => (JFin 0, JFin 0))
    (mkPrimitiveData "rectangle" None (Some (mkVec3 JUndef (JNum (JFin (-1#2))) JUndef))
       None None None JUndef JUndef)
    (Some (mappedMaterial (JFin 0) (JFin 0))) = Some (JPosInf, JFin 1).
Proof.
  set (pd := mkPrimitiveData "rectangle" None (Some (mkVec3 JUndef (JNum (JFin (-1#2))) JUndef))
       None None None JUndef JUndef).
  set (lib := fun _ : primitiveData => (JFin 0, JFin 0)).
  destruct (buildGeometry lib pd) as [g|] eqn:Hg; [| discriminate].
  destruct (textureRepeat (fun x => x) lib pd (Some (mappedMaterial (JFin 0) (JFin 0))))
    as [r|] eqn:Hr; [| discriminate].
  destruct (zero_texlength_repeat (fun x => x) lib pd (mappedMaterial (JFin 0) (JFin 0)) g
              ltac:(discriminate) Hg eq_refl r Hr) as [Hs Ht].
  destruct (Hs eq_refl) as [_ Hs2]; destruct (Ht eq_refl) as [Ht1 _].
  destruct r as [rs rt]; cbn in Hs2, Ht1.
  rewrite Hs2, Ht1 by (injection Hg as <-; vm_compute; reflexivity).
  reflexivity.
Defined.

End PrimitiveProofs.

Module TransformProofs.
Import Transform.

Definition translate (x y z : Q) : transform :=
  mkTransform (JStr "translate") (mkVec3 (JNum (JFin x)) (JNum (JFin y)) (JNum (JFin z))).


Lemma applyTransformations_app (g : tstate) (ts : list transform) (t : transform) :
  applyTransformations g (ts ++ [t]) = applyTransformation (applyTransformations g ts) t.
Proof. unfold applyTransformations; rewrite fold_left_app; reflexivity. Qed.

Lemma lastOfType_app (ty : string) (ts : list transform) (t : transform) :
  SpecSide.lastOfType ty (ts ++ [t]) =
    if bool_decide (t_type t = JStr ty) then Some t else SpecSide.lastOfType ty ts.
Proof. unfold SpecSide.lastOfType; rewrite fold_left_app; reflexivity. Qed.



End TransformProofs.

Module MaterialsProofs.
Import Materials.

Lemma js_lt_not_ge (a b : jsnum) : js_lt a b = true -> js_ge a b = false.
Proof. unfold js_lt, js_ge. destruct (js_cmp a b) as [[]|]; congruence. Qed.

Lemma NoDup_fst_functional {A B} (l : list (A * B)) (k : A) (a b : B) :
  NoDup (map fst l) -> In (k, a) l -> In (k, b) l -> a = b.
Proof.
  induction l as [|[k' c] l IH]; cbn; [tauto|].
  intros Hnd Ha Hb. inversion Hnd as [|? ? Hnin Hnd']; subst.
  destruct Ha as [Ha|Ha], Hb as [Hb|Hb].
  - congruence.
  - inversion Ha; subst. exfalso. apply Hnin.
    apply list_elem_of_In, in_map_iff. exists (k, b). auto.
  - inversion Hb; subst. exfalso. apply Hnin.
    apply list_elem_of_In, in_map_iff. exists (k, a). auto.
  - auto.
Qed.

(** A material id started by the loop was started before it or comes from a
    valid entry of the declarations. *)
Lemma materialsRendering_loop_started (materials : gmap string threeMaterial)
    (textures : gmap string texture) (data : list (string * materialData)) acc (k0 : string) :
  In k0 (map fst (fst (fold_left (fun '(started, ws) '(materialId, materialData) =>
        if bool_decide (materialId = ""%string) || bool_decide (is_Some (materials !! materialId))
        then (started, ws)
        else
          let myMaterial := newMyMaterials materialId materialData textures in
          if isValid myMaterial then (started ++ [(materialId, myMaterial)], ws)
          else (started, ws ++ [WarnInvalidMaterial materialId]))
        data acc))) ->
  In k0 (map fst (fst acc)) \/
  exists md, In (k0, md) data /\ isValid (newMyMaterials k0 md textures) = true.
Proof.
  revert acc. induction data as [|[k d] data IH]; intros [started ws] H; cbn in H.
  - auto.
  - apply IH in H as [H|[md [Hin Hv]]].
    + destruct (_ || _); [auto|].
      destruct (js_ge _ _) eqn:Hv; cbn in H; [|auto].
      rewrite map_app, in_app_iff in H. destruct H as [H|[H|[]]]; [auto|].
      subst. right. exists d. cbn. auto.
    + right. exists md. cbn. auto.
Qed.

Lemma resolveMaterials_lookup_other materials order materialId :
  ~ In materialId (map fst order) ->
  resolveMaterials materials order !! materialId = materials !! materialId.
Proof.
  unfold resolveMaterials. revert materials.
  induction order as [|[k m] order IH]; intros materials Hn; cbn in *; [reflexivity|].
  rewrite IH by tauto. apply lookup_insert_ne. intros ->. tauto.
Qed.

(** C8: a material whose shininess parses to a negative number is invalid,
    no [createThreeMaterialAsync] is started for it (so none of its textures
    is awaited), and whatever order the started promises resolve in, its id
    is not a key of the resulting materials mapping (when it was not one
    before). *)
Theorem negative_shininess_material_skipped materials textures data materialId md order :
  NoDup (map fst data) ->
  In (materialId, md) data ->
  js_lt (toValidFloat (md_shininess md) (JFin 30)) (JFin 0) = true ->
  materials !! materialId = None ->
  Permutation (fst (materialsRendering materials textures data)) order ->
  isValid (newMyMaterials materialId md textures) = false /\
  ~ In materialId (map fst (fst (materialsRendering materials textures data))) /\
  resolveMaterials materials order !! materialId = None.
Proof.
  intros Hnd Hin Hneg Hnone Hperm.
  assert (Hinv : isValid (newMyMaterials materialId md textures) = false).
  { unfold isValid; cbn. apply js_lt_not_ge; exact Hneg. }
  assert (Hns : ~ In materialId (map fst (fst (materialsRendering materials textures data)))).
  { unfold materialsRendering. destruct data as [|e data']; [cbn; tauto|].
    intros H. apply materialsRendering_loop_started in H as [H|[md' [Hin' Hv]]].
    - exact H.
    - rewrite (NoDup_fst_functional _ _ _ _ Hnd Hin Hin') in Hinv. congruence. }
  split; [exact Hinv|]. split; [exact Hns|].
  rewrite resolveMaterials_lookup_other; [exact Hnone|].
  intros H. apply Hns. eapply Permutation_in; [|exact H].
  apply Permutation_map, Permutation_sym, Hperm.
Qed.


(** Two declarations: [bad] with shininess -1 and [good] with shininess 30;
    the mapping starts empty and the promises resolve in the order they
    were started. *)
Definition sampleMaterial (shininess : jsval) : materialData :=
  mkMaterialData None None None shininess JUndef JUndef JUndef JUndef JUndef
    (Some "tex"%string) JUndef JUndef None JUndef None.

Definition sampleMaterials : list (string * materialData) :=
  [("bad"%string, sampleMaterial (JNum (JFin (-1))));
   ("good"%string, sampleMaterial (JNum (JFin 30)))].

Lemma negative_shininess_material_skipped_witness :
  isValid (newMyMaterials "bad" (sampleMaterial (JNum (JFin (-1)))) (<["tex" := mkTexture "tex"]> ∅)) = false /\
  ~ In "bad"%string (map fst (fst (materialsRendering ∅ (<["tex" := mkTexture "tex"]> ∅) sampleMaterials))) /\
  resolveMaterials ∅ (fst (materialsRendering ∅ (<["tex" := mkTexture "tex"]> ∅) sampleMaterials))
    !! "bad"%string = None.
Proof.
  apply (negative_shininess_material_skipped ∅ (<["tex" := mkTexture "tex"]> ∅)
           sampleMaterials "bad" (sampleMaterial (JNum (JFin (-1))))).
  - apply (bool_decide_unpack _). vm_compute. reflexivity.
  - cbn. left. reflexivity.
  - vm_compute. reflexivity.
  - vm_compute. reflexivity.
  - apply Permutation_refl.
Defined.

End MaterialsProofs.

Module GraphProofs.
Import Graph.

(** *** Reasoning about computations in [M] *)

Section Monad.
Context (Rel : state -> state -> Prop) `{!PreOrder Rel}.

(** [m] relates its initial and final states by [Rel] whenever it returns. *)
Definition preserves {A} (m : M A) : Prop :=
  forall s a s', m s = Some (a, s') -> Rel s s'.

Lemma ret_pres {A} (a : A) : preserves (ret a).
Proof. intros s b s' H. injection H as _ <-. reflexivity. Qed.

Lemma bind_pres {A B} (m : M A) (k : A -> M B) :
  preserves m -> (forall a, preserves (k a)) -> preserves (bind m k).
Proof.
  intros Hm Hk s b s' H. unfold bind in H.
  destruct (m s) as [[a s1]|] eqn:E; [|discriminate].
  transitivity s1; [exact (Hm _ _ _ E)|exact (Hk _ _ _ _ H)].
Qed.

Lemma mapM_pres {A} (f : A -> M unit) (l : list A) :
  (forall x, In x l -> preserves (f x)) -> preserves (mapM_ f l).
Proof.
  induction l as [|x l IH]; intros H; cbn [mapM_].
  - apply ret_pres.
  - apply bind_pres; [apply H; left; reflexivity|].
    intros _. apply IH. intros y Hy. apply H. right. exact Hy.
Qed.

End Monad.

(** [m] returns, from every state satisfying [Inv], whatever it is given. *)
Definition fails (Inv : state -> Prop) {A} (m : M A) : Prop :=
  forall s, Inv s -> m s = None.

(** [m] never runs out of fuel. *)
Definition total {A} (m : M A) : Prop := forall s, m s <> None.

Definition invRel (Inv : state -> Prop) (s s' : state) : Prop := Inv s -> Inv s'.

#[export] Instance invRel_preorder Inv : PreOrder (invRel Inv).
Proof. split; unfold invRel; [intros s; auto|intros s1 s2 s3 H1 H2 H; auto]. Qed.

Lemma bind_fails_l Inv {A B} (m : M A) (k : A -> M B) :
  fails Inv m -> fails Inv (bind m k).
Proof. intros H s Hs. unfold bind. rewrite (H s Hs). reflexivity. Qed.

Lemma bind_fails_r Inv {A B} (m : M A) (k : A -> M B) :
  preserves (invRel Inv) m -> (forall a, fails Inv (k a)) -> fails Inv (bind m k).
Proof.
  intros Hm Hk s Hs. unfold bind.
  destruct (m s) as [[a s1]|] eqn:E; [|reflexivity].
  apply Hk. exact (Hm _ _ _ E Hs).
Qed.

Lemma mapM_fails Inv {A} (f : A -> M unit) (l : list A) (x : A) :
  In x l -> fails Inv (f x) -> (forall y, In y l -> preserves (invRel Inv) (f y)) ->
  fails Inv (mapM_ f l).
Proof.
  induction l as [|y l IH]; intros Hin Hx Hp; [destruct Hin|]. cbn [mapM_].
  destruct Hin as [->|Hin].
  - apply bind_fails_l, Hx.
  - apply bind_fails_r; [apply Hp; left; reflexivity|].
    intros _. apply IH; auto. intros z Hz. apply Hp. right. exact Hz.
Qed.

Lemma ret_total {A} (a : A) : total (ret a).
Proof. intros s. discriminate. Qed.

Lemma bind_total {A B} (m : M A) (k : A -> M B) :
  total m -> (forall a, total (k a)) -> total (bind m k).
Proof.
  intros Hm Hk s. unfold bind.
  destruct (m s) as [[a s1]|] eqn:E; [apply Hk|intros _; exact (Hm s E)].
Qed.

Lemma mapM_total {A} (f : A -> M unit) (l : list A) :
  (forall x, In x l -> total (f x)) -> total (mapM_ f l).
Proof.
  induction l as [|x l IH]; intros H; cbn [mapM_].
  - apply ret_total.
  - apply bind_total; [apply H; left; reflexivity|].
    intros _. apply IH. intros y Hy. apply H. right. exact Hy.
Qed.

(** *** Operations on objects leave the caches alone *)

(** The caches are unchanged, the next identity does not decrease and no
    object disappears. *)
Definition heapStep (s s' : state) : Prop :=
  processedNodes s' = processedNodes s /\ nodes s' = nodes s /\ next s <= next s' /\
  (forall i, is_Some (heap s !! i) -> is_Some (heap s' !! i)).

#[export] Instance heapStep_preorder : PreOrder heapStep.
Proof.
  split.
  - intros s. unfold heapStep. auto.
  - intros s1 s2 s3 (H1 & H2 & H3 & H4) (H5 & H6 & H7 & H8).
    unfold heapStep. repeat split; [congruence|congruence|lia|auto].
Qed.

Lemma modifyHeap_pres f :
  (forall h i, is_Some (h !! i) -> is_Some (f h !! i)) -> preserves heapStep (modifyHeap f).
Proof.
  intros Hf s a s' H. injection H as _ <-. unfold heapStep; cbn. repeat split; auto.
Qed.

Lemma getObj_pres i : preserves heapStep (getObj i).
Proof. intros s a s' H. injection H as _ <-. reflexivity. Qed.

Lemma alloc_pres o : preserves heapStep (alloc o).
Proof.
  intros s a s' H. injection H as _ <-. unfold heapStep; cbn. repeat split; [lia|].
  intros i Hi. rewrite lookup_insert_is_Some'. auto.
Qed.

Lemma alter_is_Some (g : obj -> obj) (q : nat) (h : gmap nat obj) (i : nat) :
  is_Some (h !! i) -> is_Some (alter g q h !! i).
Proof. rewrite lookup_alter_is_Some. auto. Qed.

Lemma add_pres p c : preserves heapStep (add p c).
Proof.
  unfold add. destruct (decide (p = c)); [apply ret_pres; typeclasses eauto|].
  apply modifyHeap_pres. intros h i Hi.
  apply alter_is_Some, alter_is_Some.
  destruct (h !! c) as [co|]; [|exact Hi].
  destruct (o_parent co); [apply alter_is_Some|]; exact Hi.
Qed.

Lemma addLevel_pres l o d : preserves heapStep (addLevel l o d).
Proof.
  unfold addLevel. apply bind_pres; [typeclasses eauto| |intros _; apply add_pres].
  apply modifyHeap_pres. intros h i Hi. apply alter_is_Some, Hi.
Qed.

Lemma cloneObj_pres d : forall i, preserves heapStep (cloneObj d i).
Proof.
  induction d as [|d IH]; intros i; cbn [cloneObj];
    (apply bind_pres; [typeclasses eauto|apply getObj_pres|]); intros [o|];
    try (apply ret_pres; typeclasses eauto);
    (apply bind_pres; [typeclasses eauto|apply alloc_pres|]); intros c;
    try (apply ret_pres; typeclasses eauto).
  apply bind_pres; [typeclasses eauto| |intros _; apply ret_pres; typeclasses eauto].
  destruct (o_kind o); apply mapM_pres; try typeclasses eauto; intros x _;
    try destruct x as [dist lv];
    (apply bind_pres; [typeclasses eauto|apply IH|]); intros y;
    first [apply add_pres|apply addLevel_pres].
Qed.

Lemma cloneDeep_pres i : preserves heapStep (cloneDeep i).
Proof. intros s a s' H. exact (cloneObj_pres (next s) i s a s' H). Qed.

Lemma traverseMeshes_is_Some d : forall id m cs rs h i,
  is_Some (h !! i) -> is_Some (traverseMeshes d id m cs rs h !! i).
Proof.
  induction d as [|d IH]; intros id m cs rs h i Hi; cbn [traverseMeshes];
    destruct (h !! id) as [o|] eqn:E; auto.
  - destruct (o_kind o); auto. rewrite lookup_insert_is_Some'. auto.
  - assert (H0 : is_Some ((match o_kind o with
                 | KMesh => <[id := setMeshMaterial m (cs || o_castShadow o) (rs || o_receiveShadow o) o]> h
                 | _ => h end) !! i)).
    { destruct (o_kind o); auto. rewrite lookup_insert_is_Some'. auto. }
    revert H0. generalize (match o_kind o with
                 | KMesh => <[id := setMeshMaterial m (cs || o_castShadow o) (rs || o_receiveShadow o) o]> h
                 | _ => h end).
    induction (o_children o) as [|ch l IHl]; intros h0 H0; cbn; auto.
Qed.

Lemma applyMaterialToNode_pres n m cs rs : preserves heapStep (applyMaterialToNode n m cs rs).
Proof.
  intros s a s' H. injection H as _ <-. unfold heapStep; cbn. repeat split; auto.
  intros i Hi. apply traverseMeshes_is_Some, Hi.
Qed.

(** *** The parser functions, for any relation the object operations keep *)

Section ParserPres.
Variable graphData : gmap string nodeData.
Variable createPrimitive : childData -> option string -> option (option string * bool * bool).
Variable createLight : childData -> string -> bool.
Context (Rel : state -> state -> Prop) `{!PreOrder Rel}.
Hypothesis Rel_heap : forall s s', heapStep s s' -> Rel s s'.

Lemma lift_pres {A} (m : M A) : preserves heapStep m -> preserves Rel m.
Proof. intros H s a s' E. apply Rel_heap. exact (H _ _ _ E). Qed.

Ltac pres_step :=
  first [ apply ret_pres; typeclasses eauto
        | apply lift_pres; first [apply add_pres | apply addLevel_pres | apply alloc_pres
                                  | apply cloneDeep_pres | apply applyMaterialToNode_pres]
        | apply bind_pres; [typeclasses eauto| |] ].

Lemma createLOD_body_pres rec ld pm c r :
  (forall n, preserves Rel (rec n pm c r)) -> preserves Rel (createLOD_body rec ld pm c r).
Proof.
  intros Hrec. unfold createLOD_body.
  destruct ld as [[tr [lodNodes|]]|]; [|pres_step|pres_step].
  pres_step; [pres_step|intros lod].
  pres_step; [|intros _; pres_step].
  apply mapM_pres; [typeclasses eauto|]. intros e _.
  destruct (truthyId (le_nodeId e)) as [n|]; [|pres_step].
  destruct (le_mindist e); try pres_step.
  - apply Hrec.
  - intros [x|]; repeat pres_step.
Qed.

Lemma handleChild_body_pres rec grp cd pm c r :
  (forall n, preserves Rel (rec n pm c r)) ->
  preserves Rel (handleChild_body createPrimitive createLight rec grp cd pm c r).
Proof.
  intros Hrec. unfold handleChild_body.
  destruct (bool_decide (cd_type cd = JStr "lod")).
  { pres_step; [apply createLOD_body_pres, Hrec|intros [l|]; pres_step]. }
  destruct (bool_decide (cd_type cd = JStr "noderef")).
  { destruct (truthyId (cd_nodeId cd)) as [n|]; [|pres_step].
    pres_step; [apply Hrec|intros [x|]; [|pres_step]].
    pres_step; [pres_step|intros y].
    pres_step; [destruct pm; repeat pres_step|intros _; pres_step]. }
  destruct (includes primitiveTypes (cd_type cd)).
  { destruct (createPrimitive cd pm) as [[[mat cs] rs]|]; repeat (intros; pres_step). }
  destruct (includes lightTypes (cd_type cd)); [|pres_step].
  destruct (createLight _ _); repeat (intros; pres_step).
Qed.

Lemma handleChildren_pres rec grp children pm c r :
  (forall n, preserves Rel (rec n pm c r)) ->
  preserves Rel (handleChildren graphData createPrimitive createLight rec grp children pm c r).
Proof.
  intros Hrec. unfold handleChildren.
  pres_step.
  { apply mapM_pres; [typeclasses eauto|]. intros [childId v] _.
    destruct (_ || _); [pres_step|apply handleChild_body_pres, Hrec]. }
  intros _. pres_step.
  { destruct (arrayMember "nodesList" children); [|pres_step].
    apply mapM_pres; [typeclasses eauto|]. intros x _. apply handleChild_body_pres, Hrec. }
  intros _. destruct (arrayMember "lodsList" children); [|pres_step].
  apply mapM_pres; [typeclasses eauto|]. intros x _.
  pres_step; [apply createLOD_body_pres, Hrec|intros [lo|]; pres_step].
Qed.

End ParserPres.

Lemma bind_inv {A B} (m : M A) (k : A -> M B) s b s' :
  bind m k s = Some (b, s') -> exists a s1, m s = Some (a, s1) /\ k a s1 = Some (b, s').
Proof.
  unfold bind. destruct (m s) as [[a s1]|]; [|discriminate]. intros H. eauto.
Qed.

(** *** The caches (C1) *)

(** The caches of a parser state are consistent: a cached object exists and
    is older than [next], distinct keys cache distinct objects, and
    [processedNodes] and [nodes] have the same keys. *)
Definition wf (s : state) : Prop :=
  (forall K v, nodes s !! K = Some v -> v < next s /\ is_Some (heap s !! v)) /\
  (forall K1 K2 v, nodes s !! K1 = Some v -> nodes s !! K2 = Some v -> K1 = K2) /\
  (forall K, is_Some (processedNodes s !! K) <-> is_Some (nodes s !! K)).

(** From a consistent state: the caches stay consistent, no object
    disappears, no cache entry is overwritten, and a new entry holds an
    object created in between. *)
Definition cacheRel (s s' : state) : Prop :=
  wf s ->
  wf s' /\ next s <= next s' /\
  (forall i, is_Some (heap s !! i) -> is_Some (heap s' !! i)) /\
  (forall K v, nodes s !! K = Some v -> nodes s' !! K = Some v) /\
  (forall K v, nodes s !! K = None -> nodes s' !! K = Some v -> next s <= v).

#[export] Instance cacheRel_preorder : PreOrder cacheRel.
Proof.
  split.
  - intros s Hwf. split; [exact Hwf|]. split; [lia|]. split; [auto|]. split; [auto|].
    intros K v H1 H2. congruence.
  - intros s1 s2 s3 H12 H23 Hwf.
    destruct (H12 Hwf) as (Hwf2 & Hn12 & Hh12 & Ho12 & Hf12).
    destruct (H23 Hwf2) as (Hwf3 & Hn23 & Hh23 & Ho23 & Hf23).
    split; [exact Hwf3|]. split; [lia|]. split; [auto|]. split; [auto|].
    intros K v HK1 HK3. destruct (nodes s2 !! K) as [v'|] eqn:E2.
    + rewrite (Ho23 _ _ E2) in HK3. injection HK3 as <-. exact (Hf12 _ _ HK1 E2).
    + specialize (Hf23 _ _ E2 HK3). lia.
Qed.

Lemma heapStep_cacheRel s s' : heapStep s s' -> cacheRel s s'.
Proof.
  intros (Hp & Hn & Hnext & Hh) (Hw1 & Hw2 & Hw3).
  unfold wf. rewrite Hn, Hp.
  split; [split; [|split]|split; [lia|split; [exact Hh|split]]].
  - intros K v HK. destruct (Hw1 _ _ HK). split; [lia|auto].
  - exact Hw2.
  - exact Hw3.
  - auto.
  - intros K v H1 H2. congruence.
Qed.

Section CacheFacts.
Variable graphData : gmap string nodeData.
Variable materials : gmap string string.
Variable createPrimitive : childData -> option string -> option (option string * bool * bool).
Variable createLight : childData -> string -> bool.


Lemma createNode_body_cacheRel rec n pm c r :
  (forall n' pm' c' r', preserves cacheRel (rec n' pm' c' r')) ->
  preserves cacheRel (createNode_body graphData materials createPrimitive createLight rec n pm c r).
Proof.
  intros Hrec s a s' H. unfold createNode_body in H.
  destruct (bool_decide _) eqn:Hhit.
  { injection H as _ <-. reflexivity. }
  apply bool_decide_eq_false in Hhit.
  destruct (graphData !! n) as [nd|]; [|injection H as _ <-; reflexivity].
  apply bind_inv in H as (group & s1 & Ha & H).
  apply bind_inv in H as (u & s2 & Hc & H).
  apply bind_inv in H as (u' & s3 & Hg & H).
  injection H as _ <-. injection Hg as _ <-.
  assert (Hs1 : heapStep s s1) by exact (alloc_pres _ _ _ _ Ha).
  injection Ha as <- <-.
  set (s1 := mkState _ _ _ _) in Hs1, Hc.
  assert (H12 : cacheRel s1 s2).
  { destruct (nd_children nd) as [children|].
    - eapply (handleChildren_pres graphData createPrimitive createLight cacheRel heapStep_cacheRel);
        [|exact Hc].
      intros n'. apply Hrec.
    - injection Hc as _ <-. reflexivity. }
  intros Hwf.
  assert (Hwf1 : wf s1) by (apply (heapStep_cacheRel _ _ Hs1), Hwf).
  destruct (H12 Hwf1) as (Hwf2 & Hn12 & Hh12 & Ho12 & Hf12).
  destruct Hwf as (Hw1 & Hw2 & Hw3).
  destruct Hwf2 as (Hv1 & Hv2 & Hv3).
  set (K := cacheKey n pm) in *.
  assert (HK : nodes s !! K = None).
  { destruct (nodes s !! K) eqn:E; [|reflexivity]. exfalso. apply Hhit, Hw3. rewrite E. eauto. }
  assert (Hgroup : is_Some (heap s2 !! next s)).
  { apply Hh12. apply lookup_insert_is_Some. left. reflexivity. }
  unfold s1 in Hn12, Ho12, Hf12. cbn [next nodes heap processedNodes] in Hn12, Ho12, Hf12.
  assert (Hold : forall K', K' <> K -> nodes s2 !! K' = Some (next s) -> False).
  { intros K' Hne E. destruct (nodes s !! K') as [v'|] eqn:E'.
    - rewrite (Ho12 _ _ E') in E. injection E as ->. destruct (Hw1 _ _ E'). lia.
    - specialize (Hf12 _ _ E' E). lia. }
  unfold wf. cbn [next nodes heap processedNodes].
  split; [split; [|split]|split; [|split; [|split]]].
  - intros K' v. destruct (decide (K' = K)) as [->|Hne].
    + rewrite lookup_insert_eq. intros [= <-]. split; [lia|exact Hgroup].
    + rewrite lookup_insert_ne by congruence. apply Hv1.
  - intros K1 K2 v.
    destruct (decide (K1 = K)) as [->|Hne1], (decide (K2 = K)) as [->|Hne2].
    + auto.
    + rewrite lookup_insert_eq, lookup_insert_ne by congruence. intros [= <-] E. exfalso. eauto.
    + rewrite lookup_insert_ne, lookup_insert_eq by congruence. intros E [= <-]. exfalso. eauto.
    + rewrite !lookup_insert_ne by congruence. apply Hv2.
  - intros K'. destruct (decide (K' = K)) as [->|Hne].
    + rewrite !lookup_insert_eq. split; eauto.
    + rewrite !lookup_insert_ne by congruence. apply Hv3.
  - lia.
  - intros i Hi. apply Hh12. destruct Hs1 as (_ & _ & _ & Hh). apply Hh, Hi.
  - intros K' v E. destruct (decide (K' = K)) as [->|Hne]; [congruence|].
    rewrite lookup_insert_ne by congruence. apply Ho12, E.
  - intros K' v E E3. destruct (decide (K' = K)) as [->|Hne].
    + rewrite lookup_insert_eq in E3. injection E3 as <-. lia.
    + rewrite lookup_insert_ne in E3 by congruence. specialize (Hf12 _ _ E E3). lia.
Qed.

Lemma createNode_cacheRel f : forall n pm c r,
  preserves cacheRel (createNode graphData materials createPrimitive createLight f n pm c r).
Proof.
  induction f as [|f IH]; intros n pm c r s a s' H; [discriminate|].
  exact (createNode_body_cacheRel _ _ _ _ _ IH _ _ _ H).
Qed.

End CacheFacts.

Lemma append_cancel_l (n x y : string) : (n ++ x)%string = (n ++ y)%string -> x = y.
Proof. induction n as [|ch n IH]; cbn; [auto|]. intros H. injection H. exact IH. Qed.

Lemma cacheKey_material n pm pm' :
  pm <> Some "null"%string -> pm' <> Some "null"%string ->
  cacheKey n pm = cacheKey n pm' -> pm = pm'.
Proof.
  unfold cacheKey. intros H1 H2 H. apply append_cancel_l in H. injection H as H.
  assert (He : forall x : string, (""%string ++ x)%string = x) by reflexivity.
  rewrite !He in H. destruct pm, pm'; subst; congruence.
Qed.

Lemma cloneObj_fresh d i s x s' :
  is_Some (heap s !! i) -> cloneObj d i s = Some (x, s') -> x = next s.
Proof.
  intros [o Ho] H. destruct d; cbn [cloneObj] in H;
    apply bind_inv in H as (o' & s1 & Hg & H); injection Hg as <- <-; rewrite Ho in H;
    apply bind_inv in H as (c & s2 & Ha & H); injection Ha as <- <-.
  - injection H as <- _. reflexivity.
  - apply bind_inv in H as (u & s3 & _ & H). injection H as <- _. reflexivity.
Qed.

Section CacheFacts2.
Variable graphData : gmap string nodeData.
Variable materials : gmap string string.
Variable createPrimitive : childData -> option string -> option (option string * bool * bool).
Variable createLight : childData -> string -> bool.

(** One step of a run of the parser: an operation on objects, or a whole
    call of [createNode]. *)
Inductive parserStep (s s' : state) : Prop :=
| step_heap : heapStep s s' -> parserStep s s'
| step_call f n pm c r v :
    createNode graphData materials createPrimitive createLight f n pm c r s = Some (v, s') ->
    parserStep s s'.

(** The states a run of the parser can reach from [s]. *)
Definition laterState : state -> state -> Prop := rtc parserStep.

Lemma laterState_cacheRel s s' : laterState s s' -> cacheRel s s'.
Proof.
  induction 1 as [s|s1 s2 s3 Hst _ IH]; [reflexivity|].
  transitivity s2; [|exact IH].
  destruct Hst as [Hh|f n pm c r v Hc].
  - apply heapStep_cacheRel, Hh.
  - exact (createNode_cacheRel _ _ _ _ _ _ _ _ _ _ _ _ Hc).
Qed.

Lemma createNode_hit f n pm c r s :
  is_Some (processedNodes s !! cacheKey n pm) ->
  createNode graphData materials createPrimitive createLight (S f) n pm c r s =
    Some (nodes s !! cacheKey n pm, s).
Proof.
  intros H. cbn [createNode]. unfold createNode_body.
  rewrite bool_decide_eq_true_2 by exact H. reflexivity.
Qed.

Lemma createNode_cached f n pm c r s g s' :
  createNode graphData materials createPrimitive createLight f n pm c r s = Some (Some g, s') ->
  nodes s' !! cacheKey n pm = Some g.
Proof.
  destruct f as [|f]; [discriminate|]. cbn [createNode]. unfold createNode_body.
  destruct (bool_decide _); [intros [= <- <-]; reflexivity|].
  destruct (graphData !! n) as [nd|]; [|discriminate].
  intros H.
  apply bind_inv in H as (group & s1 & _ & H).
  apply bind_inv in H as (u & s2 & _ & H).
  apply bind_inv in H as (u' & s3 & Hg & H).
  injection H as <- <-. injection Hg as _ <-. cbn [nodes]. apply lookup_insert_eq.
Qed.

Lemma createNode_built f n pm c r s v s' :
  processedNodes s !! cacheKey n pm = None ->
  createNode graphData materials createPrimitive createLight f n pm c r s = Some (Some v, s') ->
  v = next s.
Proof.
  intros Hn. destruct f as [|f]; [discriminate|]. cbn [createNode]. unfold createNode_body.
  rewrite bool_decide_eq_false_2 by (rewrite Hn; apply is_Some_None).
  destruct (graphData !! n) as [nd|]; [|discriminate].
  intros H.
  apply bind_inv in H as (group & s1 & Ha & H). injection Ha as <- <-.
  apply bind_inv in H as (u & s2 & _ & H).
  apply bind_inv in H as (u' & s3 & _ & H).
  injection H as <- <-. reflexivity.
Qed.


End CacheFacts2.

(** *** Termination and divergence (C10) *)

Lemma modifyHeap_total f : total (modifyHeap f).
Proof. intros s. discriminate. Qed.

Lemma alloc_total o : total (alloc o).
Proof. intros s. discriminate. Qed.

Lemma add_total p c : total (add p c).
Proof. unfold add. destruct (decide (p = c)); [apply ret_total|apply modifyHeap_total]. Qed.

Lemma addLevel_total l o d : total (addLevel l o d).
Proof. apply bind_total; [apply modifyHeap_total|intros _; apply add_total]. Qed.

Lemma cloneObj_total d : forall i, total (cloneObj d i).
Proof.
  induction d as [|d IH]; intros i; cbn [cloneObj];
    (apply bind_total; [intros s; discriminate|]); intros [o|]; try apply ret_total;
    (apply bind_total; [apply alloc_total|]); intros c; try apply ret_total.
  apply bind_total; [|intros _; apply ret_total].
  destruct (o_kind o); apply mapM_total; intros x _; try destruct x as [dist lv];
    (apply bind_total; [apply IH|]); intros y; first [apply add_total|apply addLevel_total].
Qed.

Lemma cloneDeep_total i : total (cloneDeep i).
Proof. intros s. apply cloneObj_total. Qed.

Lemma applyMaterialToNode_total n m cs rs : total (applyMaterialToNode n m cs rs).
Proof. intros s. discriminate. Qed.

Lemma truthyId_Some o m : truthyId o = Some m -> o = Some m.
Proof.
  destruct o as [x|]; cbn; [|discriminate].
  destruct (bool_decide _); [discriminate|congruence].
Qed.

Lemma refs_source graphData a m : refs graphData a m -> is_Some (graphData !! a).
Proof. destruct 1; eauto. Qed.

Lemma refs_children graphData a m : refs graphData a m ->
  exists nd children, graphData !! a = Some nd /\ nd_children nd = Some children.
Proof. destruct 1; eauto. Qed.

Section Totality.
Variable graphData : gmap string nodeData.
Variable materials : gmap string string.
Variable createPrimitive : childData -> option string -> option (option string * bool * bool).
Variable createLight : childData -> string -> bool.

Lemma createLOD_body_total rec ld pm c r :
  (forall ld' m, ld = Some ld' -> lodRefs ld' m -> total (rec m pm c r)) ->
  total (createLOD_body rec ld pm c r).
Proof.
  intros Hrec. unfold createLOD_body.
  destruct ld as [[tr [lodNodes|]]|] eqn:Eld; try apply ret_total.
  apply bind_total; [apply alloc_total|intros lod].
  apply bind_total; [|intros _; apply ret_total].
  apply mapM_total. intros e Hin.
  destruct (truthyId (le_nodeId e)) as [n|] eqn:En; [|apply ret_total].
  destruct (le_mindist e) eqn:Ed; try apply ret_total.
  apply bind_total.
  - eapply Hrec; [reflexivity|]. exists lodNodes, e. eauto.
  - intros [x|]; [apply addLevel_total|apply ret_total].
Qed.

Lemma handleChild_body_total rec grp cd pm c r :
  (forall m, childRefs cd m -> total (rec m pm c r)) ->
  total (handleChild_body createPrimitive createLight rec grp cd pm c r).
Proof.
  intros Hrec. unfold handleChild_body.
  destruct (bool_decide (cd_type cd = JStr "lod")) eqn:E1.
  { apply bool_decide_eq_true in E1.
    apply bind_total; [|intros [l|]; [apply add_total|apply ret_total]].
    apply createLOD_body_total. intros ld' m [= <-] Hm. apply Hrec. left. auto. }
  destruct (bool_decide (cd_type cd = JStr "noderef")) eqn:E2.
  { apply bool_decide_eq_true in E2.
    destruct (truthyId (cd_nodeId cd)) as [n|] eqn:En; [|apply ret_total].
    apply bind_total; [apply Hrec; right; auto|].
    intros [x|]; [|apply ret_total].
    apply bind_total; [apply cloneDeep_total|intros y].
    apply bind_total; [|intros _; apply add_total].
    destruct pm; [apply applyMaterialToNode_total|apply ret_total]. }
  destruct (includes primitiveTypes (cd_type cd)).
  { destruct (createPrimitive cd pm) as [[[mat cs] rs]|]; [|apply ret_total].
    apply bind_total; [apply alloc_total|intros x; apply add_total]. }
  destruct (includes lightTypes (cd_type cd)); [|apply ret_total].
  destruct (createLight _ _); [|apply ret_total].
  apply bind_total; [apply alloc_total|intros x; apply add_total].
Qed.

Lemma handleChildren_total rec n nd children grp pm c r :
  graphData !! n = Some nd -> nd_children nd = Some children ->
  (forall m, refs graphData n m -> total (rec m pm c r)) ->
  total (handleChildren graphData createPrimitive createLight rec grp children pm c r).
Proof.
  intros Hnd Hch Hrec. unfold handleChildren.
  apply bind_total.
  { apply mapM_total. intros [childId v] Hin.
    destruct (bool_decide _ || bool_decide _) eqn:E; [apply ret_total|].
    apply orb_false_iff in E as [E1 E2].
    apply bool_decide_eq_false in E1, E2.
    apply handleChild_body_total. intros m Hm. apply Hrec.
    eapply refs_child; eauto. }
  intros _. apply bind_total.
  { destruct (arrayMember "nodesList" children) as [ids|] eqn:Ea; [|apply ret_total].
    apply mapM_total. intros x Hx. apply handleChild_body_total. intros m Hm. apply Hrec.
    destruct Hm as [[Ht _]|[_ Hm]]; [discriminate|].
    cbn [noderefChild cd_nodeId] in Hm. pose proof (truthyId_Some _ _ Hm) as Hxm.
    injection Hxm as ->. eapply refs_nodesList; eauto. }
  intros _. destruct (arrayMember "lodsList" children) as [ids|] eqn:Ea; [|apply ret_total].
  apply mapM_total. intros l Hl.
  apply bind_total; [|intros [lo|]; [apply add_total|apply ret_total]].
  apply createLOD_body_total. intros ld' m Hld Hm.
  destruct (graphData !! l) as [lnd|] eqn:El; [|discriminate].
  injection Hld as <-. apply Hrec. eapply refs_lodsList; eauto.
Qed.

Lemma createNode_body_total rec n pm c r :
  (forall m, refs graphData n m -> forall pm' c' r', total (rec m pm' c' r')) ->
  total (createNode_body graphData materials createPrimitive createLight rec n pm c r).
Proof.
  intros Hrec s. unfold createNode_body.
  destruct (bool_decide _); [discriminate|].
  destruct (graphData !! n) as [nd|] eqn:Hnd; [|discriminate].
  refine (bind_total _ _ (alloc_total _) _ s). intros group.
  apply bind_total; [|intros _; apply bind_total; [intros s'; discriminate|intros _; apply ret_total]].
  destruct (nd_children nd) as [children|] eqn:Hch; [|apply ret_total].
  eapply handleChildren_total; eauto.
Qed.

(** A chain of [k] references starting at [a]. *)
Fixpoint chain (a : string) (k : nat) : Prop :=
  match k with
  | 0 => True
  | S k => exists b, refs graphData a b /\ chain b k
  end.

Lemma chain_S a k : chain a (S k) -> chain a k.
Proof.
  revert a. induction k as [|k IH]; intros a; [intros; exact I|].
  intros (b & Hab & Hb). exists b. split; [exact Hab|]. apply IH, Hb.
Qed.

Lemma chain_le a k k' : k <= k' -> chain a k' -> chain a k.
Proof. induction 1; auto using chain_S. Qed.

Lemma createNode_total_depth f : forall a, ~ chain a f -> forall pm c r,
  total (createNode graphData materials createPrimitive createLight (S f) a pm c r).
Proof.
  induction f as [|f IH]; intros a Ha pm c r; [exfalso; apply Ha; exact I|].
  apply createNode_body_total. intros m Hm pm' c' r'. apply IH.
  intros Hc. apply Ha. exists m. auto.
Qed.

Lemma length_le_size (V : list string) :
  List.NoDup V -> (forall x, In x V -> is_Some (graphData !! x)) -> length V <= size graphData.
Proof.
  intros Hnd Hin. rewrite <- length_map_to_list, <- (length_map fst).
  apply NoDup_incl_length; [exact Hnd|].
  intros x Hx. destruct (Hin x Hx) as [v Hv]. apply in_map_iff. exists (x, v). split; [reflexivity|].
  apply list_elem_of_In, elem_of_map_to_list, Hv.
Qed.

Lemma chain_bounded n :
  (forall b, rtc (refs graphData) n b -> ~ tc (refs graphData) b b) ->
  forall k a V, List.NoDup V -> (forall x, In x V -> is_Some (graphData !! x)) ->
  (forall x, In x V -> tc (refs graphData) x a) -> rtc (refs graphData) n a ->
  size graphData < length V + k -> ~ chain a k.
Proof.
  intros Hacyc. induction k as [|k IH]; intros a V Hnd Hdom Hpath Hna Hlt.
  - pose proof (length_le_size V Hnd Hdom). lia.
  - intros (b & Hab & Hb).
    assert (HaV : ~ In a V).
    { intros HaV. exact (Hacyc a Hna (Hpath a HaV)). }
    apply (IH b (a :: V)); auto.
    + constructor; [exact HaV|exact Hnd].
    + intros x [<-|Hx]; [exact (refs_source _ _ _ Hab)|auto].
    + intros x [<-|Hx]; [apply tc_once, Hab|].
      eapply tc_r; [exact (Hpath x Hx)|exact Hab].
    + eapply rtc_r; [exact Hna|exact Hab].
    + cbn. lia.
Qed.

Lemma createNode_total_acyclic n :
  (forall b, rtc (refs graphData) n b -> ~ tc (refs graphData) b b) ->
  forall f pm c r, S (S (size graphData)) <= f ->
  total (createNode graphData materials createPrimitive createLight f n pm c r).
Proof.
  intros Hacyc f pm c r Hf. destruct f as [|f]; [lia|].
  apply createNode_total_depth. intros Hc.
  apply (chain_bounded n Hacyc (S (size graphData)) n []).
  - constructor.
  - intros x [].
  - intros x [].
  - apply rtc_refl.
  - cbn. lia.
  - apply (chain_le n (S (size graphData)) f); [lia|exact Hc].
Qed.

End Totality.

(** Material identifiers without an underscore: the cache key
    [nodeId + "_" + uuid] then determines [nodeId]. *)
Fixpoint noUnderscore (u : string) : bool :=
  match u with
  | EmptyString => true
  | String ch u' => negb (Ascii.eqb ch "_"%char) && noUnderscore u'
  end.

Definition materialOk (pm : option string) : bool :=
  match pm with Some u => noUnderscore u | None => true end.

Lemma append_nil_l (x : string) : (""%string ++ x)%string = x.
Proof. reflexivity. Qed.

Lemma append_cons ch (x y : string) : (String ch x ++ y)%string = String ch (x ++ y).
Proof. reflexivity. Qed.

Lemma noUnderscore_key x y : noUnderscore (x ++ String "_" y) = false.
Proof.
  induction x as [|ch x IH]; [reflexivity|].
  rewrite append_cons. cbn [noUnderscore]. rewrite IH, andb_false_r. reflexivity.
Qed.

Lemma key_nodeId b n u u' : noUnderscore u = true -> noUnderscore u' = true ->
  (b ++ String "_" u)%string = (n ++ String "_" u')%string -> b = n.
Proof.
  revert n. induction b as [|ch b IH]; intros n H1 H2 E; destruct n as [|ch' n].
  - reflexivity.
  - rewrite append_nil_l, append_cons in E. injection E as _ E.
    rewrite E, noUnderscore_key in H1. discriminate.
  - rewrite append_nil_l, append_cons in E. injection E as _ E.
    rewrite <- E, noUnderscore_key in H2. discriminate.
  - rewrite !append_cons in E. injection E as -> E. f_equal. exact (IH n H1 H2 E).
Qed.

Lemma cacheKey_nodeId b n pm pm' : materialOk pm = true -> materialOk pm' = true ->
  cacheKey b pm = cacheKey n pm' -> b = n.
Proof.
  intros H1 H2 E. unfold cacheKey in E.
  apply (key_nodeId b n (match pm with Some u => u | None => "null"%string end)
                        (match pm' with Some u => u | None => "null"%string end)).
  - destruct pm; [exact H1|reflexivity].
  - destruct pm'; [exact H2|reflexivity].
  - exact E.
Qed.

(** [b] reaches a node that is reachable from itself. *)
Definition reachesCycle (graphData : gmap string nodeData) (b : string) : Prop :=
  exists b', rtc (refs graphData) b b' /\ tc (refs graphData) b' b'.

(** No cache key of a node that reaches a cycle is in [processedNodes]. *)
Definition noCycleCached (graphData : gmap string nodeData) (s : state) : Prop :=
  forall b pm, reachesCycle graphData b -> materialOk pm = true ->
  processedNodes s !! cacheKey b pm = None.

Lemma reachesCycle_step graphData n : reachesCycle graphData n ->
  exists m, refs graphData n m /\ reachesCycle graphData m.
Proof.
  intros (b & Hr & Hc). inversion Hr as [x Hx|x y z Hxy Hyz]; subst.
  - inversion Hc as [x y Hxy|x y z Hxy Hyz]; subst.
    + exists b. split; [exact Hxy|]. exists b. split; [apply rtc_refl|exact Hc].
    + exists y. split; [exact Hxy|]. exists y. split; [apply rtc_refl|].
      eapply tc_r; [exact Hyz|exact Hxy].
  - exists y. split; [exact Hxy|]. exists b. auto.
Qed.

Section Divergence.
Variable graphData : gmap string nodeData.
Variable materials : gmap string string.
Variable createPrimitive : childData -> option string -> option (option string * bool * bool).
Variable createLight : childData -> string -> bool.
Hypothesis materials_ok : forall k u, materials !! k = Some u -> noUnderscore u = true.

Let Inv := noCycleCached graphData.

Lemma heap_inv s s' : heapStep s s' -> invRel Inv s s'.
Proof. intros (Hp & _) H b pm Hb Hpm. rewrite Hp. exact (H b pm Hb Hpm). Qed.

Ltac ipres :=
  first [ apply ret_pres; typeclasses eauto
        | apply (lift_pres _ heap_inv); first [apply add_pres | apply addLevel_pres | apply alloc_pres
                                               | apply cloneDeep_pres | apply applyMaterialToNode_pres]
        | apply bind_pres; [typeclasses eauto| |] ].

Lemma nodeMaterialOf_ok nd pm : materialOk pm = true -> materialOk (nodeMaterialOf materials nd pm) = true.
Proof.
  intros H. unfold nodeMaterialOf.
  destruct (truthyId (nd_materialref nd)); [|exact H].
  destruct (materials !! _) eqn:E; [exact (materials_ok _ _ E)|exact H].
Qed.

Lemma createLOD_body_fails rec ld m pm c r :
  (forall m', preserves (invRel Inv) (rec m' pm c r)) -> lodRefs ld m ->
  fails Inv (rec m pm c r) -> fails Inv (createLOD_body rec (Some ld) pm c r).
Proof.
  intros Hp (lodNodes & e & d & Hl & Hin & He & Hd) Hf.
  destruct ld as [tr lns]. cbn in Hl. subst lns. unfold createLOD_body.
  apply bind_fails_r; [ipres|intros lod].
  apply bind_fails_l. apply mapM_fails with e; [exact Hin| |].
  - cbv beta. rewrite He, Hd. apply bind_fails_l, Hf.
  - intros y _. cbv beta.
    destruct (truthyId (le_nodeId y)) as [n|]; [|ipres].
    destruct (le_mindist y); try ipres.
    + apply Hp.
    + intros [x|]; repeat ipres.
Qed.

Lemma handleChild_body_fails rec grp cd m pm c r :
  (forall m', preserves (invRel Inv) (rec m' pm c r)) -> childRefs cd m ->
  fails Inv (rec m pm c r) ->
  fails Inv (handleChild_body createPrimitive createLight rec grp cd pm c r).
Proof.
  intros Hp [[Ht Hl]|[Ht Hm]] Hf; unfold handleChild_body; cbv zeta; rewrite Ht.
  - rewrite bool_decide_eq_true_2 by reflexivity.
    apply bind_fails_l. eapply createLOD_body_fails; eauto.
  - rewrite bool_decide_eq_false_2 by discriminate.
    rewrite bool_decide_eq_true_2 by reflexivity. rewrite Hm.
    apply bind_fails_l, Hf.
Qed.

Lemma handleChildren_fails rec grp children n nd m pm c r :
  graphData !! n = Some nd -> nd_children nd = Some children -> refs graphData n m ->
  (forall m', preserves (invRel Inv) (rec m' pm c r)) -> fails Inv (rec m pm c r) ->
  fails Inv (handleChildren graphData createPrimitive createLight rec grp children pm c r).
Proof.
  intros Hnd Hch Hm Hp Hf. unfold handleChildren.
  assert (Hhc : forall cd, preserves (invRel Inv)
                  (handleChild_body createPrimitive createLight rec grp cd pm c r)).
  { intros cd. apply (handleChild_body_pres _ _ _ heap_inv), Hp. }
  assert (Hloop1 : preserves (invRel Inv) (mapM_ (fun '(childId, v) =>
      if bool_decide (childId = "nodesList"%string) || bool_decide (childId = "lodsList"%string)
      then ret tt
      else handleChild_body createPrimitive createLight rec grp (childOfValue childId v) pm c r)
      children)).
  { apply mapM_pres; [typeclasses eauto|]. intros [cid v] _.
    destruct (_ || _); [ipres|apply Hhc]. }
  destruct Hm as [nd' ch childId v Hnd' Hch' Hin Hn1 Hn2 Hcr|nd' ch ids Hnd' Hch' Ha Hin Ht
                 |nd' ch ids l lnd Hnd' Hch' Ha Hin Hl Hlr];
    rewrite Hnd in Hnd'; injection Hnd' as <-; rewrite Hch in Hch'; injection Hch' as <-.
  - apply bind_fails_l. apply mapM_fails with (childId, v); [exact Hin| |].
    + cbv beta iota.
      rewrite (bool_decide_eq_false_2 _ Hn1), (bool_decide_eq_false_2 _ Hn2).
      eapply handleChild_body_fails; eauto.
    + intros [cid v'] _. cbv beta iota. destruct (_ || _); [ipres|apply Hhc].
  - apply bind_fails_r; [exact Hloop1|intros _].
    apply bind_fails_l. rewrite Ha. apply mapM_fails with m; [exact Hin| |].
    + eapply handleChild_body_fails; [exact Hp| |exact Hf]. right. split; [reflexivity|exact Ht].
    + intros x _. apply Hhc.
  - apply bind_fails_r; [exact Hloop1|intros _].
    apply bind_fails_r.
    { destruct (arrayMember "nodesList" children); [|ipres].
      apply mapM_pres; [typeclasses eauto|]. intros x _. apply Hhc. }
    intros _. rewrite Ha. apply mapM_fails with l; [exact Hin| |].
    + cbv beta. apply bind_fails_l. rewrite Hl. cbn [option_map].
      eapply createLOD_body_fails; eauto.
    + intros x _. cbv beta. ipres.
      * apply (createLOD_body_pres _ heap_inv), Hp.
      * intros [lo|]; ipres.
Qed.

Lemma createNode_returns f : forall n pm c r s v s',
  Inv s -> materialOk pm = true ->
  createNode graphData materials createPrimitive createLight f n pm c r s = Some (v, s') ->
  Inv s' /\ ~ reachesCycle graphData n.
Proof.
  induction f as [|f IH]; intros n pm c r s v s' Hs Hpm H; [discriminate|].
  cbn [createNode] in H.
  set (rec := createNode graphData materials createPrimitive createLight f) in H.
  assert (Hpres : forall pm', materialOk pm' = true -> forall m c' r',
             preserves (invRel Inv) (rec m pm' c' r')).
  { intros pm' Hpm' m c' r' s0 a s0' E Hs0. exact (proj1 (IH _ _ _ _ _ _ _ Hs0 Hpm' E)). }
  assert (Hfail : forall pm', materialOk pm' = true -> forall m c' r',
             reachesCycle graphData m -> fails Inv (rec m pm' c' r')).
  { intros pm' Hpm' m c' r' Hm s0 Hs0.
    destruct (rec m pm' c' r' s0) as [[a s0']|] eqn:E; [|reflexivity].
    exfalso. exact (proj2 (IH _ _ _ _ _ _ _ Hs0 Hpm' E) Hm). }
  unfold createNode_body in H.
  destruct (bool_decide _) eqn:Hhit.
  { injection H as _ <-. split; [exact Hs|]. intros Hn.
    apply bool_decide_eq_true in Hhit. rewrite (Hs n pm Hn Hpm) in Hhit.
    destruct Hhit as [? Hx]. discriminate. }
  destruct (graphData !! n) as [nd|] eqn:Hnd.
  2: { injection H as _ <-. split; [exact Hs|]. intros Hn.
       destruct (reachesCycle_step _ _ Hn) as (m & Hm & _).
       destruct (refs_source _ _ _ Hm) as [? Hx]. congruence. }
  apply bind_inv in H as (group & s1 & Ha & H).
  apply bind_inv in H as (u & s2 & Hc & H).
  apply bind_inv in H as (u' & s3 & Hg & H).
  injection H as _ <-. injection Hg as _ <-.
  assert (Hs1 : Inv s1) by exact (heap_inv _ _ (alloc_pres _ _ _ _ Ha) Hs).
  pose proof (nodeMaterialOf_ok nd pm Hpm) as Hnm.
  assert (Hn : ~ reachesCycle graphData n).
  { intros Hn. destruct (reachesCycle_step _ _ Hn) as (m & Hm & Hmc).
    destruct (refs_children _ _ _ Hm) as (nd' & children & Hnd' & Hch).
    rewrite Hnd in Hnd'. injection Hnd' as <-. rewrite Hch in Hc.
    erewrite (handleChildren_fails rec group children n nd m) in Hc;
      [discriminate|exact Hnd|exact Hch|exact Hm|intros m'; apply Hpres, Hnm
      |apply Hfail; [exact Hnm|exact Hmc]|exact Hs1]. }
  assert (Hs2 : Inv s2).
  { destruct (nd_children nd) as [children|].
    - eapply (handleChildren_pres graphData createPrimitive createLight (invRel Inv) heap_inv);
        [|exact Hc|exact Hs1].
      intros m'. apply Hpres, Hnm.
    - injection Hc as _ <-. exact Hs1. }
  split; [|exact Hn].
  intros b pm'' Hb Hpm''. cbn [processedNodes].
  rewrite lookup_insert_ne; [exact (Hs2 b pm'' Hb Hpm'')|].
  intros E. apply Hn. rewrite (cacheKey_nodeId _ _ _ _ Hpm Hpm'' E). exact Hb.
Qed.

End Divergence.



(** A sample scene: [root] refers to [box] by a noderef child and twice by
    [nodesList]; [box] holds a box primitive. *)
Definition sampleNode (children : list (string * childValue)) : nodeData :=
  mkNodeData None None JUndef JUndef (Some children) None.

Definition sampleGraph : gmap string nodeData :=
  <["root" := sampleNode
       [("a", CObj (mkChildData (JStr "noderef") (Some "box") None None []));
        ("nodesList", CArr ["box"; "box"])]]>
  (<["box" := sampleNode [("p", CObj (mkChildData (JStr "box") None None None []))]]> ∅).

Definition samplePrimitive (_ : childData) (pm : option string) : option (option string * bool * bool) :=
  Some (pm, false, false).

Definition sampleLight (_ : childData) (_ : string) : bool := true.

Definition sampleAfterBox : state :=
  match createNode sampleGraph ∅ samplePrimitive sampleLight 5 "box" None false false initialState with
  | Some (_, s) => s
  | None => initialState
  end.

Lemma wf_initialState : wf initialState.
Proof.
  split; [|split].
  - intros K v H. cbn in H. rewrite lookup_empty in H. discriminate.
  - intros K1 K2 v H. cbn in H. rewrite lookup_empty in H. discriminate.
  - intros K. cbn. rewrite !lookup_empty. split; intros [? H]; discriminate.
Qed.


Lemma sampleGraph_lookup a nd : sampleGraph !! a = Some nd ->
  (a = "root"%string /\ nd = sampleNode
       [("a", CObj (mkChildData (JStr "noderef") (Some "box") None None []));
        ("nodesList", CArr ["box"; "box"])]) \/
  (a = "box"%string /\ nd = sampleNode [("p", CObj (mkChildData (JStr "box") None None None []))]).
Proof.
  unfold sampleGraph. intros H.
  apply lookup_insert_Some in H as [[<- <-]|[_ H]]; [left; auto|].
  apply lookup_insert_Some in H as [[<- <-]|[_ H]]; [right; auto|].
  rewrite lookup_empty in H. discriminate.
Qed.

Lemma sampleGraph_refs a m : refs sampleGraph a m -> a = "root"%string /\ m = "box"%string.
Proof.
  intros H.
  destruct H as [nd ch childId v Hnd Hch Hin Hn1 Hn2 Hcr|nd ch ids Hnd Hch Ha Hin Ht
                |nd ch ids l lnd Hnd Hch Ha Hin Hl Hlr];
    destruct (sampleGraph_lookup _ _ Hnd) as [[-> ->]|[-> ->]]; cbn in Hch; injection Hch as <-.
  - destruct Hin as [E|[E|[]]]; injection E as <- <-; [|congruence].
    destruct Hcr as [[Ht _]|[_ Hm]]; [discriminate|].
    vm_compute in Hm. injection Hm as <-. auto.
  - destruct Hin as [E|[]]; injection E as <- <-.
    destruct Hcr as [[Ht _]|[Ht _]]; discriminate.
  - vm_compute in Ha. injection Ha as <-. split; [reflexivity|].
    destruct Hin as [<-|[<-|[]]]; reflexivity.
  - vm_compute in Ha. discriminate.
  - vm_compute in Ha. discriminate.
  - vm_compute in Ha. discriminate.
Qed.

Lemma sampleGraph_tc x y : tc (refs sampleGraph) x y -> x = "root"%string /\ y = "box"%string.
Proof.
  induction 1 as [x y H|x y z H _ IH]; [exact (sampleGraph_refs _ _ H)|].
  destruct (sampleGraph_refs _ _ H) as [-> ->]. destruct IH as [E _]. discriminate.
Qed.

Lemma sampleGraph_acyclic : forall b, rtc (refs sampleGraph) "root" b -> ~ tc (refs sampleGraph) b b.
Proof. intros b _ Hb. destruct (sampleGraph_tc _ _ Hb) as [-> E]. discriminate. Qed.

(** A cycle: [a] and [b] list each other in [nodesList]. *)
Definition cycleGraph : gmap string nodeData :=
  <["a" := sampleNode [("nodesList", CArr ["b"])]]>
  (<["b" := sampleNode [("nodesList", CArr ["a"])]]> ∅).

Lemma cycleGraph_cycle : reachesCycle cycleGraph "a".
Proof.
  exists "a"%string. split; [apply rtc_refl|].
  eapply tc_l; [|apply tc_once];
    (eapply refs_nodesList; [reflexivity|reflexivity|reflexivity|left; reflexivity|reflexivity]).
Qed.


End GraphProofs.

Module CameraProofs.
Local Open Scope Q_scope.
Import Camera.

(** *** Order facts on numbers other than NaN *)

Lemma js_le_false_gt (a b : jsnum) :
  js_isNaN a = false -> js_isNaN b = false -> js_le a b = false -> js_gt a b = true.
Proof.
  destruct a, b; cbn; try discriminate; auto.
  unfold js_le, js_gt; cbn; destruct (q ?= q0); congruence.
Qed.

Lemma js_ge_false_lt (a b : jsnum) :
  js_isNaN a = false -> js_isNaN b = false -> js_ge a b = false -> js_lt a b = true.
Proof.
  destruct a, b; cbn; try discriminate; auto.
  unfold js_ge, js_lt; cbn; destruct (q ?= q0); congruence.
Qed.

Lemma js_gt_false_ge (a b : jsnum) :
  js_isNaN a = false -> js_isNaN b = false -> js_gt a b = false -> js_ge b a = true.
Proof.
  destruct a, b; cbn; try discriminate; auto.
  unfold js_ge, js_gt; cbn; rewrite <- (Qcompare_antisym q q0).
  destruct (q ?= q0); cbn; congruence.
Qed.

Lemma js_ge_not_nan (a b : jsnum) : js_ge a b = true -> js_isNaN a = false.
Proof. destruct a, b; cbn; congruence. Qed.

(** *** The validators behind a camera *)

Lemma validateNear_nonneg (v : jsval) (d : jsnum) :
  js_ge d (JFin 0) = true -> js_ge (validateNear v d) (JFin 0) = true.
Proof.
  unfold validateNear. destruct (js_ge (toValidFloat v d) (JFin 0)) eqn:E; auto.
Qed.

Lemma validateFar_cases (v : jsval) (near d : jsnum) :
  js_isNaN near = false -> js_isNaN d = false ->
  js_gt (validateFar v near d) near = true \/
  (validateFar v near d = d /\ js_ge near d = true).
Proof.
  intros Hn Hd. unfold validateFar.
  destruct (js_gt (toValidFloat v d) near) eqn:E; [left; exact E|].
  destruct (js_gt d near) eqn:E2; [left; reflexivity|].
  right; split; [reflexivity|]. apply js_gt_false_ge; assumption.
Qed.

Lemma validateAngle_cases (v : jsval) (lo hi d : jsnum) :
  js_isNaN lo = false -> js_isNaN hi = false -> js_isNaN d = false ->
  (js_gt (validateAngle v lo hi d) lo = true /\ js_lt (validateAngle v lo hi d) hi = true) \/
  validateAngle v lo hi d = d.
Proof.
  intros Hlo Hhi Hd. unfold validateAngle.
  pose proof (toValidFloat_not_nan v d Hd) as Ha.
  destruct (js_le (toValidFloat v d) lo) eqn:E1; [right; reflexivity|].
  destruct (js_ge (toValidFloat v d) hi) eqn:E2; [right; reflexivity|].
  left; split; [apply js_le_false_gt | apply js_ge_false_lt]; assumption.
Qed.

(** MyCamera: every camera has a near plane [>= 0]; its far plane lies
    beyond the near plane, except when the far plane falls back to 2000 and
    the near plane is at 2000 or beyond; a perspective camera has a field of
    view strictly between 0 and 90 degrees. *)
Theorem newCamera_frustum (cd : cameraData) :
  let far_ok near far :=
    js_ge near (JFin 0) = true /\
    (js_gt far near = true \/ (far = JFin 2000 /\ js_ge near (JFin 2000) = true)) in
  match c_projection (newCamera cd) with
  | Perspective fov near far =>
      js_gt fov (JFin 0) = true /\ js_lt fov (JFin 90) = true /\ far_ok near far
  | Orthographic _ _ _ _ near far => far_ok near far
  end.
Proof.
  intros far_ok. unfold newCamera.
  set (near := validateNear (cam_near cd) (JFin (1#10))).
  set (far := validateFar (cam_far cd) near (JFin 2000)).
  assert (Hnear : js_ge near (JFin 0) = true) by (apply validateNear_nonneg; reflexivity).
  assert (Hfar : far_ok near far).
  { split; [exact Hnear|].
    destruct (validateFar_cases (cam_far cd) near (JFin 2000)) as [H|[H1 H2]];
      [eapply js_ge_not_nan; exact Hnear | reflexivity | left; exact H | right; split; assumption]. }
  clearbody near far.
  set (type := if js_truthy (cam_type cd) then cam_type cd else JStr "perspective").
  clearbody type.
  destruct (bool_decide (type = JStr "perspective")).
  - set (angle := validateAngle (cam_angle cd) (JFin 0) (JFin 90) (JFin 50)).
    assert (Hangle : js_gt angle (JFin 0) = true /\ js_lt angle (JFin 90) = true).
    { destruct (validateAngle_cases (cam_angle cd) (JFin 0) (JFin 90) (JFin 50))
        as [H|H]; try reflexivity; [exact H|]. unfold angle; rewrite H; split; reflexivity. }
    clearbody angle. cbn [c_projection].
    split; [|split]; try exact Hfar; destruct (js_truthy_num angle);
      solve [apply Hangle | reflexivity].
  - destruct (bool_decide (type = JStr "orthogonal")).
    + destruct (validateLeftRight _ _ _ _), (validateBottomTop _ _ _ _). exact Hfar.
    + cbn [c_projection]. split; [reflexivity|]. split; [reflexivity|].
      split; [reflexivity|]. left; reflexivity.
Qed.

(** *** cameraRendering *)

Lemma setActiveCamera_found (cams : gmap string camera) (name : string) :
  is_Some (cams !! name) -> setActiveCamera cams name = Activated cams name.
Proof. intros [c Hc]. unfold setActiveCamera. rewrite Hc. reflexivity. Qed.

Lemma setActiveCamera_missing (cams : gmap string camera) (name : string) :
  cams !! name = None -> setActiveCamera cams name = ActivationTypeError cams.
Proof. intros Hc. unfold setActiveCamera. rewrite Hc. reflexivity. Qed.

Lemma truthyId_nonempty (s : string) : s <> ""%string -> Graph.truthyId (Some s) = Some s.
Proof. intros H. unfold Graph.truthyId. rewrite bool_decide_eq_false_2 by exact H. reflexivity. Qed.

Lemma fst_prod_map {A B C} (f : B -> C) (l : list (A * B)) :
  (prod_map id f <$> l).*1 = l.*1.
Proof. induction l as [|[a b] l IH]; [reflexivity|]. cbn. f_equal. exact IH. Qed.

Lemma list_to_map_is_Some {A} (l : list (string * A)) (i : string) :
  is_Some ((list_to_map l : gmap string A) !! i) <-> i ∈ l.*1.
Proof.
  split.
  - intros H. destruct (decide (i ∈ l.*1)) as [Hi|Hi]; [exact Hi|].
    apply not_elem_of_list_to_map_1 in Hi. rewrite Hi in H. inversion H; discriminate.
  - intros Hi. destruct ((list_to_map l : gmap string A) !! i) eqn:E; [eauto|].
    apply not_elem_of_list_to_map_2 in E. contradiction.
Qed.

(** Once the built-in camera is gone and a first id is known, a step of
    the loop only inserts the camera. *)
Lemma cameraStep_fold_plain (ms : list (string * cameraData)) (cams : gmap string camera)
    (f : option string) :
  "Perspective"%string ∉ ms.*1 -> cams !! "Perspective"%string = None ->
  is_Some (Graph.truthyId f) ->
  fold_left cameraStep ms (cams, f) =
    (fold_left (fun acc p => <[p.1 := newCamera p.2]> acc) ms cams, f).
Proof.
  induction ms as [|[id d] ms IH] in cams |- *; intros HP Hc [x Hf]; [reflexivity|].
  rewrite fmap_cons, not_elem_of_cons in HP. destruct HP as [HP1 HP2].
  cbn [fold_left]. unfold cameraStep at 2. rewrite Hf.
  unfold addCamera. rewrite Hc. rewrite andb_false_r.
  apply IH; [exact HP2| |eauto].
  rewrite lookup_insert_ne by (cbn in *; congruence). exact Hc.
Qed.

Lemma fold_newCamera (ms : list (string * cameraData)) (m : gmap string camera) :
  NoDup ms.*1 ->
  fold_left (fun acc p => <[p.1 := newCamera p.2]> acc) ms m =
    list_to_map (prod_map id newCamera <$> ms) ∪ m.
Proof.
  induction ms as [|[k d] ms IH] in m |- *; intros Hnd.
  - cbn. rewrite (left_id_L ∅ (∪)). reflexivity.
  - rewrite fmap_cons in Hnd. apply NoDup_cons in Hnd as [Hk Hnd].
    cbn [fold_left]. rewrite IH by exact Hnd.
    rewrite fmap_cons. cbn [prod_map]. rewrite list_to_map_cons.
    rewrite <- insert_union_r.
    + rewrite insert_union_l. reflexivity.
    + apply not_elem_of_list_to_map_1. rewrite fst_prod_map. exact Hk.
Qed.

Lemma fold_newCamera_None (ms : list (string * cameraData)) (m : gmap string camera)
    (k : string) :
  k ∉ ms.*1 -> m !! k = None ->
  fold_left (fun acc p => <[p.1 := newCamera p.2]> acc) ms m !! k = None.
Proof.
  induction ms as [|[id d] ms IH] in m |- *; intros Hk Hm; [exact Hm|].
  rewrite fmap_cons, not_elem_of_cons in Hk. destruct Hk as [Hk1 Hk2].
  cbn [fold_left]. apply IH; [exact Hk2|].
  cbn. rewrite lookup_insert_ne by (cbn in *; congruence). exact Hm.
Qed.

Lemma addCamera_initial (id : string) (d : cameraData) :
  addCamera initialCameras id d = <[id := newCamera d]> ∅.
Proof. reflexivity. Qed.




(** cameraRendering: when the first declared camera is named 'Perspective'
    and a second one follows, the second constructor clears it again (the
    app then holds exactly one camera, 'Perspective'); unless [initial] names
    one of the surviving cameras, the fallback to the first id then hands
    [setActiveCamera] a missing camera and the call throws. *)
Theorem cameraRendering_perspective_first (cs : camerasData) (d1 : cameraData)
    (id2 : string) (d2 : cameraData) (rest : list (string * cameraData)) :
  cs_members cs = ("Perspective"%string, d1) :: (id2, d2) :: rest ->
  "Perspective"%string ∉ ((id2, d2) :: rest).*1 ->
  (forall i, Graph.truthyId (cs_initial cs) = Some i -> i ∉ ((id2, d2) :: rest).*1) ->
  exists cams, cameraRendering initialCameras cs = ActivationTypeError cams /\
               cams !! "Perspective"%string = None.
Proof.
  intros Hm HP Hi. unfold cameraRendering. rewrite Hm.
  cbn [fold_left]. unfold cameraStep at 3. cbn [Graph.truthyId].
  rewrite addCamera_initial.
  unfold cameraStep at 2. rewrite truthyId_nonempty by discriminate.
  assert (Hadd : addCamera (<[ "Perspective"%string := newCamera d1 ]> ∅) id2 d2 =
                 <[id2 := newCamera d2]> ∅).
  { unfold addCamera. rewrite insert_empty, map_size_singleton, lookup_singleton.
    reflexivity. }
  rewrite Hadd.
  rewrite fmap_cons, not_elem_of_cons in HP. destruct HP as [HP1 HP2].
  rewrite cameraStep_fold_plain;
    [| exact HP2 | rewrite lookup_insert_ne by (cbn in *; congruence); apply lookup_empty
     | rewrite truthyId_nonempty by discriminate; eauto].
  change (fold_left (fun acc p => <[p.1 := newCamera p.2]> acc) rest
            (<[id2 := newCamera d2]> ∅))
    with (fold_left (fun (acc : gmap string camera) p => <[p.1 := newCamera p.2]> acc)
                  ((id2, d2) :: rest) ∅).
  set (M := fold_left (fun (acc : gmap string camera) p => <[p.1 := newCamera p.2]> acc)
              ((id2, d2) :: rest) ∅).
  assert (HM : forall k, k ∉ ((id2, d2) :: rest).*1 -> M !! k = None).
  { intros k Hk. apply fold_newCamera_None; [exact Hk | apply lookup_empty]. }
  assert (HMP : M !! "Perspective"%string = None).
  { apply HM. rewrite fmap_cons, not_elem_of_cons. split; assumption. }
  exists M. split; [|exact HMP].
  rewrite truthyId_nonempty by discriminate.
  destruct (Graph.truthyId (cs_initial cs)) as [i|] eqn:Ei.
  - rewrite bool_decide_eq_false_2.
    + cbn [orb]. destruct (objectPrototypeKey i).
      * apply setActiveCamera_missing, (HM i (Hi i eq_refl)).
      * apply setActiveCamera_missing, HMP.
    + rewrite (HM i (Hi i eq_refl)). intros [? H]; discriminate.
  - apply setActiveCamera_missing, HMP.
Qed.

Lemma cameraRendering_perspective_first_witness :
  exists cams, cameraRendering initialCameras
      (mkCamerasData None [("Perspective"%string, emptyCameraData); ("top"%string, emptyCameraData)])
    = ActivationTypeError cams /\ cams !! "Perspective"%string = None.
Proof.
  apply (cameraRendering_perspective_first
    (mkCamerasData None [("Perspective"%string, emptyCameraData); ("top"%string, emptyCameraData)])
    emptyCameraData "top" emptyCameraData []).
  - reflexivity.
  - cbn. set_solver.
  - intros i Hi. discriminate.
Defined.

End CameraProofs.

Module LightRangeProofs.
Import Light.
Local Open Scope Q_scope.

Lemma js_lt_false_ge (a b : jsnum) :
  js_isNaN a = false -> js_isNaN b = false -> js_lt a b = false -> js_ge a b = true.
Proof.
  destruct a, b; cbn; try discriminate; auto.
  unfold js_ge, js_lt; cbn; destruct (q ?= q0); congruence.
Qed.

Lemma js_gt_false_le (a b : jsnum) :
  js_isNaN a = false -> js_isNaN b = false -> js_gt a b = false -> js_le a b = true.
Proof.
  destruct a, b; cbn; try discriminate; auto.
  unfold js_le, js_gt; cbn; destruct (q ?= q0); congruence.
Qed.

Lemma js_le_not_nan (a b : jsnum) : js_le a b = true -> js_isNaN a = false.
Proof. destruct a, b; cbn; congruence. Qed.

Lemma validateIntensity_nonneg (v : jsval) (d : jsnum) :
  js_ge d (JFin 0) = true -> js_ge (validateIntensity v d) (JFin 0) = true.
Proof.
  intros Hd. pose proof (CameraProofs.js_ge_not_nan _ _ Hd) as Hn.
  unfold validateIntensity. destruct (js_lt (toValidFloat v d) (JFin 0)) eqn:E; [exact Hd|].
  apply js_lt_false_ge; [apply toValidFloat_not_nan, Hn | reflexivity | exact E].
Qed.

Lemma validateDistance_nonneg (v : jsval) (d : jsnum) :
  js_ge d (JFin 0) = true -> js_ge (validateDistance v d) (JFin 0) = true.
Proof.
  intros Hd. pose proof (CameraProofs.js_ge_not_nan _ _ Hd) as Hn.
  unfold validateDistance. destruct (js_lt (toValidFloat v d) (JFin 0)) eqn:E; [exact Hd|].
  apply js_lt_false_ge; [apply toValidFloat_not_nan, Hn | reflexivity | exact E].
Qed.

Lemma validateDecay_range (v : jsval) (d : jsnum) :
  js_ge d (JFin 0) && js_le d (JFin 2) = true ->
  js_ge (validateDecay v d) (JFin 0) && js_le (validateDecay v d) (JFin 2) = true.
Proof.
  intros Hd. apply andb_prop in Hd as Hd'. destruct Hd' as [Hd1 _].
  pose proof (CameraProofs.js_ge_not_nan _ _ Hd1) as Hn.
  pose proof (toValidFloat_not_nan v d Hn) as Hx.
  unfold validateDecay.
  destruct (js_lt (toValidFloat v d) (JFin 0) || js_gt (toValidFloat v d) (JFin 2)) eqn:E;
    [exact Hd|].
  apply orb_false_iff in E as [E1 E2].
  apply andb_true_intro; split;
    [apply js_lt_false_ge | apply js_gt_false_le]; try reflexivity; assumption.
Qed.

Lemma validatePenumbra_range (v : jsval) (d : jsnum) :
  js_ge d (JFin 0) && js_le d (JFin 1) = true ->
  js_ge (validatePenumbra v d) (JFin 0) && js_le (validatePenumbra v d) (JFin 1) = true.
Proof.
  intros Hd. apply andb_prop in Hd as Hd'. destruct Hd' as [Hd1 _].
  pose proof (CameraProofs.js_ge_not_nan _ _ Hd1) as Hn.
  pose proof (toValidFloat_not_nan v d Hn) as Hx.
  unfold validatePenumbra.
  destruct (js_lt (toValidFloat v d) (JFin 0) || js_gt (toValidFloat v d) (JFin 1)) eqn:E;
    [exact Hd|].
  apply orb_false_iff in E as [E1 E2].
  apply andb_true_intro; split;
    [apply js_lt_false_ge | apply js_gt_false_le]; try reflexivity; assumption.
Qed.

Lemma validateShadowMapSize_pos (v : jsval) (d : jsnum) :
  (exists q z, d = JFin q /\ q == inject_Z z /\ (0 < z)%Z) ->
  exists q z, validateShadowMapSize v d = JFin q /\ q == inject_Z z /\ (0 < z)%Z.
Proof.
  intros Hd. unfold validateShadowMapSize.
  destruct (negb (isInteger v) || js_le (parseFloat v) (JFin 0)) eqn:E; [exact Hd|].
  apply orb_false_iff in E as [E1 E2]. apply negb_false_iff in E1.
  destruct v as [| | |[q| | |]| |]; try discriminate E1.
  change (js_le (JFin q) (JFin 0) = false) in E2.
  cbn in E1 |- *. apply Qeq_bool_eq in E1.
  assert (Hq : ~ q <= 0) by (intros Hle; apply js_le_fin in Hle; congruence).
  exists q, (Qfloor q). split; [reflexivity|]. split; [exact E1|].
  rewrite Zlt_Qlt. change (inject_Z 0) with 0. lra.
Qed.

(** The per-component conversion of [parseColor]. *)
Lemma color_component (x : jsnum) :
  let y := js_max (JFin 0) (js_min (JFin 1) (js_div x (JFin 255))) in
  (y = JNaN <-> x = JNaN) /\ (y <> JNaN -> js_ge y (JFin 0) && js_le y (JFin 1) = true).
Proof.
  intros y. subst y. destruct x as [q| | |].
  - replace (js_div (JFin q) (JFin 255)) with (JFin (q / 255)) by reflexivity.
    unfold js_min, js_max. rewrite !js_cmp_fin.
    destruct (Qcompare_spec 1 (q / 255)) as [H|H|H]; rewrite ?js_cmp_fin;
      [destruct (Qcompare_spec 0 1) as [H'|H'|H']
      |destruct (Qcompare_spec 0 1) as [H'|H'|H']
      |destruct (Qcompare_spec 0 (q / 255)) as [H'|H'|H']];
      (split; [split; discriminate|]); intros _;
      apply andb_true_intro; split; solve [apply js_ge_fin; lra | apply js_le_fin; lra].
  - vm_compute. split; [split; discriminate|]. intros _. reflexivity.
  - vm_compute. split; [split; discriminate|]. intros _. reflexivity.
  - split; [split; reflexivity|]. intros []; reflexivity.
Qed.

(** MyValidationUtils.parseColor: every component of the colour is within
    [0, 1], except that it is NaN exactly when the member (or 0 when it is
    missing or null) does not parse as a number. *)
Theorem parseColor_range (c : option vec3) :
  let members := [default JUndef (vx <$> c); default JUndef (vy <$> c);
                  default JUndef (vz <$> c)] in
  let '(r, g, b) := parseColor c in
  Forall2 (fun x v =>
             (x = JNaN <-> parseFloat (nullish v (JNum (JFin 0))) = JNaN) /\
             (x <> JNaN -> js_ge x (JFin 0) && js_le x (JFin 1) = true))
    [r; g; b] members.
Proof.
  intros members. unfold parseColor, members.
  repeat constructor; apply color_component.
Qed.

(** The validated members of a light, as [createLight] computes them before
    building the light. *)
Definition builtInRange
    (b : option (lightKind * jsnum * option jsnum * option jsnum * option jsnum *
                 option jsnum * option shadowCamera * list warning)) : Prop :=
  match b with
  | None => True
  | Some (_, intensity, distance, decay, angle, penumbra, _, _) =>
      js_ge intensity (JFin 0) = true /\
      (forall d, distance = Some d -> js_ge d (JFin 0) = true) /\
      (forall d, decay = Some d -> js_ge d (JFin 0) && js_le d (JFin 2) = true) /\
      (forall a, angle = Some a -> js_gt a (JFin 0) && js_lt a (JFin 180) = true) /\
      (forall p, penumbra = Some p -> js_ge p (JFin 0) && js_le p (JFin 1) = true)
  end.

Lemma builtInRange_match (t : jsval) A B C :
  builtInRange A -> builtInRange B -> builtInRange C ->
  builtInRange (match t with
                | JStr "pointlight" => A
                | JStr "spotlight" => B
                | JStr "directionallight" => C
                | _ => None
                end).
Proof.
  intros HA HB HC.
  repeat match goal with |- context [match ?x with _ => _ end] => destruct x end;
    first [exact I | assumption].
Qed.

(** createLight: a light that is built has a non-negative intensity and
    distance, a decay within [0, 2], a spotlight angle strictly between 0 and
    180 degrees, a penumbra within [0, 1], and a shadow map size that is a
    positive integer. *)
Theorem createLight_ranges (ld : lightData) (lightId : string) (g : lightGroup) :
  fst (createLight ld lightId) = Some g ->
  let l := lg_light g in
  js_ge (l_intensity l) (JFin 0) = true /\
  (forall d, l_distance l = Some d -> js_ge d (JFin 0) = true) /\
  (forall d, l_decay l = Some d -> js_ge d (JFin 0) && js_le d (JFin 2) = true) /\
  (forall a, l_angle_deg l = Some a -> js_gt a (JFin 0) && js_lt a (JFin 180) = true) /\
  (forall p, l_penumbra l = Some p -> js_ge p (JFin 0) && js_le p (JFin 1) = true) /\
  (exists q z, l_mapSize l = JFin q /\ q == inject_Z z /\ (0 < z)%Z).
Proof.
  intros Hg l. unfold l; clear l.
  unfold createLight in Hg.
  match type of Hg with context [?m] =>
    lazymatch m with (match ld_type ld with _ => _ end) =>
      assert (Hb : builtInRange m); [|set (built := m) in Hg, Hb; clearbody built]
    end
  end.
  { apply builtInRange_match.
    - cbn. split; [apply validateIntensity_nonneg; reflexivity|].
      split; [intros d [= <-]; apply validateDistance_nonneg; reflexivity|].
      split; [intros d [= <-]; apply validateDecay_range; reflexivity|].
      split; intros ? [=].
    - cbn. split; [apply validateIntensity_nonneg; reflexivity|].
      split; [intros d [= <-]; apply validateDistance_nonneg; reflexivity|].
      split; [intros d [= <-]; apply validateDecay_range; reflexivity|].
      split; [intros a [= <-]|intros p [= <-]; apply validatePenumbra_range; reflexivity].
      destruct (CameraProofs.validateAngle_cases (ld_angle ld) (JFin 0) (JFin 180) (JFin 45))
        as [[H1 H2]|H]; try reflexivity.
      + rewrite H1, H2. reflexivity.
      + rewrite H. reflexivity.
    - destruct (directionalShadow ld). cbn.
      split; [apply validateIntensity_nonneg; reflexivity|].
      repeat split; intros ? [=]. }
  destruct built as [[[[[[[[kind intensity] distance] decay] angle] penumbra] cam] ws]|];
    [|discriminate Hg].
  cbn in Hg. injection Hg as <-. cbn.
  destruct Hb as (H1 & H2 & H3 & H4 & H5).
  repeat split; try assumption.
  apply validateShadowMapSize_pos. exists 512, 512%Z. repeat split; reflexivity.
Qed.

Lemma createLight_ranges_witness :
  let g := mkLightData (JStr "spotlight") None (JStr "-3") (JNum (JFin 50)) (JNum (JFin 3))
             (JNum (JFin 200)) (JStr "0.5") JUndef JUndef JUndef JUndef JUndef JUndef
             (JNum (JFin 1024)) None None in
  exists lg, fst (createLight g "spot") = Some lg /\
  js_ge (l_intensity (lg_light lg)) (JFin 0) = true.
Proof.
  intros g. eexists. split; [reflexivity|].
  apply (createLight_ranges g "spot"). reflexivity.
Defined.

End LightRangeProofs.

Module RegistryProofs.
Import Registry.

Lemma str_app_nil (x : string) : (""%string ++ x)%string = x.
Proof. reflexivity. Qed.

Lemma str_app_cons ch (x y : string) : (String ch x ++ y)%string = String ch (x ++ y).
Proof. reflexivity. Qed.

Lemma str_app_inj_l (p x y : string) : (p ++ x)%string = (p ++ y)%string -> x = y.
Proof.
  induction p as [|c p IH]; intros H.
  - rewrite !str_app_nil in H. exact H.
  - rewrite !str_app_cons in H. injection H as H. exact (IH H).
Qed.

Lemma of_uint_D0 (d : Decimal.uint) : Nat.of_uint (Decimal.D0 d) = Nat.of_uint d.
Proof. reflexivity. Qed.

(** Leading zeros do not change the number a decimal string denotes. *)
Lemma zeros_value (m : nat) (s : string) (d : Decimal.uint) :
  DecimalString.NilEmpty.uint_of_string s = Some d ->
  exists d', DecimalString.NilEmpty.uint_of_string
               (string_of_list_ascii (repeat "0"%char m) ++ s) = Some d' /\
             Nat.of_uint d' = Nat.of_uint d.
Proof.
  intros Hs. induction m as [|m IH].
  - exists d. split; [exact Hs | reflexivity].
  - destruct IH as [d' [H1 H2]]. exists (Decimal.D0 d').
    split; [|rewrite of_uint_D0; exact H2].
    cbn [repeat string_of_list_ascii]. rewrite str_app_cons. cbn. rewrite H1. reflexivity.
Qed.

Lemma padStart_value (n : nat) :
  exists d, DecimalString.NilEmpty.uint_of_string (padStart 2 "0" (jsString n)) = Some d /\
            Nat.of_uint d = n.
Proof.
  unfold padStart, jsString.
  destruct (zeros_value (2 - String.length (DecimalString.NilEmpty.string_of_uint (Nat.to_uint n)))
              _ _ (DecimalString.NilEmpty.usu (Nat.to_uint n))) as [d [H1 H2]].
  exists d. split; [exact H1|]. rewrite H2. apply DecimalNat.Unsigned.of_to.
Qed.

Lemma materialId_inj (idBase : string) (a b : nat) :
  materialId idBase a = materialId idBase b -> a = b.
Proof.
  unfold materialId. intros H.
  apply str_app_inj_l in H. rewrite !str_app_cons, !str_app_nil in H. injection H as H.
  destruct (padStart_value a) as [da [Ha1 Ha2]], (padStart_value b) as [db [Hb1 Hb2]].
  rewrite H, Hb1 in Ha1. injection Ha1 as <-. congruence.
Qed.

Lemma map_length_le_size {A} (m : gmap string A) (V : list string) :
  List.NoDup V -> (forall x, In x V -> is_Some (m !! x)) -> length V <= size m.
Proof.
  intros Hnd Hin. rewrite <- length_map_to_list, <- (length_map fst).
  apply NoDup_incl_length; [exact Hnd|].
  intros x Hx. destruct (Hin x Hx) as [v Hv]. apply in_map_iff. exists (x, v).
  split; [reflexivity|]. apply list_elem_of_In, elem_of_map_to_list, Hv.
Qed.

(** Among the first [size materials + 1] ids one is free. *)
Lemma free_counter_exists {A} (materials : gmap string A) (idBase : string) :
  exists j, 1 <= j <= size materials + 1 /\ materials !! materialId idBase j = None.
Proof.
  destruct (decide (Exists (fun j => materials !! materialId idBase j = None)
                      (seq 1 (S (size materials))))) as [HE|HE].
  - apply Exists_exists in HE as [j [Hj Hf]]. apply elem_of_seq in Hj.
    exists j. split; [lia | exact Hf].
  - exfalso.
    assert (Hall : forall j, In j (seq 1 (S (size materials))) ->
                     is_Some (materials !! materialId idBase j)).
    { intros j Hj. destruct (materials !! materialId idBase j) eqn:E; [eauto|].
      exfalso. apply HE, Exists_exists. exists j. split; [apply list_elem_of_In, Hj | exact E]. }
    pose proof (map_length_le_size materials (map (materialId idBase) (seq 1 (S (size materials)))))
      as Hle.
    rewrite length_map, length_seq in Hle.
    assert (S (size materials) <= size materials); [|lia].
    apply Hle.
    + apply Finite.Injective_map_NoDup; [intros a b; apply materialId_inj | apply seq_NoDup].
    + intros x Hx. apply in_map_iff in Hx as [j [<- Hj]]. apply Hall, Hj.
Qed.

Lemma uniqueIdLoop_spec {A} (materials : gmap string A) (idBase : string) (fuel c : nat) :
  (forall k, 1 <= k < c -> is_Some (materials !! materialId idBase k)) ->
  (exists j, c <= j <= c + fuel /\ materials !! materialId idBase j = None) ->
  exists c', uniqueIdLoop materials idBase fuel c (materialId idBase c) = Some (materialId idBase c') /\
    c <= c' <= c + fuel /\ materials !! materialId idBase c' = None /\
    (forall k, 1 <= k < c' -> is_Some (materials !! materialId idBase k)).
Proof.
  induction fuel as [|fuel IH] in c |- *; intros Hbelow [j [Hj Hfree]];
    cbn [uniqueIdLoop]; destruct (materials !! materialId idBase c) eqn:E.
  - exfalso. assert (j = c) as -> by lia. congruence.
  - exists c. rewrite bool_decide_eq_false_2 by (intros [? ?]; discriminate).
    repeat split; [lia | lia | exact E | exact Hbelow].
  - rewrite bool_decide_eq_true_2 by eauto.
    assert (j <> c) by (intros ->; congruence).
    destruct (IH (S c)) as [c' (H1 & H2 & H3 & H4)].
    + intros k Hk. destruct (decide (k = c)) as [->|Hne]; [rewrite E; eauto|].
      apply Hbelow; lia.
    + exists j. split; [lia | exact Hfree].
    + exists c'. repeat split; [exact H1 | lia | lia | exact H3 | exact H4].
  - exists c. rewrite bool_decide_eq_false_2 by (intros [? ?]; discriminate).
    repeat split; [lia | lia | exact E | exact Hbelow].
Qed.

Lemma uniqueId_spec {A} (materials : gmap string A) (idBase : string) :
  exists counter, uniqueId materials idBase = Some (materialId idBase counter) /\
    1 <= counter <= size materials + 1 /\ materials !! materialId idBase counter = None /\
    (forall k, 1 <= k < counter -> is_Some (materials !! materialId idBase k)).
Proof.
  unfold uniqueId. change (idBase ++ "_01")%string with (materialId idBase 1).
  destruct (free_counter_exists materials idBase) as [j [Hj Hf]].
  destruct (uniqueIdLoop_spec materials idBase (size materials) 1) as [c' (H1 & H2 & H3 & H4)].
  - intros k Hk. lia.
  - exists j. split; [lia | exact Hf].
  - exists c'. repeat split; [exact H1 | lia | lia | exact H3 | exact H4].
Qed.

(** createPrimitive: the loop choosing the id of a new material ends within
    [size materials] iterations, on the id ["<idBase>_NN"] with the least
    counter (from 1) that is not taken; it is at most [size materials + 1]. *)
Theorem uniqueId_fresh_least {A} (materials : gmap string A) (idBase : string) :
  exists counter, uniqueId materials idBase = Some (materialId idBase counter) /\
    1 <= counter <= size materials + 1 /\ materials !! materialId idBase counter = None /\
    (forall k, 1 <= k < counter -> is_Some (materials !! materialId idBase k)).
Proof. apply uniqueId_spec. Qed.

Lemma registerMaterial_fresh {A} (materials : gmap string A) (idBase : string) (m : A) :
  exists id, materials !! id = None /\ registerMaterial materials idBase m = <[id := m]> materials.
Proof.
  unfold registerMaterial.
  destruct (uniqueId_spec materials idBase) as [c (-> & _ & Hf & _)].
  exists (materialId idBase c). split; [exact Hf | reflexivity].
Qed.

(** createPrimitive: a polygon always registers its material in
    [appMyContents.materials] under a new id, also when it inherits a
    material; the other supported kinds register the default material only
    when no material is inherited; nothing else is registered and no
    existing entry is ever replaced. *)
Theorem primitiveMaterial_registers {A} (cloneWithVertexColors : A -> A)
    (defaultMaterialVertexClone defaultMaterialClone : A) (type : string)
    (material : option A) (materials : gmap string A) :
  let '(materials', meshMaterial) :=
    primitiveMaterial cloneWithVertexColors defaultMaterialVertexClone defaultMaterialClone
      type material materials in
  if bool_decide (type = "polygon"%string) ||
     (bool_decide (type ∈ ["rectangle"; "triangle"; "box"; "cylinder"; "sphere"; "nurbs"]%string)
      && bool_decide (material = None))
  then exists id m, meshMaterial = Some m /\ materials !! id = None /\
                    materials' = <[id := m]> materials
  else materials' = materials.
Proof.
  unfold primitiveMaterial.
  destruct (bool_decide (type = "polygon"%string)); cbn [orb].
  - destruct (registerMaterial_fresh materials "polygon"
                (match material with
                 | Some m => cloneWithVertexColors m
                 | None => defaultMaterialVertexClone
                 end)) as [id [Hf ->]].
    eexists id, _. split; [reflexivity | split; [exact Hf | reflexivity]].
  - destruct (bool_decide (type ∈ _)); cbn [andb]; [|reflexivity].
    destruct material as [m|].
    + rewrite bool_decide_eq_false_2 by discriminate. reflexivity.
    + rewrite bool_decide_eq_true_2 by reflexivity.
      destruct (registerMaterial_fresh materials "default_mesh_material" defaultMaterialClone)
        as [id [Hf ->]].
      exists id, defaultMaterialClone. split; [reflexivity | split; [exact Hf | reflexivity]].
Qed.

End RegistryProofs.

Module TexturesProofs.
Import Textures.

(** A non-blank string, the values [validateString] keeps. *)
Lemma validateString_null (v : jsval) :
  (validateString v JNull = v /\ exists s, v = JStr s /\ trim s <> ""%string) \/
  validateString v JNull = JNull /\ ~ exists s, v = JStr s /\ trim s <> ""%string.
Proof.
  destruct v as [| | | |s|]; cbn;
    try (right; split; [reflexivity | intros (? & [=] & _)]).
  destruct (decide (trim s <> ""%string)) as [H|H].
  - rewrite bool_decide_eq_true_2 by exact H. left. split; [reflexivity|eauto].
  - rewrite bool_decide_eq_false_2 by exact H. right. split; [reflexivity|].
    intros (s' & [= <-] & H'). contradiction.
Qed.

Lemma trim_empty : trim "" = ""%string.
Proof. reflexivity. Qed.

Lemma truthy_validateString_null (v : jsval) :
  Camera.js_truthy (validateString v JNull) = true <->
  exists s, v = JStr s /\ trim s <> ""%string.
Proof.
  destruct (validateString_null v) as [[-> Hv]|[-> Hv]]; [|split; [discriminate|tauto]].
  split; [intros _; exact Hv|]. intros (s & -> & Hs). cbn.
  rewrite bool_decide_eq_false_2; [reflexivity|]. intros ->. apply Hs, trim_empty.
Qed.

Section MipmapLoop.
Variable td : textureData.
Variable step : list jsval * bool -> nat -> list jsval * bool.
Hypothesis step_stopped : forall acc i, step (acc, true) i = (acc, true).
Hypothesis step_running : forall acc i,
  step (acc, false) i =
    if Camera.js_truthy (validateString (td (mipmapKey i)) JNull)
    then (acc ++ [validateString (td (mipmapKey i)) JNull], false) else (acc, true).

Lemma mipmap_fold_stopped (l : list nat) (acc : list jsval) :
  fold_left step l (acc, true) = (acc, true).
Proof. induction l as [|i l IH]; [reflexivity|]. cbn. rewrite step_stopped. exact IH. Qed.

Lemma mipmap_fold (k a : nat) (acc : list jsval) :
  exists n stopped, n <= k /\
    fold_left step (seq a k) (acc, false) =
      (acc ++ map (fun i => td (mipmapKey i)) (seq a n), stopped) /\
    (forall i, a <= i < a + n -> exists s, td (mipmapKey i) = JStr s /\ trim s <> ""%string) /\
    (n < k -> ~ exists s, td (mipmapKey (a + n)) = JStr s /\ trim s <> ""%string).
Proof.
  induction k as [|k IH] in a, acc |- *.
  - exists 0, false. split; [lia|]. split; [rewrite app_nil_r; reflexivity|].
    split; [intros; lia | intros; lia].
  - cbn [seq fold_left]. rewrite step_running.
    destruct (validateString_null (td (mipmapKey a))) as [[Hv Hs]|[Hv Hs]]; rewrite Hv.
    + assert (Ht : Camera.js_truthy (td (mipmapKey a)) = true).
      { rewrite <- Hv. apply truthy_validateString_null, Hs. }
      rewrite Ht.
      destruct (IH (S a) (acc ++ [td (mipmapKey a)])) as (n & st & Hn & Hf & Hval & Hstop).
      exists (S n), st. split; [lia|]. split.
      * rewrite Hf. cbn [seq map]. rewrite <- app_assoc. reflexivity.
      * split.
        -- intros i Hi. destruct (decide (i = a)) as [->|Hne]; [exact Hs|]. apply Hval; lia.
        -- intros Hlt. replace (a + S n) with (S a + n) by lia. apply Hstop. lia.
    + cbn [Camera.js_truthy]. rewrite mipmap_fold_stopped.
      exists 0, true. split; [lia|]. split; [rewrite app_nil_r; reflexivity|].
      split; [intros; lia|]. intros _. rewrite Nat.add_0_r. exact Hs.
Qed.
End MipmapLoop.

(** MyTextures: the mipmaps of a texture are the longest run [mipmap0],
    [mipmap1], ... (at most eight levels) of members that are non-blank
    strings; collection stops at the first missing or blank level, so the
    levels after a gap are ignored. *)
Theorem collectMipmaps_prefix (td : textureData) :
  exists n, n <= 8 /\
    collectMipmaps td = map (fun i => td (mipmapKey i)) (seq 0 n) /\
    (forall i, i < n -> exists s, td (mipmapKey i) = JStr s /\ trim s <> ""%string) /\
    (n < 8 -> ~ exists s, td (mipmapKey n) = JStr s /\ trim s <> ""%string).
Proof.
  unfold collectMipmaps.
  match goal with |- context [fold_left ?f (seq 0 8) _] =>
    destruct (mipmap_fold td f (fun _ _ => eq_refl) (fun _ _ => eq_refl) 8 0 [])
      as (n & st & Hn & Hf & Hval & Hstop) end.
  exists n. rewrite Hf. cbn [fst app]. split; [exact Hn|]. split; [reflexivity|].
  split; [intros i Hi; apply Hval; lia | exact Hstop].
Qed.

Section TexturesLoop.
Variable textures : gmap string Materials.texture.
Variable step : list (string * myTexture) * list warning * bool -> string * option textureData ->
                list (string * myTexture) * list warning * bool.
Hypothesis step_threw : forall started ws p, step (started, ws, true) p = (started, ws, true).
Hypothesis step_skip : forall started ws id o,
  bool_decide (id = ""%string) || bool_decide (is_Some (textures !! id)) || objectPrototypeKey id = true ->
  step (started, ws, false) (id, o) = (started, ws, false).
Hypothesis step_null : forall started ws id,
  bool_decide (id = ""%string) || bool_decide (is_Some (textures !! id)) || objectPrototypeKey id = false ->
  step (started, ws, false) (id, None) = (started, ws, true).
Hypothesis step_decl : forall started ws id td,
  bool_decide (id = ""%string) || bool_decide (is_Some (textures !! id)) || objectPrototypeKey id = false ->
  step (started, ws, false) (id, Some td) =
    if Camera.js_truthy (mt_textureId (newMyTextures id td)) &&
       Camera.js_truthy (mt_filepath (newMyTextures id td))
    then (started ++ [(id, newMyTextures id td)], ws, false)
    else (started, ws ++ [WarnInvalidTexture id], false).

Lemma textures_fold_threw (data : list (string * option textureData)) started ws :
  fold_left step data (started, ws, true) = (started, ws, true).
Proof. induction data as [|p data IH]; [reflexivity|]. cbn. rewrite step_threw. exact IH. Qed.

Lemma not_skipped (id : string) :
  bool_decide (id = ""%string) || bool_decide (is_Some (textures !! id)) || objectPrototypeKey id = false
  <-> id <> ""%string /\ textures !! id = None /\ objectPrototypeKey id = false.
Proof.
  rewrite !orb_false_iff, !bool_decide_eq_false. split.
  - intros [[H1 H2] H3]. split; [exact H1|]. split; [|exact H3].
    destruct (textures !! id); [exfalso; apply H2; eauto | reflexivity].
  - intros (H1 & H2 & H3). split; [split; [exact H1|] | exact H3].
    rewrite H2. intros [? [=]].
Qed.

Lemma textures_fold (data : list (string * option textureData))
    (started0 : list (string * myTexture)) (ws0 : list warning) :
  let '(started, ws, threw) := fold_left step data (started0, ws0, false) in
  (forall id t, In (id, t) started ->
     In (id, t) started0 \/
     (exists td, In (id, Some td) data /\ t = newMyTextures id td /\ id <> ""%string /\
        textures !! id = None /\ objectPrototypeKey id = false /\
        Camera.js_truthy (mt_textureId t) && Camera.js_truthy (mt_filepath t) = true)) /\
  (threw = false -> forall id td, In (id, Some td) data -> id <> ""%string ->
     textures !! id = None -> objectPrototypeKey id = false ->
     Camera.js_truthy (mt_filepath (newMyTextures id td)) = false ->
     In (WarnInvalidTexture id) ws) /\
  (forall w, In w ws0 -> In w ws) /\
  (threw = true <-> exists id, In (id, None) data /\ id <> ""%string /\
     textures !! id = None /\ objectPrototypeKey id = false).
Proof.
  induction data as [|[id o] data IH] in started0, ws0 |- *.
  - cbn. split; [auto|]. split; [intros _ ? ? []|]. split; [auto|].
    split; [discriminate | intros (? & [] & _)].
  - cbn [fold_left].
    destruct (bool_decide (id = ""%string) || bool_decide (is_Some (textures !! id))
              || objectPrototypeKey id) eqn:Eskip.
    + rewrite step_skip by exact Eskip.
      specialize (IH started0 ws0).
      destruct (fold_left step data (started0, ws0, false)) as [[started ws] threw].
      destruct IH as (H1 & H2 & H3 & H4). split; [|split; [|split]].
      * intros id' t Hin. destruct (H1 id' t Hin) as [H|(td' & Hd & Ht)]; [left; exact H|].
        right. exists td'. split; [right; exact Hd | exact Ht].
      * intros Hth id' td' [[= <- _]|Hd] Hne Hnone Hk Hfp; [|eapply H2; eauto].
        exfalso. assert (C : bool_decide (id = ""%string) || bool_decide (is_Some (textures !! id))
                             || objectPrototypeKey id = false) by (apply not_skipped; auto).
        congruence.
      * exact H3.
      * rewrite H4. split; intros (id' & Hin & Hr); exists id'; split; auto.
        -- right; exact Hin.
        -- destruct Hin as [[= <-]|Hin]; [|exact Hin].
           exfalso. assert (C : bool_decide (id = ""%string) || bool_decide (is_Some (textures !! id))
                                || objectPrototypeKey id = false) by (apply not_skipped; exact Hr).
           congruence.
    + pose proof (proj1 (not_skipped id) Eskip) as (E1 & E2 & E3).
      destruct o as [td|].
      * rewrite step_decl by exact Eskip.
        destruct (Camera.js_truthy (mt_textureId (newMyTextures id td)) &&
                  Camera.js_truthy (mt_filepath (newMyTextures id td))) eqn:Ev.
        -- specialize (IH (started0 ++ [(id, newMyTextures id td)]) ws0).
           destruct (fold_left step data _) as [[started ws] threw].
           destruct IH as (H1 & H2 & H3 & H4). split; [|split; [|split]].
           ++ intros id' t Hin. destruct (H1 id' t Hin) as [H|(td' & Hd & Ht)].
              ** apply in_app_or in H as [H|[[= <- <-]|[]]]; [left; exact H|].
                 right. exists td. split; [left; reflexivity|]. auto.
              ** right. exists td'. split; [right; exact Hd | exact Ht].
           ++ intros Hth id' td' [[= <- <-]|Hd] Hne Hnone Hk Hfp; [|eapply H2; eauto].
              rewrite Hfp, andb_false_r in Ev. discriminate.
           ++ exact H3.
           ++ rewrite H4. split; intros (id' & Hin & Hr); exists id'; split; auto.
              ** right; exact Hin.
              ** destruct Hin as [[=]|Hin]; exact Hin.
        -- specialize (IH started0 (ws0 ++ [WarnInvalidTexture id])).
           destruct (fold_left step data _) as [[started ws] threw].
           destruct IH as (H1 & H2 & H3 & H4). split; [|split; [|split]].
           ++ intros id' t Hin. destruct (H1 id' t Hin) as [H|(td' & Hd & Ht)]; [left; exact H|].
              right. exists td'. split; [right; exact Hd | exact Ht].
           ++ intros Hth id' td' [[= <- <-]|Hd] Hne Hnone Hk Hfp; [|eapply H2; eauto].
              apply H3, in_or_app. right; left; reflexivity.
           ++ intros w Hw. apply H3, in_or_app. left; exact Hw.
           ++ rewrite H4. split; intros (id' & Hin & Hr); exists id'; split; auto.
              ** right; exact Hin.
              ** destruct Hin as [[=]|Hin]; exact Hin.
      * rewrite step_null by exact Eskip. rewrite textures_fold_threw.
        split; [auto|]. split; [discriminate|]. split; [auto|].
        split; [intros _; exists id; split; [left; reflexivity | auto] | reflexivity].
Qed.

End TexturesLoop.

(** The loop of [texturesRendering] as its fold, with the facts above. *)
Lemma texturesRendering_facts (textures : gmap string Materials.texture)
    (data : option (list (string * option textureData))) :
  let '(started, ws, threw) := texturesRendering textures data in
  (forall id t, In (id, t) started ->
     exists l td, data = Some l /\ In (id, Some td) l /\ t = newMyTextures id td /\
       id <> ""%string /\ textures !! id = None /\ objectPrototypeKey id = false /\
       Camera.js_truthy (mt_textureId t) && Camera.js_truthy (mt_filepath t) = true) /\
  (threw = false -> forall l id td, data = Some l -> In (id, Some td) l -> id <> ""%string ->
     textures !! id = None -> objectPrototypeKey id = false ->
     Camera.js_truthy (mt_filepath (newMyTextures id td)) = false ->
     In (WarnInvalidTexture id) ws) /\
  (threw = true <-> data = None \/
     exists l id, data = Some l /\ In (id, None) l /\ id <> ""%string /\
       textures !! id = None /\ objectPrototypeKey id = false).
Proof.
  unfold texturesRendering.
  destruct data as [[|p l]|].
  - split; [intros ? ? []|]. split; [intros _ l' id td [= <-] []|].
    split; [discriminate|]. intros [[=]|(l' & id & [= <-] & [] & _)].
  - match goal with |- context [fold_left ?f (p :: l) ([], [], false)] =>
      pose proof (textures_fold textures f
        (fun started ws p => ltac:(destruct p; reflexivity))
        (fun started ws id o H => ltac:(cbn -[newMyTextures]; rewrite H; reflexivity))
        (fun started ws id H => ltac:(cbn -[newMyTextures]; rewrite H; reflexivity))
        (fun started ws id td H => ltac:(cbn -[newMyTextures]; rewrite H; reflexivity))
        (p :: l) [] []) as Hf end.
    destruct (fold_left _ (p :: l) ([], [], false)) as [[started ws] threw].
    destruct Hf as (H1 & H2 & _ & H4). split; [|split].
    + intros id t Hin. destruct (H1 id t Hin) as [[]|(td & Hd & Ht)].
      exists (p :: l), td. split; [reflexivity|]. split; [exact Hd | exact Ht].
    + intros Hth l' id td [= <-]. apply H2, Hth.
    + rewrite H4. split.
      * intros (id & Hr). right. exists (p :: l), id. split; [reflexivity | exact Hr].
      * intros [[=]|(l' & id & [= <-] & Hr)]. exists id. exact Hr.
  - split; [intros ? ? []|]. split; [discriminate|].
    split; [intros _; left; reflexivity | reflexivity].
Qed.

Lemma loadTextureAsync_not_none (t : myTexture) :
  Camera.js_truthy (mt_filepath t) = true -> loadTextureAsync t <> LoadNone.
Proof.
  intros H. unfold loadTextureAsync. rewrite H, andb_true_r.
  destruct (mt_isVideo t); [discriminate|].
  destruct (bool_decide _); discriminate.
Qed.


Lemma started_truthy (textures : gmap string Materials.texture)
    (data : option (list (string * option textureData))) (id : string) (t : myTexture) :
  In (id, t) (texturesRendering textures data).1.1 ->
  textures !! id = None /\ Camera.js_truthy (mt_filepath t) = true.
Proof.
  pose proof (texturesRendering_facts textures data) as Hf.
  destruct (texturesRendering textures data) as [[started ws] threw].
  destruct Hf as (H1 & _ & _). intros Hin.
  destruct (H1 id t Hin) as (l & td & _ & _ & _ & _ & Hnone & _ & Hv).
  apply andb_prop in Hv as [_ Hfp]. split; assumption.
Qed.

Section Settling.
Variables loads videoLoads : string -> bool.

Lemma settle_rejected (t : myTexture) :
  Camera.js_truthy (mt_filepath t) = true ->
  settle loads videoLoads t = Rejected <->
  mt_isVideo t = false /\ pathLoads loads (mt_filepath t) = false /\
  (mt_mipmaps t = [] \/ forallb (pathLoads loads) (mt_mipmaps t) = false).
Proof.
  intros H. unfold settle, loadTextureAsync. rewrite H, andb_true_r.
  destruct (mt_isVideo t).
  - split; [|intros [[=] _]].
    destruct (mt_filepath t); try discriminate. destruct (videoLoads s); discriminate.
  - destruct (mt_mipmaps t) as [|m ms] eqn:Em; cbn [length].
    + rewrite bool_decide_eq_false_2 by lia.
      destruct (pathLoads loads (mt_filepath t)).
      * split; [discriminate|intros (_ & [=] & _)].
      * split; [intros _; auto|reflexivity].
    + rewrite bool_decide_eq_true_2 by lia.
      destruct (forallb _ (m :: ms)); destruct (pathLoads loads (mt_filepath t));
        (split; [intros E; try discriminate E; auto | intros (_ & E1 & [E2|E2]); try discriminate; reflexivity]).
Qed.

Lemma settle_not_null (t : myTexture) :
  Camera.js_truthy (mt_filepath t) = true ->
  settle loads videoLoads t <> Resolved false.
Proof.
  intros H. unfold settle. pose proof (loadTextureAsync_not_none t H) as Hn.
  unfold loadTextureAsync in *. rewrite H, andb_true_r in *.
  destruct (mt_isVideo t).
  - destruct (mt_filepath t); try discriminate. destruct (videoLoads s); discriminate.
  - destruct (bool_decide _).
    + destruct (forallb _ _); [discriminate|]. destruct (pathLoads _ _); discriminate.
    + destruct (pathLoads _ _); discriminate.
Qed.

Lemma store_fold_other (started : list (string * myTexture))
    (m0 : gmap string Materials.texture) (k : string) :
  (forall t, ~ In (k, t) started) ->
  fold_left (fun acc p =>
               if bool_decide (settle loads videoLoads p.2 = Resolved true)
               then <[p.1 := Materials.mkTexture p.1]> acc else acc) started m0 !! k = m0 !! k.
Proof.
  induction started as [|[id t] started IH] in m0 |- *; intros Hk; [reflexivity|].
  cbn [fold_left]. rewrite IH by (intros t' Ht'; apply (Hk t'); right; exact Ht').
  destruct (bool_decide _); [|reflexivity]. cbn [fst].
  rewrite lookup_insert_ne; [reflexivity|]. intros ->. apply (Hk t). left; reflexivity.
Qed.

Lemma store_fold_kept (started : list (string * myTexture))
    (m0 : gmap string Materials.texture) (k : string) :
  m0 !! k = Some (Materials.mkTexture k) ->
  fold_left (fun acc p =>
               if bool_decide (settle loads videoLoads p.2 = Resolved true)
               then <[p.1 := Materials.mkTexture p.1]> acc else acc) started m0 !! k =
    Some (Materials.mkTexture k).
Proof.
  induction started as [|[id t] started IH] in m0 |- *; intros Hk; [exact Hk|].
  cbn [fold_left]. apply IH. destruct (bool_decide _); [|exact Hk]. cbn [fst].
  destruct (decide (id = k)) as [->|Hne].
  - apply lookup_insert_eq.
  - rewrite lookup_insert_ne by exact Hne. exact Hk.
Qed.

Lemma store_fold_stored (started : list (string * myTexture))
    (m0 : gmap string Materials.texture) (id : string) (t : myTexture) :
  In (id, t) started -> settle loads videoLoads t = Resolved true ->
  fold_left (fun acc p =>
               if bool_decide (settle loads videoLoads p.2 = Resolved true)
               then <[p.1 := Materials.mkTexture p.1]> acc else acc) started m0 !! id =
    Some (Materials.mkTexture id).
Proof.
  induction started as [|[id' t'] started IH] in m0 |- *; intros Hin Hs; [destruct Hin|].
  destruct Hin as [[= -> ->]|Hin]; [|cbn [fold_left]; apply IH; assumption].
  cbn [fold_left]. apply store_fold_kept. rewrite bool_decide_eq_true_2 by exact Hs.
  apply lookup_insert_eq.
Qed.

End Settling.

(** texturesRendering, awaited: the load rejects, so that the materials
    and the graph are never processed, exactly when the textures section is
    null, or the loop reaches a null declaration (under an id that is not
    skipped), whose constructor throws a TypeError, or a started texture
    that is not a video fails to load its [filepath] and has no mipmap
    levels or a mipmap level that fails too.  When it completes, every
    started texture is stored under its id and the textures loaded before
    are kept. *)
Theorem texturesRendering_await (loads videoLoads : string -> bool)
    (textures : gmap string Materials.texture)
    (data : option (list (string * option textureData))) :
  let started := (texturesRendering textures data).1.1 in
  (texturesRenderingAwait loads videoLoads textures data = TexturesRejected <->
     data = None \/
     (exists l id, data = Some l /\ In (id, None) l /\ id <> ""%string /\
        textures !! id = None /\ objectPrototypeKey id = false) \/
     exists id t, In (id, t) started /\ mt_isVideo t = false /\
       pathLoads loads (mt_filepath t) = false /\
       (mt_mipmaps t = [] \/ forallb (pathLoads loads) (mt_mipmaps t) = false)) /\
  (forall m, texturesRenderingAwait loads videoLoads textures data = TexturesLoaded m ->
     (forall k v, textures !! k = Some v -> m !! k = Some v) /\
     (forall id t, In (id, t) started -> m !! id = Some (Materials.mkTexture id))).
Proof.
  cbv zeta.
  pose proof (started_truthy textures data) as Hst.
  pose proof (texturesRendering_facts textures data) as Hf.
  unfold texturesRenderingAwait.
  destruct (texturesRendering textures data) as [[started ws] threw].
  destruct Hf as (_ & _ & Hth). cbn [fst] in Hst |- *.
  destruct threw.
  - split.
    + split; [|intros _; reflexivity].
      intros _. destruct (proj1 Hth eq_refl) as [H|H]; [left; exact H | right; left; exact H].
    + intros m [=].
  - assert (Hnt : ~ (data = None \/ exists l id, data = Some l /\ In (id, None) l /\
                     id <> ""%string /\ textures !! id = None /\ objectPrototypeKey id = false))
      by (rewrite <- Hth; discriminate).
    split.
    + unfold awaitTextures. split.
      * destruct (existsb _ _) eqn:Er.
        -- intros _. right; right. apply existsb_exists in Er as ([id t] & Hin & Hr).
           apply bool_decide_eq_true_1 in Hr. cbn [snd] in Hr.
           destruct (Hst id t Hin) as [_ Ht].
           apply (settle_rejected loads videoLoads t Ht) in Hr. exists id, t. auto.
        -- destruct (existsb (fun p => bool_decide (settle loads videoLoads p.2 = Pending)) _);
             intros E; discriminate E.
      * intros [H|[H|(id & t & Hin & Hv)]]; [exfalso; apply Hnt; left; exact H
                                           | exfalso; apply Hnt; right; exact H|].
        destruct (Hst id t Hin) as [_ Ht].
        apply (settle_rejected loads videoLoads t Ht) in Hv.
        replace (existsb _ _) with true; [reflexivity|]. symmetry.
        apply existsb_exists. exists (id, t). split; [exact Hin|].
        apply bool_decide_eq_true_2. exact Hv.
    + intros m. unfold awaitTextures.
      destruct (existsb (fun p => bool_decide (settle loads videoLoads p.2 = Rejected)) _) eqn:Er;
        [discriminate|].
      destruct (existsb (fun p => bool_decide (settle loads videoLoads p.2 = Pending)) _) eqn:Ep;
        [discriminate|].
      intros [= <-]. split.
      * intros k v Hk. rewrite store_fold_other; [exact Hk|].
        intros t Hin. destruct (Hst k t Hin) as [Hn _].
        rewrite Hn in Hk. discriminate.
      * intros id t Hin. apply (store_fold_stored loads videoLoads _ _ id t Hin).
        destruct (Hst id t Hin) as [_ Ht].
        destruct (settle loads videoLoads t) as [[|]| |] eqn:Es.
        -- reflexivity.
        -- exfalso. exact (settle_not_null loads videoLoads t Ht Es).
        -- exfalso. assert (existsb (fun p => bool_decide (settle loads videoLoads p.2 = Rejected))
                             started = true) as C; [|congruence].
           apply existsb_exists. exists (id, t). split; [exact Hin|]. apply bool_decide_eq_true_2. exact Es.
        -- exfalso. assert (existsb (fun p => bool_decide (settle loads videoLoads p.2 = Pending))
                             started = true) as C; [|congruence].
           apply existsb_exists. exists (id, t). split; [exact Hin|]. apply bool_decide_eq_true_2. exact Es.
Qed.

End TexturesProofs.

Module RadianProofs.
Local Open Scope Q_scope.

(** validateRadianAngle: with a default that is a number, the result is a
    number within [[-2π, 2π]] (π being the double [Math.PI]); an angle of at
    most 360 degrees either way is converted as it is, and larger angles,
    infinities included, are clamped to exactly 2π or -2π. *)
Theorem validateRadianAngle_range (value : jsval) (defaultValue : jsnum) :
  js_isNaN defaultValue = false ->
  let pi := 884279719003555 # 281474976710656 in
  exists q, validateRadianAngle value defaultValue = JFin q /\
    (- pi) * 2 <= q <= pi * 2 /\
    (forall deg, toValidFloat value defaultValue = JFin deg ->
       (-360 <= deg <= 360 -> q == deg * (pi / 180)) /\
       (360 < deg -> q == pi * 2) /\
       (deg < -360 -> q == (- pi) * 2)) /\
    (toValidFloat value defaultValue = JPosInf -> q == pi * 2) /\
    (toValidFloat value defaultValue = JNegInf -> q == (- pi) * 2).
Proof.
  intros Hd pi. unfold validateRadianAngle, degToRad.
  replace DEG2RAD with (JFin (pi / 180)) by reflexivity.
  pose proof (toValidFloat_not_nan value defaultValue Hd) as Hn.
  destruct (toValidFloat value defaultValue) as [deg| | |]; [| | |discriminate].
  - change Math_PI with (JFin pi).
    change (Primitive.js_mul (JFin deg) (JFin (pi / 180))) with (JFin (deg * (pi / 180))).
    change (Primitive.js_mul (js_neg (JFin pi)) (JFin 2)) with (JFin ((- pi) * 2)).
    change (Primitive.js_mul (JFin pi) (JFin 2)) with (JFin (pi * 2)).
    unfold js_min. rewrite js_cmp_fin.
    destruct (Qcompare_spec (deg * (pi / 180)) (pi * 2)) as [E|E|E];
      unfold js_max; rewrite js_cmp_fin;
      [ destruct (Qcompare_spec ((- pi) * 2) (deg * (pi / 180))) as [F|F|F]
      | destruct (Qcompare_spec ((- pi) * 2) (deg * (pi / 180))) as [F|F|F]
      | destruct (Qcompare_spec ((- pi) * 2) (pi * 2)) as [F|F|F] ];
      eexists; (split; [reflexivity|]); unfold pi in *;
      change ((884279719003555 # 281474976710656) / 180)
        with (884279719003555 # 50665495807918080) in *;
      (split; [lra|]);
      (split; [intros deg' [= <-]; (split; [intros Hr; lra|]); split; intros Hr; lra
              | split; intros [=]]).
  - exists (pi * 2). split; [vm_compute; reflexivity|].
    split; [unfold pi; lra |].
    split; [intros ? [=] | split; [intros _; reflexivity | intros [=]]].
  - exists ((- pi) * 2). split; [vm_compute; reflexivity|].
    split; [unfold pi; lra |].
    split; [intros ? [=] | split; [intros [=] | intros _; reflexivity]].
Qed.

(** A witness: the default of [thetaLength] (360 degrees) for a missing
    member is 2π, and 720 degrees is clamped to 2π. *)
Lemma validateRadianAngle_range_witness :
  js_isNaN (JFin 360) = false /\
  (exists q, validateRadianAngle JUndef (JFin 360) = JFin q /\
    q == (884279719003555 # 281474976710656) * 2) /\
  (exists q, validateRadianAngle (JNum (JFin 720)) (JFin 360) = JFin q /\
    q == (884279719003555 # 281474976710656) * 2).
Proof.
  split; [reflexivity|]. split.
  - destruct (validateRadianAngle_range JUndef (JFin 360) eq_refl) as (q & E & _ & Hq & _).
    exists q. split; [exact E|]. rewrite (proj1 (Hq 360 eq_refl)).
    + reflexivity.
    + split; discriminate.
  - destruct (validateRadianAngle_range (JNum (JFin 720)) (JFin 360) eq_refl)
      as (q & E & _ & Hq & _).
    exists q. split; [exact E|]. apply (proj1 (proj2 (Hq 720 eq_refl))).
    reflexivity.
Defined.

End RadianProofs.

Module MaterialResolveProofs.
Import Materials.
Local Open Scope Q_scope.

Lemma toValidOpacity_range (v : jsval) :
  exists o, toValidOpacity v (JFin 1) = JFin o /\ 0 <= o <= 1.
Proof.
  unfold toValidOpacity.
  destruct (parseFloat v) as [q| | |]; cbn [js_isNaN].
  - unfold js_min. rewrite js_cmp_fin.
    destruct (Qcompare_spec q 1) as [E|E|E]; unfold js_max; rewrite js_cmp_fin.
    + destruct (Qcompare_spec 0 q) as [F|F|F]; eexists; (split; [reflexivity|]); lra.
    + destruct (Qcompare_spec 0 q) as [F|F|F]; eexists; (split; [reflexivity|]); lra.
    + exists 1. split; [reflexivity|lra].
  - exists 1. split; [reflexivity|lra].
  - exists 0. split; [reflexivity|lra].
  - exists 1. split; [reflexivity|lra].
Qed.

Lemma getTexture_some (textures : gmap string texture) (ref : option string) (t : texture) :
  getTexture textures ref = Some t ->
  exists r, ref = Some r /\ r <> ""%string /\ textures !! r = Some t.
Proof.
  destruct ref as [r|]; cbn; [|discriminate].
  case_bool_decide; [discriminate|]. intros E. exists r. auto.
Qed.

Lemma materials_loop_entries (materials : gmap string threeMaterial)
    (textures : gmap string texture) (data : list (string * materialData)) acc k m :
  In (k, m) (fst (fold_left (fun '(started, ws) '(materialId, materialData) =>
        if bool_decide (materialId = ""%string) || bool_decide (is_Some (materials !! materialId))
        then (started, ws)
        else
          let myMaterial := newMyMaterials materialId materialData textures in
          if isValid myMaterial then (started ++ [(materialId, myMaterial)], ws)
          else (started, ws ++ [WarnInvalidMaterial materialId]))
        data acc)) ->
  In (k, m) (fst acc) \/
  exists md, In (k, md) data /\ m = newMyMaterials k md textures /\ isValid m = true.
Proof.
  revert acc. induction data as [|[k' d] data IH]; intros [started ws] H; cbn in H.
  - auto.
  - apply IH in H as [H|[md [Hin Hv]]].
    + destruct (_ || _); [auto|].
      destruct (js_ge _ _) eqn:Hv; cbn in H; [|auto].
      apply in_app_or in H as [H|[[= <- <-]|[]]]; [auto|].
      right. exists d. split; [left; reflexivity|]. split; [reflexivity|]. exact Hv.
    + right. exists md. split; [right; exact Hin | exact Hv].
Qed.

Lemma materials_loop_NoDup (materials : gmap string threeMaterial)
    (textures : gmap string texture) (data : list (string * materialData)) acc :
  NoDup (map fst data) -> NoDup (map fst (fst acc)) ->
  (forall k, In k (map fst (fst acc)) -> ~ In k (map fst data)) ->
  NoDup (map fst (fst (fold_left (fun '(started, ws) '(materialId, materialData) =>
        if bool_decide (materialId = ""%string) || bool_decide (is_Some (materials !! materialId))
        then (started, ws)
        else
          let myMaterial := newMyMaterials materialId materialData textures in
          if isValid myMaterial then (started ++ [(materialId, myMaterial)], ws)
          else (started, ws ++ [WarnInvalidMaterial materialId]))
        data acc))).
Proof.
  revert acc. induction data as [|[k d] data IH]; intros [started ws] Hd Ha Hdis; [exact Ha|].
  cbn [map fst] in Hd. apply NoDup_cons in Hd as [Hk Hd'].
  cbn [fold_left]. apply IH; [exact Hd'| |].
  - destruct (_ || _); [exact Ha|]. destruct (isValid _); [|exact Ha].
    cbn [fst]. rewrite map_app. cbn [map fst].
    apply NoDup_app. split; [exact Ha|]. split; [|apply NoDup_singleton].
    intros k' Hk' Hin. apply list_elem_of_In in Hin as [Heq|[]]. subst k'.
    apply (Hdis k); [apply list_elem_of_In, Hk'|]. left; reflexivity.
  - intros k' Hk'. destruct (_ || _).
    + intros Hin. apply (Hdis k' Hk'). right; exact Hin.
    + destruct (isValid _); cbn [fst] in Hk'.
      * rewrite map_app in Hk'. apply in_app_or in Hk' as [Hk'|[<-|[]]].
        -- intros Hin. apply (Hdis k' Hk'). right; exact Hin.
        -- intros Hin. apply Hk, list_elem_of_In, Hin.
      * intros Hin. apply (Hdis k' Hk'). right; exact Hin.
Qed.

Lemma materialsRendering_entries (materials : gmap string threeMaterial)
    (textures : gmap string texture) (data : list (string * materialData)) k m :
  In (k, m) (fst (materialsRendering materials textures data)) ->
  exists md, In (k, md) data /\ m = newMyMaterials k md textures /\ isValid m = true.
Proof.
  unfold materialsRendering. destruct data as [|e data]; [intros []|].
  intros H. apply materials_loop_entries in H as [[]|H]. exact H.
Qed.

Lemma materialsRendering_NoDup (materials : gmap string threeMaterial)
    (textures : gmap string texture) (data : list (string * materialData)) :
  NoDup (map fst data) ->
  NoDup (map fst (fst (materialsRendering materials textures data))).
Proof.
  intros Hd. unfold materialsRendering. destruct data as [|e data]; [constructor|].
  apply materials_loop_NoDup; [exact Hd | constructor | intros ? []].
Qed.

Lemma resolveMaterials_perm (materials : gmap string threeMaterial)
    (l1 l2 : list (string * myMaterial)) :
  NoDup (map fst l1) -> Permutation l1 l2 ->
  resolveMaterials materials l1 = resolveMaterials materials l2.
Proof.
  intros Hnd Hp. revert materials Hnd.
  induction Hp as [|[k m] l l' Hp IH|[k1 m1] [k2 m2] l|l l' l'' H1 IH1 H2 IH2];
    intros materials Hnd.
  - reflexivity.
  - unfold resolveMaterials in *. cbn [fold_left]. apply IH.
    cbn [map fst] in Hnd. apply NoDup_cons in Hnd as [_ Hnd]. exact Hnd.
  - unfold resolveMaterials. cbn [fold_left]. f_equal.
    cbn [map fst] in Hnd. apply NoDup_cons in Hnd as [Hk _].
    apply insert_insert_ne. intros ->. apply Hk. left.
  - rewrite (IH1 materials Hnd). apply IH2.
    apply (Permutation_map fst) in H1. rewrite <- H1. exact Hnd.
Qed.

Lemma resolveMaterials_lookup (materials : gmap string threeMaterial)
    (order : list (string * myMaterial)) (k : string) (tm : threeMaterial) :
  resolveMaterials materials order !! k = Some tm ->
  materials !! k = Some tm \/ exists m, In (k, m) order /\ tm = createThreeMaterial m.
Proof.
  unfold resolveMaterials. revert materials.
  induction order as [|[k' m'] order IH]; intros materials H; [auto|].
  cbn [fold_left] in H. apply IH in H as [H|(m & Hin & ->)].
  - destruct (decide (k' = k)) as [->|Hne].
    + rewrite lookup_insert_eq in H. injection H as <-.
      right. exists m'. split; [left; reflexivity | reflexivity].
    + rewrite lookup_insert_ne in H by exact Hne. auto.
  - right. exists m. split; [right; exact Hin | reflexivity].
Qed.

(** materialsRendering: since the declared material ids are distinct, the
    mapping the started promises leave behind does not depend on the order
    in which they resolve. *)
Theorem materialsRendering_order_independent (materials : gmap string threeMaterial)
    (textures : gmap string texture) (data : list (string * materialData))
    (order : list (string * myMaterial)) :
  NoDup (map fst data) ->
  Permutation (fst (materialsRendering materials textures data)) order ->
  resolveMaterials materials order =
    resolveMaterials materials (fst (materialsRendering materials textures data)).
Proof.
  intros Hd Hp. symmetry. apply resolveMaterials_perm; [|exact Hp].
  apply materialsRendering_NoDup, Hd.
Qed.

Lemma materialsRendering_order_independent_witness :
  let md := mkMaterialData None None None JUndef JUndef JUndef JUndef JUndef JUndef
              None JUndef JUndef None JUndef None in
  let data := [("wood"%string, md); ("metal"%string, md)] in
  NoDup (map fst data) /\
  Permutation (fst (materialsRendering ∅ ∅ data)) (rev (fst (materialsRendering ∅ ∅ data))) /\
  resolveMaterials ∅ (rev (fst (materialsRendering ∅ ∅ data))) =
    resolveMaterials ∅ (fst (materialsRendering ∅ ∅ data)).
Proof.
  intros md data.
  assert (Hd : NoDup (map fst data)).
  { apply (bool_decide_eq_true_1 _). vm_compute. reflexivity. }
  split; [exact Hd|]. split; [apply Permutation_rev|].
  apply (materialsRendering_order_independent ∅ ∅ data); [exact Hd | apply Permutation_rev].
Defined.

(** materialsRendering, resolved: every entry of the mapping is one that was
    there before or a material built from a declaration with the same id;
    such a material has a shininess of at least 0, an opacity in [[0, 1]],
    and a map only when its [textureref] names a loaded texture. *)
Theorem materialsRendering_resolved_values (materials : gmap string threeMaterial)
    (textures : gmap string texture) (data : list (string * materialData))
    (order : list (string * myMaterial)) (k : string) (tm : threeMaterial) :
  Permutation (fst (materialsRendering materials textures data)) order ->
  resolveMaterials materials order !! k = Some tm ->
  materials !! k = Some tm \/
  exists md, In (k, md) data /\ tm = createThreeMaterial (newMyMaterials k md textures) /\
    js_ge (tm_shininess tm) (JFin 0) = true /\
    (exists o, tm_opacity tm = JFin o /\ 0 <= o <= 1) /\
    (forall t, tm_map tm = Some t ->
       exists r, md_textureref md = Some r /\ textures !! r = Some t).
Proof.
  intros Hp H. apply resolveMaterials_lookup in H as [H|(m & Hin & ->)]; [auto|].
  right. apply (Permutation_in _ (Permutation_sym Hp)) in Hin.
  apply materialsRendering_entries in Hin as (md & Hin & -> & Hv).
  exists md. split; [exact Hin|]. split; [reflexivity|]. split.
  - unfold isValid in Hv. cbn in Hv |- *. exact Hv.
  - split; [apply toValidOpacity_range|].
    intros t Ht. cbn in Ht. apply getTexture_some in Ht as (r & Hr & _ & Ht).
    exists r. auto.
Qed.

Lemma materialsRendering_resolved_values_witness :
  let md := mkMaterialData None None None (JNum (JFin 10)) JUndef (JNum (JFin 2)) JUndef JUndef
              JUndef (Some "wood_tex"%string) JUndef JUndef None JUndef None in
  let textures := {["wood_tex" := mkTexture "wood_tex"]} in
  let data := [("wood"%string, md)] in
  Permutation (fst (materialsRendering ∅ textures data)) (fst (materialsRendering ∅ textures data)) /\
  resolveMaterials ∅ (fst (materialsRendering ∅ textures data)) !! "wood"%string =
    Some (createThreeMaterial (newMyMaterials "wood" md textures)) /\
  ((∅ : gmap string threeMaterial) !! "wood"%string = Some (createThreeMaterial (newMyMaterials "wood" md textures)) \/
   exists md', In ("wood"%string, md') data /\
     createThreeMaterial (newMyMaterials "wood" md textures) =
       createThreeMaterial (newMyMaterials "wood" md' textures) /\
     js_ge (tm_shininess (createThreeMaterial (newMyMaterials "wood" md textures))) (JFin 0) = true /\
     (exists o, tm_opacity (createThreeMaterial (newMyMaterials "wood" md textures)) = JFin o /\
        0 <= o <= 1) /\
     (forall t, tm_map (createThreeMaterial (newMyMaterials "wood" md textures)) = Some t ->
        exists r, md_textureref md' = Some r /\ textures !! r = Some t)).
Proof.
  intros md textures data.
  assert (E : resolveMaterials ∅ (fst (materialsRendering ∅ textures data)) !! "wood"%string =
                Some (createThreeMaterial (newMyMaterials "wood" md textures)))
    by reflexivity.
  split; [reflexivity|]. split; [exact E|].
  exact (materialsRendering_resolved_values ∅ textures data _ "wood" _ (Permutation_refl _) E).
Defined.

End MaterialResolveProofs.

Module PolygonProofs.
Import Polygon.
Local Open Scope Q_scope.

Lemma qnat_nonneg (n : nat) : 0 <= qnat n.
Proof. unfold qnat. change 0 with (inject_Z 0). rewrite <- Zle_Qle. lia. Qed.

Lemma qnat_lt (a b : nat) : qnat a < qnat b <-> (a < b)%nat.
Proof. unfold qnat. rewrite <- Zlt_Qlt. lia. Qed.

Lemma qnat_inj (a b : nat) : qnat a == qnat b -> a = b.
Proof. unfold qnat. rewrite inject_Z_injective. lia. Qed.

Lemma countersLt_spec (bound : Q) (n : nat) :
  In n (countersLt bound) <-> qnat n < bound.
Proof.
  unfold countersLt. destruct (Qle_bool bound 0) eqn:E.
  - apply Qle_bool_iff in E. split; [intros []|]. intros H.
    pose proof (qnat_nonneg n). lra.
  - rewrite in_seq. assert (Hb : ~ bound <= 0) by (rewrite <- Qle_bool_iff; congruence).
    apply Qnot_le_lt in Hb. pose proof (Qle_ceiling bound) as Hc. pose proof (Qceiling_lt bound) as Hl.
    split.
    + intros [_ Hn]. cbn in Hn.
      assert (Z.of_nat n <= Qceiling bound - 1)%Z as Hz by lia.
      rewrite Zle_Qle in Hz. unfold qnat. lra.
    + intros Hn. assert (Z.of_nat n < Qceiling bound)%Z as Hz.
      { rewrite Zlt_Qlt. unfold qnat in Hn. lra. }
      cbn. lia.
Qed.

Lemma countersLe_length (bound : Q) :
  0 <= bound -> length (countersLe bound) = S (Z.to_nat (Qfloor bound)).
Proof.
  intros H. unfold countersLe. apply Qle_bool_iff in H. rewrite H. apply length_seq.
Qed.

Lemma polygonIndices_spec (stacks slices : Q) (i : Q) :
  In i (polygonIndices stacks slices) <->
  exists stack slice, qnat stack < stacks /\ qnat slice < slices /\
    let current := qnat stack * (slices + 1) + qnat slice in
    let next := current + slices + 1 in
    In i [current; next; current + 1; next; next + 1; current + 1].
Proof.
  unfold polygonIndices. rewrite in_flat_map. split.
  - intros (stack & Hs & Hi). apply in_flat_map in Hi as (slice & Hl & Hi).
    exists stack, slice. rewrite <- !countersLt_spec. auto.
  - intros (stack & slice & Hs & Hl & Hi). exists stack.
    split; [apply countersLt_spec, Hs|]. apply in_flat_map. exists slice.
    split; [apply countersLt_spec, Hl | exact Hi].
Qed.

Lemma floor_qnat (x : Q) (n : nat) : x == qnat n -> Qfloor x = Z.of_nat n.
Proof. intros ->. apply Qfloor_Z. Qed.

Lemma ceiling_qnat (x : Q) (n : nat) : x == qnat n -> Qceiling x = Z.of_nat n.
Proof. intros ->. apply Qceiling_Z. Qed.

Lemma qnat_floor (x : Q) : 0 <= x -> qnat (Z.to_nat (Qfloor x)) <= x.
Proof.
  intros H. pose proof (Qfloor_le x) as Hf. pose proof (Qfloor_resp_le 0 x H) as H0.
  change 0 with (inject_Z 0) in H0. rewrite Qfloor_Z in H0.
  unfold qnat. rewrite Z2Nat.id by lia. exact Hf.
Qed.

Ltac qnat_arith :=
  unfold qnat, Qeq, Qminus; cbn [Qnum Qden inject_Z Qplus Qmult Qopp Z.opp Z.mul Pos.mul]; nia.

(** createPrimitive, polygon: every entry of [polygon_indices] is the index
    of a vertex of [polygon_positions] exactly when the (finite) numbers of
    stacks and slices are whole numbers, or one of them is at most 0 (no
    triangle at all).  A fractional count makes the index loop reach a row
    or a column the vertex loops never pushed. *)
Theorem polygonIndices_valid (stacks slices : Q) :
  (forall i, In i (polygonIndices stacks slices) ->
     exists n, i == qnat n /\ (n < polygonVertexCount stacks slices)%nat) <->
  stacks <= 0 \/ slices <= 0 \/ exists s l, stacks == qnat s /\ slices == qnat l.
Proof.
  split.
  - intros H.
    destruct (Qlt_le_dec 0 stacks) as [Hs|Hs]; [|left; exact Hs].
    destruct (Qlt_le_dec 0 slices) as [Hl|Hl]; [|right; left; exact Hl].
    right; right.
    set (g := Z.to_nat (Qfloor stacks)). set (f := Z.to_nat (Qfloor slices)).
    destruct (Qeq_dec slices (qnat f)) as [Hf|Hf].
    + destruct (Qeq_dec stacks (qnat g)) as [Hg|Hg]; [exists g, f; auto|].
      exfalso.
      assert (Hgl : qnat g < stacks).
      { pose proof (qnat_floor stacks (Qlt_le_weak _ _ Hs)) as Hle.
        apply Qle_lt_or_eq in Hle as [Hlt|E]; [exact Hlt|].
        exfalso. apply Hg. symmetry. exact E. }
      destruct (H (qnat g * (slices + 1) + qnat 0 + slices + 1)) as (n & En & Hn).
      { apply polygonIndices_spec. exists g, 0%nat. split; [exact Hgl|].
        split; [exact Hl|]. cbn. right; left; reflexivity. }
      unfold polygonVertexCount in Hn. rewrite !countersLe_length in Hn by lra.
      assert (n = (S g * S f)%nat) as ->; [|lia].
      apply qnat_inj. rewrite <- En. rewrite Hf. qnat_arith.
    + exfalso. destruct (H (qnat 0 * (slices + 1) + qnat 0 + slices + 1)) as (n & En & _).
      { apply polygonIndices_spec. exists 0%nat, 0%nat.
        change (qnat 0) with 0. split; [exact Hs|]. split; [exact Hl|].
        cbn. right; left; reflexivity. }
      change (qnat 0) with 0 in En.
      assert (Hn1 : (1 < n)%nat).
      { apply qnat_lt. change (qnat 1) with 1. lra. }
      assert (Es : slices == qnat (n - 1)).
      { transitivity (qnat n - 1); [lra|]. qnat_arith. }
      apply Hf. unfold f. rewrite (floor_qnat _ _ Es), Nat2Z.id. exact Es.
  - intros [Hs|[Hl|(s & l & Hs & Hl)]] i Hi;
      apply polygonIndices_spec in Hi as (stack & slice & Hst & Hsl & Hi).
    + exfalso. pose proof (qnat_nonneg stack). lra.
    + exfalso. pose proof (qnat_nonneg slice). lra.
    + rewrite Hs in Hst. rewrite Hl in Hsl. apply qnat_lt in Hst, Hsl.
      unfold polygonVertexCount.
      rewrite !countersLe_length by (rewrite ?Hs, ?Hl; apply qnat_nonneg).
      rewrite (floor_qnat _ _ Hs), (floor_qnat _ _ Hl), !Nat2Z.id.
      cbv zeta in Hi.
      destruct Hi as [<-|[<-|[<-|[<-|[<-|[<-|[]]]]]]].
      * exists (stack * (l + 1) + slice)%nat. split; [rewrite Hl; qnat_arith | nia].
      * exists ((stack + 1) * (l + 1) + slice)%nat. split; [rewrite Hl; qnat_arith | nia].
      * exists (stack * (l + 1) + slice + 1)%nat. split; [rewrite Hl; qnat_arith | nia].
      * exists ((stack + 1) * (l + 1) + slice)%nat. split; [rewrite Hl; qnat_arith | nia].
      * exists ((stack + 1) * (l + 1) + slice + 1)%nat. split; [rewrite Hl; qnat_arith | nia].
      * exists (stack * (l + 1) + slice + 1)%nat. split; [rewrite Hl; qnat_arith | nia].
Qed.


Lemma countersLt_qnat (n : nat) : countersLt (qnat n) = seq 0 n.
Proof.
  unfold countersLt. destruct (Qle_bool (qnat n) 0) eqn:E.
  - apply Qle_bool_iff in E. destruct n as [|n]; [reflexivity|].
    exfalso. assert (qnat 0 < qnat (S n)) by (apply qnat_lt; lia).
    change (qnat 0) with 0 in *. lra.
  - unfold qnat. rewrite Qceiling_Z, Nat2Z.id. reflexivity.
Qed.

Lemma length_flat_map_const {A B} (f : A -> list B) (k : nat) (xs : list A) :
  (forall x, length (f x) = k) -> length (flat_map f xs) = (length xs * k)%nat.
Proof.
  intros Hf. induction xs as [|x xs IH]; [reflexivity|].
  cbn [flat_map length]. rewrite length_app, Hf, IH. lia.
Qed.

(** createPrimitive, polygon: with whole numbers [s] of stacks and [l] of
    slices, the disc has (s + 1)(l + 1) vertices and two triangles (six
    indices) per stack and slice. *)
Theorem polygon_mesh_size (s l : nat) :
  length (polygonIndices (qnat s) (qnat l)) = (6 * s * l)%nat /\
  polygonVertexCount (qnat s) (qnat l) = ((s + 1) * (l + 1))%nat.
Proof.
  split.
  - unfold polygonIndices. rewrite !countersLt_qnat.
    rewrite (length_flat_map_const _ (6 * l)%nat).
    + rewrite length_seq. lia.
    + intros stack.
      rewrite (length_flat_map_const _ 6%nat) by reflexivity. rewrite length_seq. lia.
  - unfold polygonVertexCount. rewrite !countersLe_length by apply qnat_nonneg.
    unfold qnat. rewrite !Qfloor_Z, !Nat2Z.id. lia.
Qed.

End PolygonProofs.

Module NurbsProofs.
Import Polygon Nurbs PolygonProofs.
Local Open Scope Q_scope.

Lemma countersLt_eq (x y : Q) : x == y -> countersLt x = countersLt y.
Proof.
  intros H. unfold countersLt.
  destruct (Qle_bool x 0) eqn:E1, (Qle_bool y 0) eqn:E2.
  - reflexivity.
  - apply Qle_bool_iff in E1. rewrite H in E1. apply Qle_bool_iff in E1. congruence.
  - apply Qle_bool_iff in E2. rewrite <- H in E2. apply Qle_bool_iff in E2. congruence.
  - rewrite (Qceiling_comp x y H). reflexivity.
Qed.

Lemma row_of (i d : nat) : Qfloor (qnat i / (qnat d + 1)) = Z.of_nat (i / S d).
Proof.
  assert (Hd : qnat d + 1 == qnat (S d)).
  { unfold qnat, Qeq. cbn [Qnum Qden inject_Z Qplus]. lia. }
  rewrite (Qfloor_comp _ (qnat i / qnat (S d))) by (rewrite Hd; reflexivity).
  unfold qnat. rewrite <- Zdiv_Qdiv, Nat2Z.inj_div. reflexivity.
Qed.

Lemma fold_rows (f : nat -> Z) (points : list (option vec3)) (n : nat) (r : Z) :
  fold_left (fun (controlPoints : gmap Z (list point)) i =>
               <[f i := default [] (controlPoints !! f i) ++ [nurbsPoint points i]]> controlPoints)
    (seq 0 n) ∅ !! r =
  match List.filter (fun i => bool_decide (f i = r)) (seq 0 n) with
  | [] => None
  | l => Some (map (nurbsPoint points) l)
  end.
Proof.
  induction n as [|n IH] in r |- *; [reflexivity|].
  rewrite seq_S, fold_left_app, List.filter_app. cbn [fold_left List.filter].
  destruct (decide (f n = r)) as [<-|Hne].
  - rewrite bool_decide_eq_true_2 by reflexivity. rewrite lookup_insert_eq, IH.
    destruct (List.filter _ (seq 0 n)) as [|a l]; [reflexivity|].
    cbn [app default id]. rewrite app_comm_cons, map_app. reflexivity.
  - rewrite bool_decide_eq_false_2 by exact Hne. rewrite lookup_insert_ne by exact Hne.
    rewrite IH, app_nil_r. reflexivity.
Qed.

Lemma filter_const_in {A} (p : A -> bool) (b : bool) (l : list A) :
  (forall x, In x l -> p x = b) -> List.filter p l = if b then l else [].
Proof.
  intros H. induction l as [|x l IH]; [destruct b; reflexivity|].
  cbn. rewrite H by (left; reflexivity). rewrite IH by (intros y Hy; apply H; right; exact Hy).
  destruct b; reflexivity.
Qed.

Lemma filter_rows (m k : nat) (r : Z) :
  (0 < m)%nat ->
  List.filter (fun i => bool_decide (Z.of_nat (i / m) = r)) (seq 0 (k * m)) =
  if bool_decide (0 <= r < Z.of_nat k)%Z then seq (Z.to_nat r * m) m else [].
Proof.
  intros Hm. induction k as [|k IH].
  - cbn. rewrite bool_decide_eq_false_2 by lia. reflexivity.
  - replace (S k * m)%nat with (k * m + m)%nat by lia.
    rewrite seq_app, List.filter_app, IH. cbn [Nat.add].
    rewrite (filter_const_in _ (bool_decide (Z.of_nat k = r))).
    + destruct (decide (0 <= r < Z.of_nat k)%Z) as [Hr|Hr].
      * rewrite bool_decide_eq_true_2 by exact Hr.
        rewrite (bool_decide_eq_false_2 (Z.of_nat k = r)) by lia.
        rewrite bool_decide_eq_true_2 by lia. apply app_nil_r.
      * rewrite (bool_decide_eq_false_2 (0 <= r < Z.of_nat k)%Z) by exact Hr.
        destruct (decide (Z.of_nat k = r)) as [<-|Hk].
        -- rewrite !bool_decide_eq_true_2 by lia. rewrite Nat2Z.id. reflexivity.
        -- rewrite !bool_decide_eq_false_2 by lia. reflexivity.
    + intros i Hi. apply in_seq in Hi.
      assert (E : (i / m)%nat = k).
      { symmetry. apply (Nat.div_unique i m k (i - k * m)); lia. }
      rewrite E. reflexivity.
Qed.

(** createPrimitive, nurbs: with whole degrees [degreeU] and [degreeV], the
    control points form [degreeU + 1] rows of [degreeV + 1] points, row [r]
    holding the declared points [r (degreeV + 1)] to
    [r (degreeV + 1) + degreeV] in order, a missing or falsy one being
    [[0, 0, 0, 1]]. *)
Theorem nurbsControlPoints_grid (degreeU degreeV : nat) (points : list (option vec3)) (r : Z) :
  nurbsControlPoints (qnat degreeU) (qnat degreeV) points !! r =
  if bool_decide (0 <= r <= Z.of_nat degreeU)%Z
  then Some (map (nurbsPoint points) (seq (Z.to_nat r * S degreeV) (S degreeV)))
  else None.
Proof.
  unfold nurbsControlPoints.
  rewrite (countersLt_eq _ (qnat (S degreeU * S degreeV))), countersLt_qnat.
  2: { unfold qnat, Qeq. cbn [Qnum Qden inject_Z Qplus Qmult Z.mul Pos.mul]. nia. }
  rewrite (fold_rows (fun i => Qfloor (qnat i / (qnat degreeV + 1)))).
  rewrite (List.filter_ext_in _ (fun i => bool_decide (Z.of_nat (i / S degreeV) = r)))
    by (intros i _; rewrite row_of; reflexivity).
  rewrite filter_rows by lia.
  destruct (decide (0 <= r <= Z.of_nat degreeU)%Z) as [Hr|Hr].
  - rewrite !bool_decide_eq_true_2 by lia. reflexivity.
  - rewrite !bool_decide_eq_false_2 by lia. reflexivity.
Qed.

End NurbsProofs.

(** ** The UV adjustment passes *)
Module UVProofs.
Import Primitive UVs.

Section IndexedLoop.
(** [G i p]: the new [(u, v)] of the vertex [i] from its current pair. *)
Variable G : nat -> jsnum * jsnum -> jsnum * jsnum.

Lemma imap_upto_0 (uvs : uvBuffer) :
  imap (fun i p => if (i <? 0)%nat then G i p else p) uvs = uvs.
Proof.
  apply list_eq; intros i. rewrite list_lookup_imap.
  destruct (uvs !! i); reflexivity.
Qed.

Lemma imap_upto_step (uvs : uvBuffer) (n : nat) :
  let a := imap (fun i p => if (i <? n)%nat then G i p else p) uvs in
  setXY a n (G n (getX a n, getY a n)).1 (G n (getX a n, getY a n)).2
  = imap (fun i p => if (i <? S n)%nat then G i p else p) uvs.
Proof.
  cbn zeta. unfold setXY, getX, getY.
  destruct (decide (n < length uvs)%nat) as [Hn | Hn].
  - apply list_eq; intros i.
    destruct (decide (i = n)) as [-> | Hi].
    + rewrite list_lookup_insert_eq by (rewrite length_imap; lia).
      rewrite !list_lookup_imap.
      rewrite Nat.ltb_irrefl, (proj2 (Nat.ltb_lt n (S n))) by lia.
      destruct (uvs !! n) as [[x y] |] eqn:E.
      * cbn. destruct (G n (x, y)); reflexivity.
      * apply lookup_ge_None_1 in E. lia.
    + rewrite list_lookup_insert_ne by congruence.
      rewrite !list_lookup_imap.
      destruct (uvs !! i); [|reflexivity].
      destruct (Nat.ltb_spec i n), (Nat.ltb_spec i (S n)); try reflexivity; lia.
  - rewrite list_insert_ge by (rewrite length_imap; lia).
    apply list_eq; intros i. rewrite !list_lookup_imap.
    destruct (uvs !! i) eqn:E; [|reflexivity].
    apply lookup_lt_Some in E.
    destruct (Nat.ltb_spec i n), (Nat.ltb_spec i (S n)); try reflexivity; lia.
Qed.

Lemma imap_upto_all (uvs : uvBuffer) (n : nat) :
  (length uvs <= n)%nat ->
  imap (fun i p => if (i <? n)%nat then G i p else p) uvs = imap G uvs.
Proof.
  intros Hn. apply imap_ext. intros i p Hi.
  apply lookup_lt_Some in Hi.
  rewrite (proj2 (Nat.ltb_lt i n)) by lia. reflexivity.
Qed.

Variable step : uvBuffer -> nat -> uvBuffer.
Hypothesis Hstep : forall a i,
  step a i = setXY a i (G i (getX a i, getY a i)).1 (G i (getX a i, getY a i)).2.

Lemma indexed_loop (uvs : uvBuffer) (n k : nat) :
  fold_left step (seq n k) (imap (fun i p => if (i <? n)%nat then G i p else p) uvs)
  = imap (fun i p => if (i <? n + k)%nat then G i p else p) uvs.
Proof.
  revert n. induction k as [|k IH]; intros n.
  - cbn [seq fold_left]. rewrite Nat.add_0_r. reflexivity.
  - cbn [seq fold_left]. rewrite Hstep, imap_upto_step, IH.
    rewrite Nat.add_succ_r. reflexivity.
Qed.

End IndexedLoop.

(** A loop over every vertex applies its pair function to each of them. *)
Lemma every_vertex (F : jsnum * jsnum -> jsnum * jsnum) (step : uvBuffer -> nat -> uvBuffer)
  (uvs : uvBuffer) :
  (forall a i, step a i = setXY a i (F (getX a i, getY a i)).1 (F (getX a i, getY a i)).2) ->
  fold_left step (seq 0 (length uvs)) uvs = F <$> uvs.
Proof.
  intros Hstep.
  rewrite <- (imap_upto_0 (fun _ => F) uvs) at 2.
  rewrite (indexed_loop (fun _ => F) step Hstep uvs 0 (length uvs)).
  rewrite imap_upto_all by lia.
  apply imap_const.
Qed.

Lemma js_div_one (a : jsnum) : js_div a (JFin 1) = a.
Proof.
  destruct a as [[n d] | | |]; try reflexivity.
  unfold js_div. change (Qeq_bool 1 0) with false. cbv iota.
  change (((n # d) / 1)%Q) with (Qmake (n * 1) (d * 1)).
  rewrite Z.mul_1_r, Pos.mul_1_r. reflexivity.
Qed.

(** The inner loop of [adjustBoxUVs] over [k] vertices from [uvIndex = n0]. *)
Lemma box_inner (G : nat -> jsnum * jsnum -> jsnum * jsnum)
  (istep : uvBuffer * nat -> nat -> uvBuffer * nat) (uvs : uvBuffer) (k : nat) :
  forall n0 j0,
  (forall a n j, (n0 <= n < n0 + k)%nat ->
     istep (a, n) j = (setXY a n (G n (getX a n, getY a n)).1 (G n (getX a n, getY a n)).2, S n)) ->
  fold_left istep (seq j0 k) (imap (fun i p => if (i <? n0)%nat then G i p else p) uvs, n0)
  = (imap (fun i p => if (i <? n0 + k)%nat then G i p else p) uvs, (n0 + k)%nat).
Proof.
  induction k as [|k IH]; intros n0 j0 Hstep.
  - cbn [seq fold_left]. rewrite Nat.add_0_r. reflexivity.
  - cbn [seq fold_left]. rewrite Hstep by lia. rewrite imap_upto_step.
    rewrite IH by (intros; apply Hstep; lia).
    rewrite Nat.add_succ_r. reflexivity.
Qed.

(** The outer loop of [adjustBoxUVs] over [k] faces from [face = f0]. *)
Lemma box_outer (G : nat -> jsnum * jsnum -> jsnum * jsnum)
  (ostep : uvBuffer * nat -> nat -> uvBuffer * nat) (uvs : uvBuffer) (k : nat) :
  forall f0,
  (forall f, (f0 <= f < f0 + k)%nat ->
     ostep (imap (fun i p => if (i <? 4 * f)%nat then G i p else p) uvs, (4 * f)%nat) f
     = (imap (fun i p => if (i <? 4 * f + 4)%nat then G i p else p) uvs, (4 * f + 4)%nat)) ->
  fold_left ostep (seq f0 k) (imap (fun i p => if (i <? 4 * f0)%nat then G i p else p) uvs, (4 * f0)%nat)
  = (imap (fun i p => if (i <? 4 * (f0 + k))%nat then G i p else p) uvs, (4 * (f0 + k))%nat).
Proof.
  induction k as [|k IH]; intros f0 Hstep.
  - cbn [seq fold_left]. rewrite Nat.add_0_r. reflexivity.
  - cbn [seq fold_left]. rewrite Hstep by lia.
    replace (4 * f0 + 4)%nat with (4 * S f0)%nat by lia.
    rewrite IH by (intros; apply Hstep; lia).
    replace (S f0 + k)%nat with (f0 + S k)%nat by lia. reflexivity.
Qed.

Lemma div4_face (f n : nat) : (4 * f <= n < 4 * f + 4)%nat -> (n / 4)%nat = f.
Proof. intros Hn. symmetry. apply (Nat.div_unique n 4 f (n - 4 * f)); lia. Qed.

(** *** Extras *)

(** The rectangle and cylinder passes rescale every vertex of the [uv]
    attribute, each from its own original pair: [u * width / texlength_s]
    and [v * height / texlength_t] for a rectangle, [u * (2 * PI * radius) /
    texlength_s] and [v * height / texlength_t] for a cylinder. *)
Theorem adjustRectangleUVs_every_vertex (uvs : uvBuffer) (texlength_s texlength_t width height radius : jsnum) :
  adjustRectangleUVs uvs texlength_s texlength_t width height
  = (fun '(x, y) => (js_div (js_mul x width) texlength_s, js_div (js_mul y height) texlength_t)) <$> uvs
  /\ adjustCylinderUVs uvs texlength_s texlength_t height radius
  = (fun '(x, y) => (js_div (js_mul x (js_mul (js_mul (JFin 2) ValidationUtils.Math_PI) radius)) texlength_s,
                     js_div (js_mul y height) texlength_t)) <$> uvs.
Proof.
  split.
  - unfold adjustRectangleUVs.
    apply (every_vertex (fun '(x, y) => (js_div (js_mul x width) texlength_s,
                                         js_div (js_mul y height) texlength_t))).
    intros a i. reflexivity.
  - unfold adjustCylinderUVs.
    apply (every_vertex (fun '(x, y) =>
             (js_div (js_mul x (js_mul (js_mul (JFin 2) ValidationUtils.Math_PI) radius)) texlength_s,
              js_div (js_mul y height) texlength_t))).
    intros a i. reflexivity.
Qed.

(** The box pass rescales the first 24 vertices only, the vertex [i] by the
    size of the face [i / 4] (px, nx, py, ny, pz, nz in turn); every vertex
    from the 25th on keeps its pair, so the extra vertices of a box built
    with more than one part per side are never rescaled. *)
Theorem adjustBoxUVs_first_24 (uvs : uvBuffer) (texlength_s texlength_t width height depth : jsnum) :
  adjustBoxUVs uvs texlength_s texlength_t width height depth
  = imap (fun i p =>
            if (i <? 24)%nat then
              let faceSize := default (JNaN, JNaN) (faceSizes width height depth !! (i / 4)%nat) in
              (js_div (js_mul p.1 faceSize.1) texlength_s, js_div (js_mul p.2 faceSize.2) texlength_t)
            else p) uvs.
Proof.
  set (G := fun (i : nat) (p : jsnum * jsnum) =>
              let faceSize := default (JNaN, JNaN) (faceSizes width height depth !! (i / 4)%nat) in
              (js_div (js_mul p.1 faceSize.1) texlength_s, js_div (js_mul p.2 faceSize.2) texlength_t)).
  change (adjustBoxUVs uvs texlength_s texlength_t width height depth
          = imap (fun i p => if (i <? 4 * (0 + 6))%nat then G i p else p) uvs).
  unfold adjustBoxUVs.
  match goal with |- fst (fold_left ?ostep _ _) = _ =>
    pose proof (box_outer G ostep uvs 6 0) as HB
  end.
  change (4 * 0)%nat with 0%nat in HB. rewrite (imap_upto_0 G uvs) in HB.
  rewrite HB; [reflexivity |].
  - intros f Hf.
    match goal with |- context [fold_left ?istep (seq 0 4) _] =>
      rewrite (box_inner G istep uvs 4 (4 * f) 0)
    end.
    + reflexivity.
    + intros a n j Hn. unfold G. rewrite (div4_face f n) by lia. reflexivity.
Qed.

(** The texture lengths of the UV passes are never 0 nor NaN; the sphere and
    NURBS passes divide every vertex's pair by them, the same way. *)
Theorem sphere_nurbs_uvs (material : option Primitive.material) (uvs : uvBuffer) :
  let '(texlength_s, texlength_t) := uvTexlengths material in
  js_truthy_num texlength_s = true /\ js_truthy_num texlength_t = true
  /\ adjustSphereUVs uvs texlength_s texlength_t
     = (fun '(x, y) => (js_div x texlength_s, js_div y texlength_t)) <$> uvs
  /\ adjustNURBSUVs uvs texlength_s texlength_t = adjustSphereUVs uvs texlength_s texlength_t.
Proof.
  assert (Hmap : forall s t, adjustSphereUVs uvs s t = (fun '(x, y) => (js_div x s, js_div y t)) <$> uvs
                             /\ adjustNURBSUVs uvs s t = (fun '(x, y) => (js_div x s, js_div y t)) <$> uvs).
  { intros s t. split.
    - unfold adjustSphereUVs. apply (every_vertex (fun '(x, y) => (js_div x s, js_div y t))).
      intros a i. reflexivity.
    - unfold adjustNURBSUVs. apply (every_vertex (fun '(x, y) => (js_div x s, js_div y t))).
      intros a i. reflexivity. }
  unfold uvTexlengths.
  destruct material as [m |].
  - destruct (js_truthy_num (texlen (mat_texlength_s m))) eqn:Es,
             (js_truthy_num (texlen (mat_texlength_t m))) eqn:Et; cbn [andb];
      (destruct (Hmap (texlen (mat_texlength_s m)) (texlen (mat_texlength_t m))) as [H1 H2]
       || idtac);
      repeat split; auto;
      destruct (Hmap (JFin 1) (JFin 1)) as [H3 H4]; rewrite ?H3, ?H4; reflexivity.
  - destruct (Hmap (JFin 1) (JFin 1)) as [H3 H4]. repeat split; rewrite ?H3, ?H4; reflexivity.
Qed.

(** Without truthy texture lengths on the material (no material, the
    default material clone, a length of 0, undefined or NaN) the sphere and
    NURBS passes leave the [uv] attribute as it is, whatever its values. *)
Theorem sphere_nurbs_uvs_unchanged (material : option Primitive.material) (uvs : uvBuffer) :
  (forall m, material = Some m ->
     js_truthy_num (texlen (mat_texlength_s m)) && js_truthy_num (texlen (mat_texlength_t m)) = false) ->
  adjustSphereUVs uvs (uvTexlengths material).1 (uvTexlengths material).2 = uvs
  /\ adjustNURBSUVs uvs (uvTexlengths material).1 (uvTexlengths material).2 = uvs.
Proof.
  intros Hm.
  assert (E : uvTexlengths material = (JFin 1, JFin 1)).
  { unfold uvTexlengths. destruct material as [m |]; [|reflexivity].
    rewrite (Hm m eq_refl). reflexivity. }
  rewrite E. cbn [fst snd].
  assert (Hid : (fun '(x, y) => (js_div x (JFin 1), js_div y (JFin 1))) <$> uvs = uvs).
  { rewrite <- (list_fmap_id uvs) at 2. apply list_fmap_ext.
    intros i [x y] _. rewrite !js_div_one. reflexivity. }
  split.
  - rewrite <- Hid at 2. unfold adjustSphereUVs.
    apply (every_vertex (fun '(x, y) => (js_div x (JFin 1), js_div y (JFin 1)))).
    intros a i. reflexivity.
  - rewrite <- Hid at 2. unfold adjustNURBSUVs.
    apply (every_vertex (fun '(x, y) => (js_div x (JFin 1), js_div y (JFin 1)))).
    intros a i. reflexivity.
Qed.

Lemma sphere_nurbs_uvs_unchanged_witness :
  adjustSphereUVs [(JFin (1#2), JNaN); (JPosInf, JFin 3)]
    (uvTexlengths (Some defaultMaterialClone)).1 (uvTexlengths (Some defaultMaterialClone)).2
  = [(JFin (1#2), JNaN); (JPosInf, JFin 3)]
  /\ adjustNURBSUVs [(JFin (1#2), JNaN); (JPosInf, JFin 3)]
    (uvTexlengths (Some defaultMaterialClone)).1 (uvTexlengths (Some defaultMaterialClone)).2
  = [(JFin (1#2), JNaN); (JPosInf, JFin 3)].
Proof.
  apply (sphere_nurbs_uvs_unchanged (Some defaultMaterialClone)).
  intros m Hm. injection Hm as <-. reflexivity.
Defined.

End UVProofs.
